(** * AI Crop Doctor: front-end scripts

    A shallow embedding of the three browser scripts of the repository
    (the language layer [static/js/language.js], the sign-in script
    [static/js/auth.js] and the emergency-request script) together with
    the properties stated about them.

    Conventions of the embedding.
    - A JavaScript string is the list of its UTF-16 code units.
    - A JavaScript number is an IEEE 754 binary64, Rocq's primitive [float].
    - Every script runs single-threaded; an [async] function is modelled as
      running to completion, the answer of each awaited request being
      supplied by the environment.
    - What the browser or the engine decides (JSON parsing and printing,
      the text of engine-made error messages, storage quota, conversion of
      non-string values to strings) is a field of the class [Host]. *)

From Stdlib Require Import PrimFloat Ascii String.
From stdpp Require Import gmap list.

Set Warnings "-register-all".
Local Open Scope list_scope.

(** ** The fragment of JavaScript the scripts rely on *)

Module JS.

Abbreviation jsstring := (list N).

(** A string literal of the source (ASCII only), as code units. *)
Definition js (s : string) : jsstring :=
  N_of_ascii <$> list_ascii_of_string s.
Arguments js : simpl never.

(** [WhiteSpace] and [LineTerminator] code units, what
    [String.prototype.trim] strips. *)
Definition is_white_space (c : N) : bool :=
  bool_decide (c ∈ [9; 10; 11; 12; 13; 32; 160; 5760; 8232; 8233; 8239;
                    8287; 12288; 65279]%N)
  || ((8192 <=? c)%N && (c <=? 8202)%N).

Fixpoint trimStart (s : jsstring) : jsstring :=
  match s with
  | c :: s' => if is_white_space c then trimStart s' else s
  | [] => []
  end.

Definition trimEnd (s : jsstring) : jsstring := rev (trimStart (rev s)).

Definition trim (s : jsstring) : jsstring := trimEnd (trimStart s).

(** Values.  [VBuiltin k] stands for the built-in function or object
    found under the name [k] on a built-in prototype
    ([Object.prototype.toString], ...): it is only ever tested for
    truthiness or used as a receiver. *)
Inductive value : Type :=
| VUndef
| VNull
| VBool (b : bool)
| VNum (n : float)
| VStr (s : jsstring)
| VArr (elems : list value)
| VObj (props : list (jsstring * value))
| VBuiltin (name : jsstring).

(** [ToBoolean]. *)
Definition truthy (v : value) : bool :=
  match v with
  | VUndef | VNull => false
  | VBool b => b
  | VNum n => negb (is_zero n || is_nan n)
  | VStr s => negb (bool_decide (s = []))
  | VArr _ | VObj _ | VBuiltin _ => true
  end.

(** [a || b] on values. *)
Definition or_else (a b : value) : value := if truthy a then a else b.

(** What can be thrown.  [Unsupported] is not a JavaScript exception: it
    marks an execution that leaves the fragment modelled here (a property
    written on an array or on a built-in object, a prototype replaced);
    no [catch] of the model intercepts it. *)
Inductive exn : Type :=
| TypeError
| Error (message : jsstring)
| Rejected (reason : value)
| QuotaExceeded
| Unsupported.

(** The names defined on [Object.prototype] (with the legacy accessors
    every browser has): each holds a function, and [__proto__] an object. *)
Definition Object_prototype_keys : list jsstring :=
  js <$> ["constructor"; "__proto__"; "hasOwnProperty"; "isPrototypeOf";
          "propertyIsEnumerable"; "toLocaleString"; "toString"; "valueOf";
          "__defineGetter__"; "__defineSetter__"; "__lookupGetter__";
          "__lookupSetter__"]%string.

(** [Number.prototype] adds three names to those of [Object.prototype];
    [Boolean.prototype] adds none. *)
Definition Number_prototype_keys : list jsstring :=
  (js <$> ["toExponential"; "toFixed"; "toPrecision"]%string)
  ++ Object_prototype_keys.

Definition proto_get (keys : list jsstring) (k : jsstring) : value :=
  if bool_decide (k ∈ keys) then VBuiltin k else VUndef.

(** Own properties of a plain object, in insertion order. *)
Fixpoint own_get (props : list (jsstring * value)) (k : jsstring)
  : option value :=
  match props with
  | [] => None
  | (k', v) :: ps => if bool_decide (k' = k) then Some v else own_get ps k
  end.

Fixpoint own_set (props : list (jsstring * value)) (k : jsstring)
    (v : value) : list (jsstring * value) :=
  match props with
  | [] => [(k, v)]
  | (k', v') :: ps =>
      if bool_decide (k' = k) then (k, v) :: ps
      else (k', v') :: own_set ps k v
  end.

(** [o[k]] on a plain object: own property, then [Object.prototype]. *)
Definition obj_get (props : list (jsstring * value)) (k : jsstring)
  : value :=
  match own_get props k with
  | Some v => v
  | None => proto_get Object_prototype_keys k
  end.

Definition is_array (v : value) : bool :=
  match v with VArr _ => true | _ => false end.

(** [a[j]] on an array, for an index [j]. *)
Definition array_index (a : list value) (j : nat) : value :=
  match a !! j with Some v => v | None => VUndef end.

(** The part of the platform the scripts call into. *)
Class Host : Type := {
  (** [JSON.parse]; [None] when it throws a [SyntaxError]. *)
  JSON_parse : jsstring → option value;
  (** [JSON.stringify] on a value obtained from [JSON.parse] and
      property writes. *)
  JSON_stringify : value → jsstring;
  (** [ToString] on a value that is not a string. *)
  ToString_other : value → jsstring;
  (** The message the engine gives a [TypeError] it throws. *)
  typeError_message : jsstring;
  (** Whether [localStorage.setItem k v] fits the quota. *)
  storage_accepts : gmap jsstring jsstring → jsstring → jsstring → bool;
  (** Property reads on a string, an array or a built-in object. *)
  exotic_get : value → jsstring → value;
  (** [JSON.parse] on the two shortest texts the scripts meet. *)
  JSON_parse_empty_object : JSON_parse (js "{}") = Some (VObj []);
  JSON_parse_null : JSON_parse (js "null") = Some VNull;
}.

Definition ToString `{Host} (v : value) : jsstring :=
  match v with VStr s => s | _ => ToString_other v end.

(** [v[k]] (the [[Get]] of a property). *)
Definition get_prop `{Host} (v : value) (k : jsstring) : exn + value :=
  match v with
  | VUndef | VNull => inl TypeError
  | VObj props => inr (obj_get props k)
  | VBool _ => inr (proto_get Object_prototype_keys k)
  | VNum _ => inr (proto_get Number_prototype_keys k)
  | VStr _ | VArr _ | VBuiltin _ => inr (exotic_get v k)
  end.

Definition is_primitive (v : value) : bool :=
  match v with
  | VUndef | VBool _ | VNum _ | VStr _ => true
  | _ => false
  end.

(** [v[k] = x] in sloppy mode (the scripts are classic scripts without a
    strict-mode directive); the result is the receiver after the write.
    A write on a primitive is silently dropped.  On a plain object the
    name [__proto__], when it is not an own property, is the accessor of
    [Object.prototype]: it ignores primitives and, given the prototype the
    object already has, changes nothing. *)
Definition set_prop (v : value) (k : jsstring) (x : value) : exn + value :=
  match v with
  | VUndef | VNull => inl TypeError
  | VBool _ | VNum _ | VStr _ => inr v
  | VObj props =>
      if bool_decide (k = js "__proto__")
         && bool_decide (own_get props k = None)
      then
        if is_primitive x then inr v
        else match x with
             | VBuiltin k' =>
                 if bool_decide (k' = js "__proto__") then inr v
                 else inl Unsupported
             | _ => inl Unsupported
             end
      else inr (VObj (own_set props k x))
  | VArr _ | VBuiltin _ => inl Unsupported
  end.

End JS.

(** ** The language layer: [static/js/language.js] *)

Module Language.
Import JS.

Definition STORAGE_KEY : jsstring := js "acd_lang".
Definition CACHE_KEY : jsstring := js "acd_lang_cache_v1".

(** The object literal [LANGS]; the labels are given by their code units. *)
Definition LANGS : list (jsstring * value) :=
  [ (js "en", VStr (js "English"));
    (js "hi", VStr (js "Hindi (" ++ [2361; 2367; 2344; 2381; 2342; 2368]%N
                    ++ js ")"));
    (js "te", VStr (js "Telugu (" ++ [3108; 3142; 3122; 3137; 3095; 3137]%N
                    ++ js ")"));
    (js "ta", VStr (js "Tamil (" ++ [2980; 2990; 3007; 2996; 3021]%N
                    ++ js ")"));
    (js "kn", VStr (js "Kannada (" ++ [3221; 3240; 3277; 3240; 3233]%N
                    ++ js ")"));
    (js "ml", VStr (js "Malayalam ("
                    ++ [3374; 3378; 3375; 3390; 3379; 3330]%N ++ js ")"));
    (js "pa", VStr (js "Punjabi (" ++ [2602; 2672; 2588; 2622; 2604; 2624]%N
                    ++ js ")"));
    (js "bho", VStr (js "Bhojpuri ("
                     ++ [2349; 2379; 2332; 2346; 2369; 2352; 2368]%N
                     ++ js ")")) ].

(** The language codes the application supports: the keys of [LANGS]. *)
Definition supported (lang : jsstring) : Prop := lang ∈ LANGS.*1.

(** *** The page *)

(** A DOM node.  [tagName] is what the DOM reports for an HTML element
    (upper case).  Comments and other nodes without text are [Other]. *)
Inductive Node : Type :=
| Text (nodeValue : jsstring)
| Elem (tagName : jsstring) (attributes : list (jsstring * jsstring))
       (childNodes : list Node)
| Other.

(** A node is identified by the child indices leading to it from
    [document.body]; the scripts never add, move or remove a node. *)
Abbreviation path := (list nat).

Record Document : Type := mkDocument {
  html_attributes : list (jsstring * jsstring);
  body : option Node;
}.

(** A [.languageSelect] element: the values of its options and its current
    [value]. *)
Record Select : Type := mkSelect {
  options : list jsstring;
  value_of : jsstring;
}.

Record Request : Type := mkRequest {
  req_lang : jsstring;
  req_texts : list jsstring;
}.

(** What [fetch] and [res.json()] give: a rejected [fetch], or a response
    with its [ok] flag and its body, [None] when the body is not JSON. *)
Inductive Response : Type :=
| NetworkError (reason : value)
| HttpResponse (ok : bool) (json : option value).

Record Page : Type := mkPage {
  localStorage : gmap jsstring jsstring;
  document : Document;
  languageSelects : list Select;
  originalTextByNode : gmap path (option jsstring);
  originalAttrsByEl : gmap path (list (jsstring * value));
  requests : list Request;
  console : list exn;
}.

Definition set_localStorage (f : gmap jsstring jsstring) (s : Page) : Page :=
  mkPage f (document s) (languageSelects s) (originalTextByNode s)
         (originalAttrsByEl s) (requests s) (console s).
Definition set_document (d : Document) (s : Page) : Page :=
  mkPage (localStorage s) d (languageSelects s) (originalTextByNode s)
         (originalAttrsByEl s) (requests s) (console s).
Definition set_languageSelects (l : list Select) (s : Page) : Page :=
  mkPage (localStorage s) (document s) l (originalTextByNode s)
         (originalAttrsByEl s) (requests s) (console s).
Definition set_originalTextByNode (m : gmap path (option jsstring))
    (s : Page) : Page :=
  mkPage (localStorage s) (document s) (languageSelects s) m
         (originalAttrsByEl s) (requests s) (console s).
Definition set_originalAttrsByEl (m : gmap path (list (jsstring * value)))
    (s : Page) : Page :=
  mkPage (localStorage s) (document s) (languageSelects s)
         (originalTextByNode s) m (requests s) (console s).
Definition set_requests (l : list Request) (s : Page) : Page :=
  mkPage (localStorage s) (document s) (languageSelects s)
         (originalTextByNode s) (originalAttrsByEl s) l (console s).
Definition set_console (l : list exn) (s : Page) : Page :=
  mkPage (localStorage s) (document s) (languageSelects s)
         (originalTextByNode s) (originalAttrsByEl s) (requests s) l.

(** *** DOM accessors *)

Fixpoint getAttribute (attrs : list (jsstring * jsstring)) (name : jsstring)
  : option jsstring :=
  match attrs with
  | [] => None
  | (k, v) :: rest =>
      if bool_decide (k = name) then Some v else getAttribute rest name
  end.

Fixpoint setAttribute (attrs : list (jsstring * jsstring)) (name : jsstring)
    (v : jsstring) : list (jsstring * jsstring) :=
  match attrs with
  | [] => [(name, v)]
  | (k, v') :: rest =>
      if bool_decide (k = name) then (k, v) :: rest
      else (k, v') :: setAttribute rest name v
  end.

(** [n.nodeValue] of the node at [p] below [root]: [None] is [null]. *)
Fixpoint nodeValue_at (root : Node) (p : path) : option jsstring :=
  match p, root with
  | [], Text v => Some v
  | i :: p', Elem _ _ kids =>
      match kids !! i with
      | Some k => nodeValue_at k p'
      | None => None
      end
  | _, _ => None
  end.

(** [n.nodeValue = v] on the text node at [p]. *)
Fixpoint set_nodeValue (p : path) (v : jsstring) (root : Node) : Node :=
  match p, root with
  | [], Text _ => Text v
  | i :: p', Elem tag attrs kids =>
      Elem tag attrs (alter (set_nodeValue p' v) i kids)
  | _, _ => root
  end.

(** [el.getAttribute(name)] of the element at [p]. *)
Fixpoint getAttribute_at (root : Node) (p : path) (name : jsstring)
  : option jsstring :=
  match p, root with
  | [], Elem _ attrs _ => getAttribute attrs name
  | i :: p', Elem _ _ kids =>
      match kids !! i with
      | Some k => getAttribute_at k p' name
      | None => None
      end
  | _, _ => None
  end.

(** [el.setAttribute(name, v)] on the element at [p]. *)
Fixpoint setAttribute_at (p : path) (name v : jsstring) (root : Node)
  : Node :=
  match p, root with
  | [], Elem tag attrs kids => Elem tag (setAttribute attrs name v) kids
  | i :: p', Elem tag attrs kids =>
      Elem tag attrs (alter (setAttribute_at p' name v) i kids)
  | _, _ => root
  end.

(** [el.closest('[data-no-translate="true"]')] finds [el] itself. *)
Definition no_translate (attrs : list (jsstring * jsstring)) : bool :=
  bool_decide (getAttribute attrs (js "data-no-translate") = Some (js "true")).

(** What [isTranslatableTextNode] reads of [node.parentElement]. *)
Record ParentElement : Type := mkParent {
  closest_no_translate : bool;
  parent_tagName : jsstring;
}.

Definition isTranslatableTextNode (node : Node)
    (parentElement : option ParentElement) : bool :=
  match node with
  | Text text =>
      if bool_decide (text = []) then false
      else if bool_decide (trim text = []) then false
      else match parentElement with
           | None => false
           | Some parent =>
               if closest_no_translate parent then false
               else
                 let tag := parent_tagName parent in
                 if bool_decide (tag = []) then false
                 else if bool_decide
                           (tag ∈ [js "SCRIPT"; js "STYLE"; js "NOSCRIPT"])
                 then false
                 else true
           end
  | _ => false
  end.

(** A traversal of the children [ks] of an element, the first of which has
    index [i]: what [visit] finds below each child, relocated by [shift]
    from the child to the element. *)
Definition children_with {A : Type} (visit : Node → list A)
    (shift : nat → A → A) : nat → list Node → list A :=
  fix go (i : nat) (ks : list Node) : list A :=
    match ks with
    | [] => []
    | k :: ks' => (shift i <$> visit k) ++ go (S i) ks'
    end.

(** The [TreeWalker] over the text nodes below a node, in document order;
    [blocked] tells whether an ancestor carries [data-no-translate="true"]. *)
Fixpoint walkText (blocked : bool) (parent : option ParentElement)
    (n : Node) : list path :=
  match n with
  | Text _ => if isTranslatableTextNode n parent then [[]] else []
  | Other => []
  | Elem tag attrs kids =>
      let blocked' := blocked || no_translate attrs in
      children_with (walkText blocked' (Some (mkParent blocked' tag)))
                    cons 0 kids
  end.

Definition html_parent (d : Document) : option ParentElement :=
  Some (mkParent (no_translate (html_attributes d)) (js "HTML")).

Definition collectTextNodes (d : Document) (root : Node) : list path :=
  walkText (no_translate (html_attributes d)) (html_parent d) root.

Record AttrItem : Type := mkAttrItem {
  el : path;
  attr : jsstring;
  val : jsstring;
}.

(** The inner loop of [collectTranslatableAttributes] on one element. *)
Definition attr_items (p : path) (attrs : list (jsstring * jsstring))
  : list AttrItem :=
  flat_map
    (λ a, match getAttribute attrs a with
          | Some v =>
              if negb (bool_decide (v = []))
                 && negb (bool_decide (trim v = []))
              then [mkAttrItem p a (trim v)]
              else []
          | None => []
          end)
    [js "placeholder"; js "title"; js "aria-label"].

Definition matches_selector (tag : jsstring) : bool :=
  bool_decide (tag ∈ [js "INPUT"; js "TEXTAREA"; js "BUTTON"; js "A"]).

Definition shift_item (i : nat) (it : AttrItem) : AttrItem :=
  mkAttrItem (i :: el it) (attr it) (val it).

(** [querySelectorAll('input, textarea, button, a')] in document order,
    with the loop body applied to each match; [self] is false at the root,
    which [querySelectorAll] never returns. *)
Fixpoint walkAttrs (self blocked : bool) (n : Node) : list AttrItem :=
  match n with
  | Elem tag attrs kids =>
      let blocked' := blocked || no_translate attrs in
      (if self && matches_selector tag && negb blocked'
       then attr_items [] attrs else [])
      ++ children_with (walkAttrs true blocked') shift_item 0 kids
  | _ => []
  end.

Definition collectTranslatableAttributes (d : Document) (root : Node)
  : list AttrItem :=
  walkAttrs false (no_translate (html_attributes d)) root.

(** *** Computations on the page

    A computation either returns or throws, and leaves a page behind in
    both cases. *)

Inductive Res (A : Type) : Type :=
| Ret (a : A) (s : Page)
| Throw (e : exn) (s : Page).
Arguments Ret {A} a s.
Arguments Throw {A} e s.

Definition M (A : Type) : Type := Page → Res A.

Definition ret {A} (a : A) : M A := λ s, Ret a s.
Definition throw {A} (e : exn) : M A := λ s, Throw e s.
Definition bind {A B} (m : M A) (k : A → M B) : M B :=
  λ s, match m s with
       | Ret a s' => k a s'
       | Throw e s' => Throw e s'
       end.
Definition lift {A} (r : exn + A) : M A :=
  match r with inl e => throw e | inr a => ret a end.
Definition modify (f : Page → Page) : M unit := λ s, Ret tt (f s).

Notation "'do' x <- m ; k" := (bind m (λ x, k))
  (at level 10, x name, m at level 100, k at level 200).

Definition page_of {A} (r : Res A) : Page :=
  match r with Ret _ s | Throw _ s => s end.

Definition returned {A} (r : Res A) : bool :=
  match r with Ret _ _ => true | Throw _ _ => false end.

Section WithHost.
Context `{Host}.

(** The answers of the back end: what the request [r] is answered, given
    the requests made before it. *)
Variable server : list Request → Request → Response.

(** *** [getLang], [setLang] *)

Definition getLang (s : Page) : jsstring :=
  let v := trim (match localStorage s !! STORAGE_KEY with
                 | Some x => if bool_decide (x = []) then js "en" else x
                 | None => js "en"
                 end) in
  if truthy (obj_get LANGS v) then v else js "en".

Definition setItem (k v : jsstring) : M unit :=
  λ s, if storage_accepts (localStorage s) k v
       then Ret tt (set_localStorage (<[k := v]> (localStorage s)) s)
       else Throw QuotaExceeded s.

Definition setLang (lang : jsstring) : M unit :=
  let lang := if negb (truthy (obj_get LANGS lang)) then js "en" else lang in
  setItem STORAGE_KEY lang.

(** *** [loadCache], [saveCache] *)

Definition loadCache (s : Page) : value :=
  match JSON_parse (match localStorage s !! CACHE_KEY with
                    | Some x => if bool_decide (x = []) then js "{}" else x
                    | None => js "{}"
                    end) with
  | Some v => v
  | None => VObj []
  end.

(** [saveCache]: the write happens when the storage accepts it; the
    [catch] drops the exception of a refused write. *)
Definition saveCache (cache : value) (s : Page) : Page :=
  let text := JSON_stringify cache in
  set_localStorage
    (if storage_accepts (localStorage s) CACHE_KEY text
     then <[CACHE_KEY := text]> (localStorage s)
     else localStorage s)
    s.

(** *** [translateBatch] *)

(** What [translateBatch] makes of the answer to its request: the
    [translations] array, or what it throws. *)
Definition parseResponse (resp : Response) : exn + list value :=
  match resp with
  | NetworkError reason => inl (Rejected reason)
  | HttpResponse ok body =>
      let data := match body with Some d => d | None => VObj [] end in
      if negb ok then
        match get_prop data (js "error") with
        | inl e => inl e
        | inr err =>
            inl (Error (ToString
                          (or_else err (VStr (js "Translation failed")))))
        end
      else
        match get_prop data (js "translations") with
        | inl e => inl e
        | inr (VArr translations) => inr translations
        | inr _ => inl (Error (js "Invalid translation response"))
        end
  end.

Definition translateBatch (lang : jsstring) (texts : list jsstring)
  : M (list value) :=
  λ s,
    let req := mkRequest lang texts in
    lift (parseResponse (server (requests s) req))
         (set_requests (requests s ++ [req]) s).

(** *** The blocks of [applyLanguage] *)

(** [document.querySelectorAll('.languageSelect').forEach(...)]: setting
    the [value] of a select picks the option of that value, and leaves the
    select without a selection (value [""]) when there is none. *)
Definition syncSelects (lang : jsstring) (sels : list Select)
  : list Select :=
  (λ sel, if bool_decide (value_of sel ≠ lang)
          then mkSelect (options sel)
                        (if bool_decide (lang ∈ options sel) then lang
                         else [])
          else sel) <$> sels.

Definition is_undefined (v : value) : bool :=
  match v with VUndef => true | _ => false end.

(** Lines 118-122: restore the text nodes.  A stored original is a string
    or [null] ([None]). *)
Definition restoreTextNodes (originals : gmap path (option jsstring))
    (nodes : list path) (root : Node) : Node :=
  foldl (λ r node,
           match originals !! node with
           | Some (Some orig) => set_nodeValue node orig r
           | _ => r
           end) root nodes.

(** Lines 124-128: restore the attributes. *)
Definition restoreAttributes
    (originals : gmap path (list (jsstring * value)))
    (attrItems : list AttrItem) (root : Node) : Node :=
  foldl (λ r it,
           match originals !! el it with
           | Some origAttrs =>
               match obj_get origAttrs (attr it) with
               | VStr orig => setAttribute_at (el it) (attr it) orig r
               | _ => r
               end
           | None => r
           end) root attrItems.

(** Lines 137-140: remember the text of each node on its first visit, and
    return the trimmed texts. *)
Definition captureNodeText (root : Node)
    (acc : gmap path (option jsstring) * list jsstring) (n : path)
  : gmap path (option jsstring) * list jsstring :=
  let nodeValue := nodeValue_at root n in
  let m' := match acc.1 !! n with
            | Some _ => acc.1
            | None => <[n := nodeValue]> acc.1
            end in
  (m', acc.2 ++ [trim (default [] nodeValue)]).

Definition captureNodeTexts (root : Node) (nodes : list path)
    (originals : gmap path (option jsstring))
  : gmap path (option jsstring) * list jsstring :=
  foldl (captureNodeText root) (originals, []) nodes.

(** Lines 144-149: remember the value of each attribute on its first
    visit. *)
Definition captureAttrText
    (acc : gmap path (list (jsstring * value)) * list jsstring)
    (it : AttrItem)
  : gmap path (list (jsstring * value)) * list jsstring :=
  let m1 := match acc.1 !! el it with
            | Some _ => acc.1
            | None => <[el it := []]> acc.1
            end in
  let origAttrs := default [] (m1 !! el it) in
  let m2 := if is_undefined (obj_get origAttrs (attr it))
            then <[el it := own_set origAttrs (attr it) (VStr (val it))]> m1
            else m1 in
  (m2, acc.2 ++ [val it]).

Definition captureAttrTexts (attrItems : list AttrItem)
    (originals : gmap path (list (jsstring * value)))
  : gmap path (list (jsstring * value)) * list jsstring :=
  foldl captureAttrText (originals, []) attrItems.

(** [Array.from(new Set(l))]: the first occurrence of each string, in
    order. *)
Definition Set_add (seen : list jsstring) (t : jsstring) : list jsstring :=
  if bool_decide (t ∈ seen) then seen else seen ++ [t].

Definition Array_from_Set (l : list jsstring) : list jsstring :=
  foldl Set_add [] l.

(** [cache[lang][t]]. *)
Definition cache_lookup (cache : value) (lang t : jsstring) : exn + value :=
  match get_prop cache lang with
  | inl e => inl e
  | inr entry => get_prop entry t
  end.

(** Line 155: [uniqueTexts.filter((t) => !cache[lang][t])]. *)
Fixpoint filterMissing (cache : value) (lang : jsstring)
    (texts : list jsstring) : exn + list jsstring :=
  match texts with
  | [] => inr []
  | t :: rest =>
      match cache_lookup cache lang t with
      | inl e => inl e
      | inr v =>
          match filterMissing cache lang rest with
          | inl e => inl e
          | inr l => inr (if negb (truthy v) then t :: l else l)
          end
      end
  end.

(** Objects are shared by reference: a write on the object held in
    [cache[lang]] is seen through [cache]. *)
Definition write_through (cache : value) (lang : jsstring) (entry : value)
  : value :=
  match cache with
  | VObj props =>
      match own_get props lang with
      | Some _ => VObj (own_set props lang entry)
      | None => cache
      end
  | _ => cache
  end.

(** [cache[lang][k] = x]. *)
Definition cache_store (cache : value) (lang k : jsstring) (x : value)
  : exn + value :=
  match get_prop cache lang with
  | inl e => inl e
  | inr entry =>
      match set_prop entry k x with
      | inl e => inl e
      | inr entry' => inr (write_through cache lang entry')
      end
  end.

(** Lines 163-165: the loop over [j], here over the rest of [slice] from
    index [j] on. *)
Fixpoint storeTranslations (lang : jsstring) (translated : list value)
    (j : nat) (slice : list jsstring) (cache : value) : exn + value :=
  match slice with
  | [] => inr cache
  | t :: rest =>
      match cache_store cache lang t
                        (or_else (array_index translated j) (VStr t)) with
      | inl e => inl e
      | inr cache' => storeTranslations lang translated (S j) rest cache'
      end
  end.

Definition CHUNK : nat := 80.

(** [missing.slice(i, i + CHUNK)]. *)
Definition slice_at (missing : list jsstring) (i : nat) : list jsstring :=
  take CHUNK (drop i missing).

Definition warn (e : exn) (s : Page) : Page :=
  set_console (console s ++ [e]) s.

(** The body of the [try] of lines 161-166, with its [catch]: [Some] of the
    cache when the chunk went through, [None] when [applyLanguage] is to
    return. *)
Definition translateChunk (lang : jsstring) (slice : list jsstring)
    (cache : value) : M (option value) :=
  λ s,
    match translateBatch lang slice s with
    | Throw Unsupported s' => Throw Unsupported s'
    | Throw e s' => Ret None (warn e s')
    | Ret translated s' =>
        match storeTranslations lang translated 0 slice cache with
        | inl Unsupported => Throw Unsupported s'
        | inl e => Ret None (warn e s')
        | inr cache' => Ret (Some cache') (saveCache cache' s')
        end
    end.

(** Lines 159-172: [for (let i = 0; i < missing.length; i += CHUNK)].
    Every iteration moves [i] forward, so [length missing] iterations are
    enough; [fuel] counts them down. *)
Fixpoint chunkLoop (fuel : nat) (lang : jsstring) (missing : list jsstring)
    (i : nat) (cache : value) : M (option value) :=
  match fuel with
  | 0 => ret (Some cache)
  | S fuel' =>
      if bool_decide (i < length missing) then
        do r <- translateChunk lang (slice_at missing i) cache;
        match r with
        | Some cache' => chunkLoop fuel' lang missing (i + CHUNK) cache'
        | None => ret None
        end
      else ret (Some cache)
  end.

(** [a || b || ''] on two strings that may be [null] or [undefined]. *)
Definition first_nonempty (a b : option jsstring) : jsstring :=
  match a with
  | Some ((_ :: _) as x) => x
  | _ => default [] b
  end.

(** Lines 175-180: apply the translations to the text nodes.  The result
    is the tree reached, and the exception when a lookup threw. *)
Fixpoint applyNodes (originals : gmap path (option jsstring))
    (cache : value) (lang : jsstring) (nodes : list path) (root : Node)
  : Node * option exn :=
  match nodes with
  | [] => (root, None)
  | node :: rest =>
      let orig := first_nonempty (mjoin (originals !! node))
                                 (nodeValue_at root node) in
      let key := trim orig in
      if bool_decide (key = []) then
        applyNodes originals cache lang rest root
      else
        match cache_lookup cache lang key with
        | inl e => (root, Some e)
        | inr v =>
            applyNodes originals cache lang rest
              (set_nodeValue node (ToString (or_else v (VStr orig))) root)
        end
  end.

(** Lines 183-186: apply the translations to the attributes. *)
Fixpoint applyAttrs (cache : value) (lang : jsstring)
    (attrItems : list AttrItem) (root : Node) : Node * option exn :=
  match attrItems with
  | [] => (root, None)
  | item :: rest =>
      let key := val item in
      match cache_lookup cache lang key with
      | inl e => (root, Some e)
      | inr v =>
          applyAttrs cache lang rest
            (setAttribute_at (el item) (attr item)
                             (ToString (or_else v (VStr key))) root)
      end
  end.

Definition set_body (root : Node) (s : Page) : Page :=
  set_document (mkDocument (html_attributes (document s)) (Some root)) s.

(** Lines 116-129: the branch [lang === 'en']. *)
Definition restoreEnglish (root : Node) (s : Page) : Page :=
  let nodes := collectTextNodes (document s) root in
  let root1 := restoreTextNodes (originalTextByNode s) nodes root in
  let attrItems := collectTranslatableAttributes (document s) root1 in
  set_body (restoreAttributes (originalAttrsByEl s) attrItems root1) s.

(** Lines 151-155, from the two lists of texts to [missing]. *)
Definition uniqueTexts (nodeTexts attrTexts : list jsstring)
  : list jsstring :=
  Array_from_Set (filter (λ t, t ≠ []) (nodeTexts ++ attrTexts)).

(** Lines 174-186. *)
Definition applyTranslations (cache : value) (lang : jsstring)
    (nodes : list path) (attrItems : list AttrItem) : M unit :=
  λ s,
    match body (document s) with
    | None => Ret tt s
    | Some root =>
        match applyNodes (originalTextByNode s) cache lang nodes root with
        | (root1, Some e) => Throw e (set_body root1 s)
        | (root1, None) =>
            match applyAttrs cache lang attrItems root1 with
            | (root2, Some e) => Throw e (set_body root2 s)
            | (root2, None) => Ret tt (set_body root2 s)
            end
        end
    end.

(** *** [applyLanguage] *)

Definition normalize (lang : jsstring) : jsstring :=
  if negb (truthy (obj_get LANGS lang)) then js "en" else lang.

(** Lines 132-133: [cache] once [cache[lang] = cache[lang] || {}] is
    done. *)
Definition openCache (lang : jsstring) (s : Page) : exn + value :=
  let cache := loadCache s in
  match get_prop cache lang with
  | inl e => inl e
  | inr entry => set_prop cache lang (or_else entry (VObj []))
  end.

(** Lines 136-152: the page with the originals remembered, then [nodes],
    [attrItems] and [uniqueTexts]. *)
Definition captureOriginals (root : Node) (s : Page)
  : Page * (list path * list AttrItem * list jsstring) :=
  let nodes := collectTextNodes (document s) root in
  let nt := captureNodeTexts root nodes (originalTextByNode s) in
  let attrItems := collectTranslatableAttributes (document s) root in
  let at_ := captureAttrTexts attrItems (originalAttrsByEl s) in
  (set_originalAttrsByEl at_.1 (set_originalTextByNode nt.1 s),
   (nodes, attrItems, uniqueTexts nt.2 at_.2)).

(** Line 155: the list [missing] of a call, or what computing it throws. *)
Definition missingTexts (lang : jsstring) (root : Node) (s : Page)
  : exn + list jsstring :=
  match openCache lang s with
  | inl e => inl e
  | inr cache => filterMissing cache lang (captureOriginals root s).2.2
  end.

(** Lines 132-186: the branch of the other languages. *)
Definition translatePage (lang : jsstring) (root : Node) : M unit :=
  λ s,
    match openCache lang s with
    | inl e => Throw e s
    | inr cache =>
        let c := captureOriginals root s in
        match filterMissing cache lang c.2.2 with
        | inl e => Throw e c.1
        | inr missing =>
            (do r <- chunkLoop (length missing) lang missing 0 cache;
             match r with
             | None => ret tt
             | Some cache' => applyTranslations cache' lang c.2.1.1 c.2.1.2
             end) c.1
        end
    end.

Definition applyLanguage (lang : jsstring) : M unit :=
  let lang := normalize lang in
  do _ <- modify (λ s, set_languageSelects
                         (syncSelects lang (languageSelects s)) s);
  λ s,
    match body (document s) with
    | None => Ret tt s
    | Some root =>
        if bool_decide (lang = js "en") then Ret tt (restoreEnglish root s)
        else translatePage lang root s
    end.

(** A sequence of calls, each started when the previous one has settled. *)
Definition applyLanguages (langs : list jsstring) (s : Page) : Page :=
  foldl (λ s lang, page_of (applyLanguage lang s)) s langs.

(** The requests a computation added to the log of [s]. *)
Definition new_requests (s s' : Page) : list Request :=
  drop (length (requests s)) (requests s').

End WithHost.

End Language.

(** ** Sign-in: [static/js/auth.js] *)

Module Auth.
Import JS.

(** What the script reads and writes of an element it looked up by id. *)
Record Element : Type := mkElement {
  classList : list jsstring;
  src : jsstring;
  innerText : jsstring;
}.

Definition classList_add (c : jsstring) (e : Element) : Element :=
  mkElement (if bool_decide (c ∈ classList e) then classList e
             else classList e ++ [c])
            (src e) (innerText e).

Definition classList_remove (c : jsstring) (e : Element) : Element :=
  mkElement (filter (λ x, x ≠ c) (classList e)) (src e) (innerText e).

Record User : Type := mkUser {
  displayName : option jsstring;
  photoURL : option jsstring;
}.

Inductive Event : Type :=
| Alert (text : jsstring)
| ConsoleLog (text : jsstring) (arg : option jsstring)
| ConsoleError (text : jsstring) (e : exn)
| Reload.

(** The page as the script sees it: [auth] and [googleProvider] (whether
    each is non-null), the four elements (absent when [getElementById]
    found none), and what was shown or logged. *)
Record Page : Type := mkPage {
  auth : bool;
  googleProvider : bool;
  loginFrame : option Element;
  mainContent : option Element;
  userAvatar : option Element;
  userNameDisplay : option Element;
  events : list Event;
}.

Definition emit (e : Event) (s : Page) : Page :=
  mkPage (auth s) (googleProvider s) (loginFrame s) (mainContent s)
         (userAvatar s) (userNameDisplay s) (events s ++ [e]).

Definition set_frames (l m : option Element) (s : Page) : Page :=
  mkPage (auth s) (googleProvider s) l m (userAvatar s) (userNameDisplay s)
         (events s).

Definition set_userAvatar (a : option Element) (s : Page) : Page :=
  mkPage (auth s) (googleProvider s) (loginFrame s) (mainContent s) a
         (userNameDisplay s) (events s).

Definition set_userNameDisplay (d : option Element) (s : Page) : Page :=
  mkPage (auth s) (googleProvider s) (loginFrame s) (mainContent s)
         (userAvatar s) d (events s).

(** The elements of a page, without its log. *)
Definition ui (s : Page)
  : option Element * option Element * option Element * option Element :=
  (loginFrame s, mainContent s, userAvatar s, userNameDisplay s).

(** How [auth.signInWithPopup] settles. *)
Inductive PopupResult : Type :=
| Resolved (user : User)
| RejectedWith (error : value).

Definition hidden : jsstring := js "hidden".

Definition default_avatar : jsstring :=
  js "https://cdn-icons-png.flaticon.com/512/847/847969.png".

(** [s.split(' ')[0]]. *)
Fixpoint first_word (s : jsstring) : jsstring :=
  match s with
  | [] => []
  | c :: s' => if bool_decide (c = 32%N) then [] else c :: first_word s'
  end.

(** [updateUIForSignedInUser]: the page it leaves, and the exception when
    it throws (the name display exists and the user has no display name;
    the avatar is updated by then). *)
Definition updateUIForSignedInUser (user : User) (s : Page)
  : Page * option exn :=
  let s1 :=
    match userAvatar s with
    | Some a =>
        let url := match photoURL user with
                   | Some ((_ :: _) as u) => u
                   | _ => default_avatar
                   end in
        set_userAvatar
          (Some (classList_remove hidden
                   (mkElement (classList a) url (innerText a)))) s
    | None => s
    end in
  match userNameDisplay s1 with
  | Some d =>
      match displayName user with
      | None => (s1, Some TypeError)
      | Some name =>
          (set_userNameDisplay
             (Some (classList_remove hidden
                      (mkElement (classList d) (src d)
                                 (js "Hi, " ++ first_word name)))) s1,
           None)
      end
  | None => (s1, None)
  end.

Definition transitionToMainContent (s : Page) : Page :=
  match loginFrame s, mainContent s with
  | Some l, Some m =>
      set_frames (Some (classList_add hidden l))
                 (Some (classList_remove hidden m)) s
  | _, _ => s
  end.

Section WithHost.
Context `{Host}.

(** [error.message] of what a handler caught. *)
Definition message_of (e : exn) : exn + value :=
  match e with
  | TypeError => inr (VStr typeError_message)
  | Error m => inr (VStr m)
  | Rejected reason => get_prop reason (js "message")
  | QuotaExceeded | Unsupported => inr VUndef
  end.

(** The [catch] handler of [signInWithGoogle]; evaluating [error.message]
    throws when the promise was rejected with [null] or [undefined], and
    nothing is shown then. *)
Definition onSignInError (e : exn) (s : Page) : Page :=
  let s1 := emit (ConsoleError (js "Error signing in: ") e) s in
  match message_of e with
  | inr m => emit (Alert (js "Login failed: " ++ ToString m)) s1
  | inl _ => s1
  end.

(** [signInWithGoogle], with the way the popup settles. *)
Definition signInWithGoogle (popup : PopupResult) (s : Page) : Page :=
  if negb (auth s) || negb (googleProvider s) then
    emit (Alert (js "Login is not available right now (Firebase not configured)."))
         s
  else
    match popup with
    | Resolved user =>
        let s1 := emit (ConsoleLog (js "User signed in: ") (displayName user))
                       s in
        match updateUIForSignedInUser user s1 with
        | (s2, None) => transitionToMainContent s2
        | (s2, Some e) => onSignInError e s2
        end
    | RejectedWith error => onSignInError (Rejected error) s
    end.

End WithHost.

End Auth.

(** ** The emergency request form *)

Module Emergency.
Import JS.

Record File : Type := mkFile { size : float }.

Record Button : Type := mkButton {
  disabled : bool;
  textContent : jsstring;
}.

Inductive Event : Type :=
| PreventDefault
| Alert (text : jsstring)
| Fetch (url : jsstring) (method : jsstring)
| ConsoleError (e : exn)
| FormReset.

(** The page once the script is wired (the modal and the form exist).
    [userImage] is [None] when the element is missing, [Some None] when it
    has no [files] list. *)
Record Page : Type := mkPage {
  modal_classList : list jsstring;
  emergencySuccess : option (list jsstring);
  userImage : option (option (list File));
  emergencySubmitBtn : option Button;
  events : list Event;
}.

Definition emit (e : Event) (s : Page) : Page :=
  mkPage (modal_classList s) (emergencySuccess s) (userImage s)
         (emergencySubmitBtn s) (events s ++ [e]).

Definition set_modal (c : list jsstring) (s : Page) : Page :=
  mkPage c (emergencySuccess s) (userImage s) (emergencySubmitBtn s)
         (events s).

Definition set_success (c : option (list jsstring)) (s : Page) : Page :=
  mkPage (modal_classList s) c (userImage s) (emergencySubmitBtn s)
         (events s).

Definition set_button (b : option Button) (s : Page) : Page :=
  mkPage (modal_classList s) (emergencySuccess s) (userImage s) b (events s).

Definition hidden : jsstring := js "hidden".

Definition add_class (c : jsstring) (l : list jsstring) : list jsstring :=
  if bool_decide (c ∈ l) then l else l ++ [c].

Definition remove_class (c : jsstring) (l : list jsstring) : list jsstring :=
  filter (λ x, x ≠ c) l.

Definition openEmergencyModal (s : Page) : Page :=
  set_modal (remove_class hidden (modal_classList s))
    (set_success (add_class hidden <$> emergencySuccess s)
       (emit PreventDefault s)).

Definition closeEmergencyModal (s : Page) : Page :=
  set_success (add_class hidden <$> emergencySuccess s)
    (emit FormReset (set_modal (add_class hidden (modal_classList s)) s)).

(** How [fetch('/emergency', ...)] and [res.json()] settle. *)
Inductive Response : Type :=
| NetworkError (reason : value)
| HttpResponse (ok : bool) (json : option value).

Definition fileSizeMB (f : File) : float := (size f / 1024 / 1024)%float.

(** The guard of lines 69-75: a first file is selected and is over 2 MB. *)
Definition oversized (s : Page) : bool :=
  match userImage s with
  | Some (Some (f :: _)) => (2 <? fileSizeMB f)%float
  | _ => false
  end.

Section WithHost.
Context `{Host}.

(** The [try] block, up to the first throw. *)
Definition submitRequest (resp : Response) (s : Page) : exn + Page :=
  match resp with
  | NetworkError reason => inl (Rejected reason)
  | HttpResponse ok body =>
      let data := match body with Some d => d | None => VObj [] end in
      if negb ok then
        match get_prop data (js "error") with
        | inl e => inl e
        | inr err =>
            inl (Error (ToString
                          (or_else err
                             (VStr (js "Failed to submit emergency request")))))
        end
      else
        inr (emit FormReset
               (set_success (remove_class hidden <$> emergencySuccess s) s))
  end.

(** [err?.message]. *)
Definition message_of (e : exn) : value :=
  match e with
  | TypeError => VStr typeError_message
  | Error m => VStr m
  | Rejected reason =>
      match get_prop reason (js "message") with
      | inr m => m
      | inl _ => VUndef
      end
  | QuotaExceeded | Unsupported => VUndef
  end.

(** The [submit] listener of the form, with the answer the request gets
    if it is made. *)
Definition onSubmit (resp : Response) (s : Page) : Page :=
  let s := emit PreventDefault s in
  if oversized s then emit (Alert (js "Image size must be less than 2 MB")) s
  else
    let s :=
      match emergencySubmitBtn s with
      | Some _ => set_button (Some (mkButton true (js "Submitting..."))) s
      | None => s
      end in
    let s := emit (Fetch (js "/emergency") (js "POST")) s in
    let s :=
      match submitRequest resp s with
      | inr s' => s'
      | inl err =>
          emit (Alert (ToString
                         (or_else (message_of err)
                            (VStr (js "Failed to submit. Please try again.")))))
               (emit (ConsoleError err) s)
      end in
    match emergencySubmitBtn s with
    | Some _ => set_button (Some (mkButton false (js "Submit"))) s
    | None => s
    end.

End WithHost.

Definition is_fetch (e : Event) : bool :=
  match e with Fetch _ _ => true | _ => false end.

End Emergency.

(** ** The rest of the language layer: the selector and the entry points *)

Module LanguageUI.
Import JS Language.

(** [select.value = v]: the option of value [v] gets selected; without
    such an option the select is left with no selection and reads [""]. *)
Definition set_value (v : jsstring) (sel : Select) : Select :=
  mkSelect (options sel) (if bool_decide (v ∈ options sel) then v else []).

(** Lines 195-202 on the select itself: an empty select gets one option
    per entry of [LANGS], in the order of the literal; the browser selects
    the first one. *)
Definition populate (sel : Select) : Select :=
  if bool_decide (options sel = []) then mkSelect LANGS.*1 (js "en")
  else sel.

(** The labels of [LANGS] are strings. *)
Definition label_of (v : value) : jsstring :=
  match v with VStr l => l | _ => [] end.

(** [el.textContent = text] on a new element: one text node, none for the
    empty string. *)
Definition text_children (text : jsstring) : list Node :=
  if bool_decide (text = []) then [] else [Text text].

(** Lines 197-199: the [<option>] made for an entry of [LANGS];
    [opt.value = code] sets its [value] attribute. *)
Definition new_option (entry : jsstring * value) : Node :=
  Elem (js "OPTION") [(js "value", entry.1)]
       (text_children (label_of entry.2)).

(** [el.appendChild(n)] for each node [n] of [new], on the element at
    [p]. *)
Fixpoint appendChildren (p : path) (new : list Node) (root : Node) : Node :=
  match p, root with
  | [], Elem tag attrs kids => Elem tag attrs (kids ++ new)
  | i :: p', Elem tag attrs kids =>
      Elem tag attrs (alter (appendChildren p' new) i kids)
  | _, _ => root
  end.

(** Lines 195-202 on the document, for a select found at the path
    [located.2] below the body. *)
Definition addOptions (root : Node) (located : Select * path) : Node :=
  if bool_decide (options located.1 = [])
  then appendChildren located.2 (new_option <$> LANGS) root
  else root.

(** [initSelector], without the registration of the [change] listeners
    (the listener is [onSelectChange] below).  [places] gives, for each
    select of [languageSelects], the path of its element below the
    body. *)
Definition initSelector (places : list path) (s : Page) : Page :=
  set_document
    (mkDocument (html_attributes (document s))
       ((λ root, foldl addOptions root (zip (languageSelects s) places))
          <$> body (document s)))
    (set_languageSelects
       ((λ sel, set_value (getLang s) (populate sel)) <$> languageSelects s)
       s).

Section WithHost.
Context `{Host}.
Variable server : list Request → Request → Response.

(** The [change] listener of the select of index [i] (lines 205-210). *)
Definition onSelectChange (i : nat) : M unit :=
  λ s,
    match languageSelects s !! i with
    | None => Ret tt s
    | Some select =>
        let lang := value_of select in
        (do _ <- setLang lang;
         do _ <- modify (λ s, set_languageSelects
                                (set_value lang <$> languageSelects s) s);
         applyLanguage server lang) s
    end.

(** [window.AppLanguage.set] (lines 218-221). *)
Definition AppLanguage_set (lang : jsstring) : M unit :=
  do _ <- setLang lang;
  applyLanguage server lang.

(** The [DOMContentLoaded] listener (lines 225-228). *)
Definition onDOMContentLoaded (places : list path) : M unit :=
  λ s, applyLanguage server (getLang (initSelector places s))
                     (initSelector places s).

End WithHost.

End LanguageUI.

(** ** The rest of the sign-in script *)

Module AuthMore.
Import JS Auth.

(** How [auth.signOut()] settles. *)
Inductive SignOutResult : Type :=
| SignedOut
| SignOutFailed (error : value).

(** [signOut] (lines 67-78). *)
Definition signOut (outcome : SignOutResult) (s : Page) : Page :=
  if negb (auth s) then emit Reload s
  else
    match outcome with
    | SignedOut => emit Reload (emit (ConsoleLog (js "User signed out") None) s)
    | SignOutFailed error =>
        emit (ConsoleError (js "Sign out error") (Rejected error)) s
    end.

(** Lines 99-102: without Firebase the page is not gated. *)
Definition onScriptLoad (s : Page) : Page :=
  if negb (auth s) then transitionToMainContent s else s.

Definition contains (c : jsstring) (e : Element) : bool :=
  bool_decide (c ∈ classList e).

(** The listener given to [auth.onAuthStateChanged] (lines 111-124), with
    the exception it lets escape when [updateUIForSignedInUser] throws. *)
Definition onAuthStateChanged (user : option User) (s : Page)
  : Page * option exn :=
  match user with
  | Some user =>
      let s1 := emit (ConsoleLog (js "Auth state change: Signed in") None) s in
      match updateUIForSignedInUser user s1 with
      | (s2, Some e) => (s2, Some e)
      | (s2, None) =>
          match loginFrame s2, mainContent s2 with
          | Some l, Some m =>
              if negb (contains hidden l) && contains hidden m
              then (transitionToMainContent s2, None)
              else (s2, None)
          | _, _ => (s2, None)
          end
      end
  | None =>
      (emit (ConsoleLog (js "Auth state change: Signed out") None) s, None)
  end.

Definition is_alert (e : Event) : bool :=
  match e with Alert _ => true | _ => false end.

End AuthMore.

(** ** The rest of the emergency script *)

Module EmergencyMore.
Import JS Emergency.

(** The [click] listener of the modal (lines 62-64): [on_modal] tells
    whether the click hit the modal itself, outside the card. *)
Definition onModalClick (on_modal : bool) (s : Page) : Page :=
  if on_modal then closeEmergencyModal s else s.

Definition is_alert (e : Event) : bool :=
  match e with Alert _ => true | _ => false end.

Definition is_reset (e : Event) : bool :=
  match e with FormReset => true | _ => false end.

(** The events a run added to the log of [s]. *)
Definition new_events (s s' : Page) : list Event :=
  drop (length (events s)) (events s').

End EmergencyMore.

(** ** A host and pages to run the scripts on *)

Module Samples.
Import JS.

(** The JSON text of a cache holding one Hindi translation. *)
Definition cache_text : jsstring :=
  [123; 34]%N ++ js "hi" ++ [34; 58; 123; 34]%N ++ js "Hello"
  ++ [34; 58; 34]%N ++ js "Namaste" ++ [34; 125; 125]%N.

Definition cache_value : value :=
  VObj [(js "hi", VObj [(js "Hello", VStr (js "Namaste"))])].

(** A host whose [JSON.parse] knows three texts, whose storage has no
    quota and whose engine words its messages as below. *)
#[export] Instance sample_host : Host := {|
  JSON_parse t :=
    if bool_decide (t = js "{}") then Some (VObj [])
    else if bool_decide (t = js "null") then Some VNull
    else if bool_decide (t = cache_text) then Some cache_value
    else None;
  JSON_stringify v := js "[cache]";
  ToString_other v := js "[object]";
  typeError_message := js "Cannot read properties of null";
  storage_accepts _ _ _ := true;
  exotic_get _ _ := VUndef;
  JSON_parse_empty_object := eq_refl;
  JSON_parse_null := eq_refl;
|}.

(** An emergency form with a selected image of 3 000 000 bytes. *)
Definition form_with_large_image : Emergency.Page :=
  Emergency.mkPage [] (Some [Emergency.hidden])
    (Some (Some [Emergency.mkFile 3000000%float]))
    (Some (Emergency.mkButton false (js "Submit"))) [].

(** A page waiting for sign-in, and the error of a closed popup. *)
Definition login_page : Auth.Page :=
  Auth.mkPage true true
    (Some (Auth.mkElement [] [] []))
    (Some (Auth.mkElement [Auth.hidden] [] []))
    (Some (Auth.mkElement [Auth.hidden] [] []))
    (Some (Auth.mkElement [Auth.hidden] [] []))
    [].

Definition popup_closed : value :=
  VObj [(js "code", VStr (js "auth/popup-closed-by-user"));
        (js "message", VStr (js "The popup has been closed by the user"))].

(** A page with a paragraph, an input whose placeholder is padded with
    spaces, a script and a subtree marked [data-no-translate]. *)
Definition sample_body : Language.Node :=
  Language.Elem (js "BODY") []
    [ Language.Elem (js "P") [] [Language.Text (js " Hello ")];
      Language.Elem (js "INPUT") [(js "placeholder", js " Name ")] [];
      Language.Elem (js "SCRIPT") [] [Language.Text (js "var x")];
      Language.Elem (js "DIV") [(js "data-no-translate", js "true")]
        [Language.Elem (js "A") [(js "title", js "Home")]
           [Language.Text (js "Home")]] ].

Definition sample_page (storage : gmap jsstring jsstring) : Language.Page :=
  Language.mkPage storage (Language.mkDocument [] (Some sample_body))
    [Language.mkSelect [js "en"; js "hi"] (js "en")] ∅ ∅ [] [].

(** A back end that answers every request with its texts prefixed by the
    language code, and one that is down. *)
Definition echo_server (log : list Language.Request)
    (r : Language.Request) : Language.Response :=
  Language.HttpResponse true
    (Some (VObj [(js "translations",
                  VArr ((λ t, VStr (Language.req_lang r ++ js ":" ++ t))
                          <$> Language.req_texts r))])).

Definition failing_server (log : list Language.Request)
    (r : Language.Request) : Language.Response :=
  Language.HttpResponse false
    (Some (VObj [(js "error", VStr (js "Translation is not configured"))])).

(** A back end that answers every text with a single space. *)
Definition blank_server (log : list Language.Request)
    (r : Language.Request) : Language.Response :=
  Language.HttpResponse true
    (Some (VObj [(js "translations",
                  VArr ((λ _, VStr (js " ")) <$> Language.req_texts r))])).

(** A page with a hundred paragraphs of distinct texts. *)
Definition long_texts : list jsstring :=
  (λ i, [116%N; N.of_nat (256 + i)]) <$> seq 0 100.

Definition long_page : Language.Page :=
  Language.mkPage ∅
    (Language.mkDocument []
       (Some (Language.Elem (js "BODY") []
                ((λ t, Language.Elem (js "P") [] [Language.Text t])
                   <$> long_texts))))
    [] ∅ ∅ [] [].

End Samples.

(** ** More pages and answers to run the scripts on *)

Module MoreSamples.
Import JS.

(** A signed-in user. *)
Definition asha : Auth.User :=
  Auth.mkUser (Some (js "Asha Rao")) None.

(** An answer of the back end refusing an emergency request. *)
Definition refusal : Emergency.Response :=
  Emergency.HttpResponse false
    (Some (VObj [(js "error", VStr (js "Phone number is required"))])).

(** An emergency form with a small image selected. *)
Definition form_with_small_image : Emergency.Page :=
  Emergency.mkPage [] (Some [Emergency.hidden])
    (Some (Some [Emergency.mkFile 1000000%float]))
    (Some (Emergency.mkButton false (js "Submit"))) [].

(** A host like [sample_host] whose [JSON.stringify] prints the sample
    cache. *)
Definition json_host : Host := {|
  JSON_parse := @JSON_parse Samples.sample_host;
  JSON_stringify v := Samples.cache_text;
  ToString_other v := js "[object]";
  typeError_message := js "Cannot read properties of null";
  storage_accepts _ _ _ := true;
  exotic_get _ _ := VUndef;
  JSON_parse_empty_object := eq_refl;
  JSON_parse_null := eq_refl;
|}.

(** The sample page with its select showing Hindi. *)
Definition hindi_chosen : Language.Page :=
  Language.set_languageSelects
    [Language.mkSelect [js "en"; js "hi"] (js "hi")]
    (Samples.sample_page ∅).



(** A page with a paragraph and an empty language select, Hindi stored. *)
Definition select_page : Language.Page :=
  Language.mkPage {[Language.STORAGE_KEY := js "hi"]}
    (Language.mkDocument []
       (Some (Language.Elem (js "BODY") []
                [ Language.Elem (js "P") [] [Language.Text (js " Hello ")];
                  Language.Elem (js "SELECT")
                    [(js "class", js "languageSelect")] [] ])))
    [Language.mkSelect [] []] ∅ ∅ [] [].

End MoreSamples.

(** ** Notions used to state the properties of the language layer *)

Module LanguageSpec.
Import JS Language.

Definition is_object (v : value) : bool :=
  match v with
  | VArr _ | VObj _ | VBuiltin _ => true
  | _ => false
  end.

Definition is_unsupported (e : exn) : bool :=
  match e with Unsupported => true | _ => false end.

(** [same_dom s s']: the document, the selects and the remembered originals
    of [s'] are those of [s]. *)
Definition same_dom (s s' : Page) : Prop :=
  document s' = document s
  ∧ languageSelects s' = languageSelects s
  ∧ originalTextByNode s' = originalTextByNode s
  ∧ originalAttrsByEl s' = originalAttrsByEl s.

(** The page right after the request for [slice] is logged. *)
Definition logged (lang : jsstring) (slice : list jsstring) (s : Page)
  : Page :=
  set_requests (requests s ++ [mkRequest lang slice]) s.

(** The requests of [n] iterations of the chunk loop started at index
    [i]. *)
Fixpoint chunk_requests (lang : jsstring) (missing : list jsstring)
    (i n : nat) : list Request :=
  match n with
  | 0 => []
  | S n' =>
      mkRequest lang (slice_at missing i)
      :: chunk_requests lang missing (i + CHUNK) n'
  end.

(** The text of the node at [p], and the value of the attribute [name] of
    the element at [p], on a page. *)
Definition text_in (s : Page) (p : path) : option jsstring :=
  root ← body (document s); nodeValue_at root p.

Definition attribute_in (s : Page) (p : path) (name : jsstring)
  : option jsstring :=
  root ← body (document s); getAttribute_at root p name.

(** Whether the node at [p] is an element. *)
Fixpoint is_element_at (root : Node) (p : path) : bool :=
  match p, root with
  | [], Elem _ _ _ => true
  | i :: p', Elem _ _ kids =>
      match kids !! i with
      | Some k => is_element_at k p'
      | None => false
      end
  | _, _ => false
  end.

End LanguageSpec.

(** ** Notions used to state what the collectors find *)

Module DomSpec.
Import JS Language.

(** What [n.closest('[data-no-translate="true"]')] finds for the node [n]
    at [p]: whether [n], when it is an element, or an element above it
    carries the attribute; [blocked] tells it for the elements above
    [root]. *)
Fixpoint closest_at (blocked : bool) (root : Node) (p : path) : bool :=
  match p, root with
  | [], Elem _ attrs _ => blocked || no_translate attrs
  | [], _ => blocked
  | i :: p', Elem _ attrs kids =>
      match kids !! i with
      | Some k => closest_at (blocked || no_translate attrs) k p'
      | None => false
      end
  | _ :: _, _ => false
  end.

(** The [tagName] of the parent element of the node at [p]; [ptag] is
    the one of the parent of [root]. *)
Fixpoint parent_tag_at (ptag : jsstring) (root : Node) (p : path)
  : jsstring :=
  match p, root with
  | [], _ => ptag
  | i :: p', Elem tag _ kids =>
      match kids !! i with
      | Some k => parent_tag_at tag k p'
      | None => []
      end
  | _ :: _, _ => []
  end.

(** The [tagName] of the element at [p]. *)
Fixpoint tag_at (root : Node) (p : path) : option jsstring :=
  match p, root with
  | [], Elem tag _ _ => Some tag
  | i :: p', Elem _ _ kids =>
      match kids !! i with
      | Some k => tag_at k p'
      | None => None
      end
  | _, _ => None
  end.


Definition translatable_attributes : list jsstring :=
  [js "placeholder"; js "title"; js "aria-label"].

End DomSpec.

(** ** Properties of the emergency request form *)

Module EmergencyFacts.
Import JS Emergency.

Section WithHost.
Context `{Host}.

Lemma oversized_emit e s : oversized (emit e s) = oversized s.
Proof. reflexivity. Qed.

Lemma events_set_button b s : events (set_button b s) = events s.
Proof. reflexivity. Qed.

(** Whatever the request is answered, the [try] block issues no request of
    its own. *)
Lemma submitRequest_events resp s s' :
  submitRequest resp s = inr s' →
  events s' = events s ++ [FormReset].
Proof.
  unfold submitRequest. destruct resp as [reason|ok body]; [done|].
  destruct (negb ok).
  - destruct (get_prop _ _); discriminate.
  - intros [= <-]. reflexivity.
Qed.

(** The events a run of the listener adds to the log. *)
Lemma onSubmit_events resp s :
  ∃ l, events (onSubmit resp s) = events s ++ PreventDefault :: l
       ∧ (oversized s = true →
          l = [Alert (js "Image size must be less than 2 MB")])
       ∧ (oversized s = false →
          ∃ l', l = Fetch (js "/emergency") (js "POST") :: l'
                ∧ ∀ e, e ∈ l' → is_fetch e = false).
Proof.
  unfold onSubmit. rewrite oversized_emit.
  destruct (oversized s) eqn:Hbig.
  - eexists. split; [|split; [done|done]].
    cbn. by rewrite <- app_assoc.
  - set (s1 := match emergencySubmitBtn (emit PreventDefault s) with
               | Some _ => _ | None => _ end).
    assert (Hs1 : events s1 = events s ++ [PreventDefault]).
    { subst s1. by destruct (emergencySubmitBtn _). }
    set (s2 := emit (Fetch _ _) s1).
    set (s3 := match submitRequest resp s2 with inr _ => _ | inl _ => _ end).
    assert (Hs3 : ∃ l', events s3 = events s2 ++ l'
                        ∧ ∀ e, e ∈ l' → is_fetch e = false).
    { subst s3. destruct (submitRequest resp s2) as [err|s'] eqn:Hreq.
      - eexists [_; _]. split; [cbn; by rewrite <- app_assoc|].
        intros e He. set_unfold. by destruct He as [->|[->|[]]].
      - apply submitRequest_events in Hreq. eexists. split; [done|].
        intros e He. set_unfold. by destruct He as [->|[]]. }
    destruct Hs3 as (l' & Hs3 & Hl').
    exists (Fetch (js "/emergency") (js "POST") :: l').
    split; [|split; [done|eauto]].
    transitivity (events s3); [by destruct (emergencySubmitBtn s3)|].
    rewrite Hs3. subst s2. cbn. rewrite Hs1.
    by rewrite <- !app_assoc.
Qed.

(** A submission that passes the guard (no file input, no file list, no
    file selected, or a first file of at most 2 MB) issues exactly one
    request, the POST to /emergency. *)
Lemma accepted_submission_fetches_once (resp : Response) (s : Page) :
  oversized s = false →
  filter (λ e, is_fetch e = true)
         (drop (length (events s)) (events (onSubmit resp s)))
  = [Fetch (js "/emergency") (js "POST")].
Proof.
  intros Hbig.
  destruct (onSubmit_events resp s) as (l & -> & _ & Hl).
  destruct (Hl Hbig) as (l' & -> & Hl').
  rewrite drop_app_length.
  rewrite filter_cons_False by done.
  rewrite filter_cons_True by done. f_equal.
  clear Hl. induction l' as [|e l' IH]; [done|].
  rewrite filter_cons_False.
  - apply IH. intros e' He'. apply Hl'. by right.
  - rewrite Hl'; [done|by left].
Qed.

(** C1.  A submission with a first selected file over 2 MB
    ([size / 1024 / 1024 > 2]) only prevents the default action and shows
    the alert: nothing else of the page changes, and none of the events of
    the run is a request.  So a request is issued only by a submission that
    passes the guard. *)
Theorem oversized_image_never_fetches (resp : Response) (s : Page) :
  oversized s = true →
  onSubmit resp s
  = emit (Alert (js "Image size must be less than 2 MB"))
         (emit PreventDefault s)
  ∧ ∀ e, e ∈ drop (length (events s)) (events (onSubmit resp s)) →
         is_fetch e = false.
Proof.
  intros Hbig. split.
  - unfold onSubmit. by rewrite oversized_emit, Hbig.
  - destruct (onSubmit_events resp s) as (l & -> & Hl & _).
    rewrite drop_app_length. rewrite (Hl Hbig).
    intros e He. set_unfold. by destruct He as [->|[->|[]]].
Qed.

End WithHost.

Import Samples.

Lemma oversized_image_never_fetches_witness :
  oversized form_with_large_image = true
  ∧ onSubmit (HttpResponse true None) form_with_large_image
    = emit (Alert (js "Image size must be less than 2 MB"))
           (emit PreventDefault form_with_large_image).
Proof.
  split; [reflexivity|].
  apply (oversized_image_never_fetches (HttpResponse true None)
           form_with_large_image).
  reflexivity.
Defined.

End EmergencyFacts.

(** ** Properties of the sign-in script *)

Module AuthFacts.
Import JS Auth.

Section WithHost.
Context `{Host}.

Lemma ui_emit e s : ui (emit e s) = ui s.
Proof. reflexivity. Qed.

(** The error handler shows and logs, and touches no element. *)
Lemma onSignInError_ui e s : ui (onSignInError e s) = ui s.
Proof. unfold onSignInError. by destruct (message_of e). Qed.

(** A failure inside the success handler is reported the same way, with
    the engine's message. *)
Lemma signIn_without_displayName (user : User) (s : Page) d :
  auth s = true → googleProvider s = true →
  userNameDisplay s = Some d → displayName user = None →
  ∃ l, events (signInWithGoogle (Resolved user) s)
       = events s ++ l ++ [Alert (js "Login failed: " ++ typeError_message)].
Proof.
  intros Ha Hp Hd Hn. unfold signInWithGoogle. rewrite Ha, Hp. cbn.
  unfold updateUIForSignedInUser.
  set (s1 := match userAvatar _ with Some _ => _ | None => _ end).
  assert (userNameDisplay s1 = Some d ∧ ∃ l, events s1 = events s ++ [l])
    as [-> [l Hl]].
  { subst s1. destruct (userAvatar _); cbn; eauto. }
  rewrite Hn. unfold onSignInError. cbn. rewrite Hl.
  eexists [_; _]. by rewrite <- !app_assoc.
Qed.

(** C7.  When sign-in is available and the popup flow rejects with an
    error carrying the message [msg], [signInWithGoogle] logs the error and
    shows one alert, whose text is [Login failed: ] followed by [msg]; no
    element of the page changes (in particular the login frame stays and
    the main content stays hidden). *)
Theorem signIn_rejection_alerts (error : value) (msg : jsstring) (s : Page) :
  auth s = true → googleProvider s = true →
  get_prop error (js "message") = inr (VStr msg) →
  events (signInWithGoogle (RejectedWith error) s)
  = events s ++ [ConsoleError (js "Error signing in: ") (Rejected error);
                 Alert (js "Login failed: " ++ msg)]
  ∧ ui (signInWithGoogle (RejectedWith error) s) = ui s
  ∧ auth (signInWithGoogle (RejectedWith error) s) = auth s
  ∧ googleProvider (signInWithGoogle (RejectedWith error) s)
    = googleProvider s.
Proof.
  intros Ha Hp Hm. unfold signInWithGoogle. rewrite Ha, Hp. cbn.
  unfold onSignInError. cbn. rewrite Hm. cbn.
  by rewrite <- app_assoc.
Qed.

End WithHost.

Import Samples.

Lemma signIn_rejection_alerts_witness :
  events (signInWithGoogle (RejectedWith popup_closed) login_page)
  = [ConsoleError (js "Error signing in: ") (Rejected popup_closed);
     Alert (js "Login failed: The popup has been closed by the user")]
  ∧ ui (signInWithGoogle (RejectedWith popup_closed) login_page)
    = ui login_page.
Proof.
  destruct (signIn_rejection_alerts popup_closed
              (js "The popup has been closed by the user") login_page)
    as (He & Hu & _); [reflexivity..|].
  split; [exact He | exact Hu].
Defined.

End AuthFacts.

(** ** Reading and writing the document *)

Module DomFacts.
Import JS Language LanguageSpec.

(** *** Attribute lists *)

Lemma getAttribute_setAttribute attrs a v b :
  getAttribute (setAttribute attrs a v) b
  = if bool_decide (a = b) then Some v else getAttribute attrs b.
Proof.
  induction attrs as [|[k x] rest IH]; cbn.
  - by repeat case_bool_decide.
  - repeat (case_bool_decide; cbn; simplify_eq); try done.
    all: rewrite IH; by repeat case_bool_decide.
Qed.

(** *** Text nodes *)

Lemma nodeValue_at_set_same p v root :
  is_Some (nodeValue_at root p) →
  nodeValue_at (set_nodeValue p v root) p = Some v.
Proof.
  revert root. induction p as [|i p IH]; intros [x|tag attrs kids|];
    cbn; try done; try by intros [? [=]].
  rewrite list_lookup_alter_eq.
  destruct (kids !! i) as [k|]; cbn; [apply IH|by intros [? [=]]].
Qed.

Lemma nodeValue_at_set_other p q v root :
  p ≠ q → nodeValue_at (set_nodeValue q v root) p = nodeValue_at root p.
Proof.
  revert p root. induction q as [|i q IH]; intros p [x|tag attrs kids|] Hne;
    cbn; try done.
  - by destruct p.
  - destruct p as [|j p]; [done|]. cbn.
    destruct (decide (i = j)) as [->|Hij].
    + rewrite list_lookup_alter_eq.
      destruct (kids !! j) as [k|]; cbn; [|done].
      apply IH. congruence.
    + by rewrite list_lookup_alter_ne.
Qed.

Lemma nodeValue_at_set_is_Some p q v root :
  is_Some (nodeValue_at root p) →
  is_Some (nodeValue_at (set_nodeValue q v root) p).
Proof.
  intros Hp. destruct (decide (p = q)) as [->|Hne].
  - rewrite nodeValue_at_set_same; eauto.
  - by rewrite nodeValue_at_set_other.
Qed.

Lemma nodeValue_at_setAttribute p q a v root :
  nodeValue_at (setAttribute_at q a v root) p = nodeValue_at root p.
Proof.
  revert p root. induction q as [|i q IH]; intros p [x|tag attrs kids|];
    cbn; try done.
  - by destruct p.
  - destruct p as [|j p]; [done|]. cbn.
    destruct (decide (i = j)) as [->|Hij].
    + rewrite list_lookup_alter_eq.
      destruct (kids !! j) as [k|]; cbn; [apply IH|done].
    + by rewrite list_lookup_alter_ne.
Qed.

(** *** Attributes of elements *)

Lemma getAttribute_at_set_same p a v root :
  is_element_at root p = true →
  getAttribute_at (setAttribute_at p a v root) p a = Some v.
Proof.
  revert root. induction p as [|i p IH]; intros [x|tag attrs kids|];
    cbn; try done.
  - intros _. by rewrite getAttribute_setAttribute, bool_decide_true.
  - rewrite list_lookup_alter_eq.
    destruct (kids !! i) as [k|]; cbn; [apply IH|done].
Qed.

Lemma getAttribute_at_set_other p b q a v root :
  (q, a) ≠ (p, b) →
  getAttribute_at (setAttribute_at q a v root) p b = getAttribute_at root p b.
Proof.
  revert p root. induction q as [|i q IH]; intros p [x|tag attrs kids|] Hne;
    cbn; try done.
  - destruct p; [|done]. cbn.
    rewrite getAttribute_setAttribute, bool_decide_false; [done|congruence].
  - destruct p as [|j p]; [done|]. cbn.
    destruct (decide (i = j)) as [->|Hij].
    + rewrite list_lookup_alter_eq.
      destruct (kids !! j) as [k|]; cbn; [|done].
      apply IH. congruence.
    + by rewrite list_lookup_alter_ne.
Qed.

Lemma is_element_at_setAttribute p q a v root :
  is_element_at (setAttribute_at q a v root) p = is_element_at root p.
Proof.
  revert p root. induction q as [|i q IH]; intros p [x|tag attrs kids|];
    cbn; try done.
  - by destruct p.
  - destruct p as [|j p]; [done|]. cbn.
    destruct (decide (i = j)) as [->|Hij].
    + rewrite list_lookup_alter_eq.
      destruct (kids !! j) as [k|]; cbn; [apply IH|done].
    + by rewrite list_lookup_alter_ne.
Qed.

Lemma is_element_at_set_nodeValue p q v root :
  is_element_at (set_nodeValue q v root) p = is_element_at root p.
Proof.
  revert p root. induction q as [|i q IH]; intros p [x|tag attrs kids|];
    cbn; try done.
  - by destruct p.
  - destruct p as [|j p]; [done|]. cbn.
    destruct (decide (i = j)) as [->|Hij].
    + rewrite list_lookup_alter_eq.
      destruct (kids !! j) as [k|]; cbn; [apply IH|done].
    + by rewrite list_lookup_alter_ne.
Qed.

(** *** The traversals *)

Lemma elem_of_children_with {A} (visit : Node → list A)
    (shift : nat → A → A) (i : nat) (ks : list Node) (x : A) :
  x ∈ children_with visit shift i ks
  ↔ ∃ j k y, ks !! j = Some k ∧ y ∈ visit k ∧ x = shift (i + j) y.
Proof.
  revert i. induction ks as [|k ks IH]; intros i; cbn.
  - split; [intros Hx; by apply elem_of_nil in Hx|].
    by intros (j & k & y & Hj & _).
  - rewrite elem_of_app, list_elem_of_fmap, IH. split.
    + intros [(y & -> & Hy)|(j & k' & y & Hj & Hy & ->)].
      * exists 0, k, y. by rewrite Nat.add_0_r.
      * exists (S j), k', y. split; [done|]. split; [done|].
        f_equal. lia.
    + intros ([|j] & k' & y & Hj & Hy & ->); cbn in Hj.
      * injection Hj as <-. left. exists y. by rewrite Nat.add_0_r.
      * right. exists j, k', y. split; [done|]. split; [done|].
        f_equal. lia.
Qed.

Lemma children_with_alter {A} (visit : Node → list A)
    (shift : nat → A → A) (f : Node → Node) (j i : nat) (ks : list Node) :
  (∀ k, visit (f k) = visit k) →
  children_with visit shift i (alter f j ks) = children_with visit shift i ks.
Proof.
  intros Hf. revert i j. induction ks as [|k ks IH]; intros i [|j]; cbn;
    try done.
  - by rewrite Hf.
  - f_equal. apply IH.
Qed.

(** [collectTextNodes] returns text nodes. *)
Lemma walkText_text p :
  ∀ blocked parent n,
    p ∈ walkText blocked parent n → is_Some (nodeValue_at n p).
Proof.
  induction p as [|i p IH]; intros blocked parent [x|tag attrs kids|];
    cbn -[isTranslatableTextNode]; intros Hp.
  - eauto.
  - apply elem_of_children_with in Hp as (j & k & y & _ & _ & [=]).
  - by apply elem_of_nil in Hp.
  - destruct (isTranslatableTextNode _ _).
    + by apply list_elem_of_singleton in Hp.
    + by apply elem_of_nil in Hp.
  - apply elem_of_children_with in Hp as (j & k & y & Hj & Hy & [= -> ->]).
    rewrite Hj. by eapply IH.
  - by apply elem_of_nil in Hp.
Qed.

Lemma attr_items_el p attrs it : it ∈ attr_items p attrs → el it = p.
Proof.
  unfold attr_items. rewrite list_elem_of_In, in_flat_map.
  intros (a & _ & Hit). apply list_elem_of_In in Hit.
  destruct (getAttribute attrs a); [|by apply elem_of_nil in Hit].
  destruct (_ && _); [|by apply elem_of_nil in Hit].
  by apply list_elem_of_singleton in Hit as ->.
Qed.

(** [collectTranslatableAttributes] returns items on elements. *)
Lemma walkAttrs_element p :
  ∀ it self blocked n,
    el it = p → it ∈ walkAttrs self blocked n → is_element_at n p = true.
Proof.
  induction p as [|i p IH]; intros it self blocked [x|tag attrs kids|] Hel;
    cbn; intros Hit; try by apply elem_of_nil in Hit.
  - done.
  - apply elem_of_app in Hit as [Hit|Hit].
    + destruct (_ && _); [|by apply elem_of_nil in Hit].
      apply attr_items_el in Hit. congruence.
    + apply elem_of_children_with in Hit as (j & k & y & Hj & Hy & ->).
      cbn in Hel. injection Hel as <- <-. rewrite Hj. by eapply IH.
Qed.

(** Writing a text does not change the attributes collected. *)
Lemma walkAttrs_set_nodeValue q v :
  ∀ self blocked n,
    walkAttrs self blocked (set_nodeValue q v n) = walkAttrs self blocked n.
Proof.
  induction q as [|i q IH]; intros self blocked [x|tag attrs kids|];
    cbn; try done.
  f_equal. apply children_with_alter. intros k. apply IH.
Qed.

End DomFacts.

(** ** Properties of the language layer *)

Module LanguageFacts.
Import JS Language LanguageSpec DomFacts.

(** *** Plain objects *)

Lemma own_get_Some_key props k v :
  own_get props k = Some v → k ∈ props.*1.
Proof.
  induction props as [|[k' v'] ps IH]; [done|]. cbn.
  case_bool_decide as Hk; intros Hv.
  - subst. by left.
  - right. by apply IH.
Qed.

Lemma own_get_own_set props k v k' :
  own_get (own_set props k v) k'
  = if bool_decide (k = k') then Some v else own_get props k'.
Proof.
  induction props as [|[k0 v0] ps IH]; cbn.
  - by repeat case_bool_decide.
  - repeat (case_bool_decide; cbn; simplify_eq); try done.
    all: rewrite IH; by repeat case_bool_decide.
Qed.

Lemma obj_get_own_set_eq props k v : obj_get (own_set props k v) k = v.
Proof. unfold obj_get. by rewrite own_get_own_set, bool_decide_true. Qed.

Lemma obj_get_own_set_ne props k v k' :
  k ≠ k' → obj_get (own_set props k v) k' = obj_get props k'.
Proof.
  intros. unfold obj_get. by rewrite own_get_own_set, bool_decide_false.
Qed.

Lemma truthy_obj_get props k :
  truthy (obj_get props k) = true →
  k ∈ props.*1 ∨ k ∈ Object_prototype_keys.
Proof.
  unfold obj_get. destruct (own_get props k) eqn:Hk.
  - left. by eapply own_get_Some_key.
  - unfold proto_get. case_bool_decide; [by right|done].
Qed.

(** *** [getLang], [setLang], [loadCache] *)

(** What [getLang] returns is a language code or a name inherited from
    [Object.prototype]. *)
Lemma getLang_supported_or_inherited (s : Page) :
  supported (getLang s) ∨ getLang s ∈ Object_prototype_keys.
Proof.
  unfold getLang.
  destruct (truthy (obj_get LANGS _)) eqn:Ht.
  - by apply truthy_obj_get in Ht.
  - left. unfold supported. vm_compute. left.
Qed.

Lemma getLang_unset (s : Page) :
  localStorage s !! STORAGE_KEY = None → getLang s = js "en".
Proof. unfold getLang. by intros ->. Qed.

Lemma normalize_supported_or_inherited (lang : jsstring) :
  supported (normalize lang) ∨ normalize lang ∈ Object_prototype_keys.
Proof.
  unfold normalize.
  destruct (truthy (obj_get LANGS lang)) eqn:Ht; cbn.
  - by apply truthy_obj_get in Ht.
  - left. unfold supported. vm_compute. left.
Qed.

Lemma normalize_supported (lang : jsstring) :
  supported lang → normalize lang = lang.
Proof.
  unfold supported. intros Hl.
  repeat (apply elem_of_cons in Hl as [->|Hl]; [reflexivity|]).
  by apply elem_of_nil in Hl.
Qed.

Section WithHost.
Context `{Host}.
Variable server : list Request → Request → Response.

(** [loadCache] gives the empty cache when the key is unset or empty and
    when the stored text does not parse. *)
Lemma loadCache_unset (s : Page) :
  localStorage s !! CACHE_KEY = None → loadCache s = VObj [].
Proof. unfold loadCache. intros ->. by rewrite JSON_parse_empty_object. Qed.

Lemma loadCache_invalid (s : Page) (text : jsstring) :
  localStorage s !! CACHE_KEY = Some text → text ≠ [] →
  JSON_parse text = None → loadCache s = VObj [].
Proof.
  unfold loadCache. intros -> Hne Hp.
  by rewrite bool_decide_false, Hp.
Qed.

Lemma loadCache_ext (s s' : Page) :
  localStorage s = localStorage s' → loadCache s = loadCache s'.
Proof. unfold loadCache. by intros ->. Qed.

(** Otherwise it gives whatever the stored text parses to. *)
Lemma loadCache_parsed (s : Page) (text : jsstring) (v : value) :
  localStorage s !! CACHE_KEY = Some text → text ≠ [] →
  JSON_parse text = Some v → loadCache s = v.
Proof.
  unfold loadCache. intros -> Hne Hp.
  by rewrite bool_decide_false, Hp.
Qed.

(** *** What a call leaves untouched *)

Lemma same_dom_refl s : same_dom s s.
Proof. by repeat split. Qed.

Lemma same_dom_trans s1 s2 s3 :
  same_dom s1 s2 → same_dom s2 s3 → same_dom s1 s3.
Proof. unfold same_dom. intros (?&?&?&?) (?&?&?&?). repeat split; congruence. Qed.

Lemma saveCache_requests cache s : requests (saveCache cache s) = requests s.
Proof. reflexivity. Qed.

Lemma saveCache_console cache s : console (saveCache cache s) = console s.
Proof. reflexivity. Qed.

Lemma saveCache_same_dom cache s : same_dom s (saveCache cache s).
Proof. by repeat split. Qed.

Lemma warn_console e s : console (warn e s) ≠ console s.
Proof.
  cbn. intros Heq. apply (f_equal length) in Heq.
  rewrite length_app in Heq. cbn in Heq. lia.
Qed.

(** *** One chunk *)

Lemma get_prop_supported v k : get_prop v k ≠ inl Unsupported.
Proof. by destruct v. Qed.

Lemma parseResponse_supported resp : parseResponse resp ≠ inl Unsupported.
Proof.
  destruct resp as [reason|ok body]; [done|]. cbn.
  destruct (negb ok).
  - destruct (get_prop _ _) eqn:Hg; [|done].
    intros [= ->]. by apply get_prop_supported in Hg.
  - destruct (get_prop _ _) as [e|[]] eqn:Hg; try done.
    intros [= ->]. by apply get_prop_supported in Hg.
Qed.

(** The three ways a chunk ends: the request fails and the [catch] logs
    it; the answer is stored and saved; or a write leaves the model. *)
Lemma translateChunk_cases lang slice cache s :
  let answer := parseResponse (server (requests s) (mkRequest lang slice)) in
  (∃ e, answer = inl e
        ∧ translateChunk server lang slice cache s
          = Ret None (warn e (logged lang slice s)))
  ∨ (∃ translated cache',
        answer = inr translated
        ∧ storeTranslations lang translated 0 slice cache = inr cache'
        ∧ translateChunk server lang slice cache s
          = Ret (Some cache') (saveCache cache' (logged lang slice s)))
  ∨ (∃ translated e,
        answer = inr translated
        ∧ storeTranslations lang translated 0 slice cache = inl e
        ∧ translateChunk server lang slice cache s
          = if is_unsupported e
            then Throw Unsupported (logged lang slice s)
            else Ret None (warn e (logged lang slice s))).
Proof.
  intros answer. unfold translateChunk, translateBatch. fold (logged lang slice s).
  fold answer. pose proof (parseResponse_supported (server (requests s) (mkRequest lang slice))) as Hsup.
  fold answer in Hsup.
  destruct answer as [e|translated]; cbn.
  - left. exists e. split; [done|]. by destruct e.
  - destruct (storeTranslations _ _ _ _ _) as [e|cache'] eqn:Hst.
    + right; right. exists translated, e. split; [done|]. split; [done|].
      by destruct e.
    + right; left. by exists translated, cache'.
Qed.

(** *** The loop over the chunks *)

Lemma chunk_requests_lookup lang missing i n k :
  k < n →
  chunk_requests lang missing i n !! k
  = Some (mkRequest lang (slice_at missing (i + k * CHUNK))).
Proof.
  revert i k. induction n as [|n IH]; intros i k Hk; [lia|].
  destruct k as [|k]; cbn -[CHUNK].
  - do 3 f_equal. lia.
  - rewrite IH by lia. do 3 f_equal. lia.
Qed.

Lemma chunk_requests_length lang missing i n :
  length (chunk_requests lang missing i n) = n.
Proof. revert i. induction n; intros; cbn; auto. Qed.

Lemma chunk_requests_take lang missing i n k :
  k ≤ n →
  take k (chunk_requests lang missing i n) = chunk_requests lang missing i k.
Proof.
  revert i k. induction n as [|n IH]; intros i [|k] Hk; cbn; try done; [lia|].
  f_equal. apply IH. lia.
Qed.

(** The fuel [applyLanguage] gives the loop never runs out: with that
    much, more fuel changes nothing. *)
Lemma chunkLoop_more_fuel fuel lang missing :
  ∀ i cache s,
    length missing ≤ i + fuel →
    chunkLoop server (S fuel) lang missing i cache s
    = chunkLoop server fuel lang missing i cache s.
Proof.
  induction fuel as [|fuel IH]; intros i cache s Hfuel.
  { cbn -[CHUNK]. rewrite bool_decide_false by lia. done. }
  cbn -[CHUNK]. case_bool_decide as Hi; [|done].
  unfold bind. destruct (translateChunk _ _ _ _ _) as [[c|] s'|e s']; try done.
  specialize (IH (i + CHUNK) c s'). cbn -[CHUNK] in IH. apply IH.
  unfold CHUNK. lia.
Qed.

(** What [chunkLoop] does: it sends the slices of [missing] in order,
    stops at the first request that fails, and touches neither the
    document nor the remembered originals. *)
Lemma chunkLoop_spec fuel lang missing i cache s :
  ∃ n,
    requests (page_of (chunkLoop server fuel lang missing i cache s))
    = requests s ++ chunk_requests lang missing i n
    ∧ same_dom s (page_of (chunkLoop server fuel lang missing i cache s))
    ∧ (∀ k, k < n → i + k * CHUNK < length missing)
    ∧ (∀ k e, k < n →
         parseResponse
           (server (requests s ++ chunk_requests lang missing i k)
                   (mkRequest lang (slice_at missing (i + k * CHUNK))))
         = inl e →
         S k = n
         ∧ ∃ s', chunkLoop server fuel lang missing i cache s = Ret None s')
    ∧ (∀ cache' s',
         chunkLoop server fuel lang missing i cache s = Ret (Some cache') s' →
         console s' = console s
         ∧ (length missing ≤ i + fuel → length missing ≤ i + n * CHUNK))
    ∧ (∀ s', chunkLoop server fuel lang missing i cache s = Ret None s' →
         console s' ≠ console s)
    ∧ (∀ e s', chunkLoop server fuel lang missing i cache s = Throw e s' →
         e = Unsupported).
Proof.
  revert i cache s. induction fuel as [|fuel IH]; intros i cache s.
  { exists 0. cbn. rewrite app_nil_r. unfold ret.
    repeat split; intros; simplify_eq; try done; lia. }
  cbn -[CHUNK]. case_bool_decide as Hi.
  2:{ exists 0. cbn. rewrite app_nil_r. unfold ret.
      repeat split; intros; simplify_eq; try done; lia. }
  unfold bind.
  destruct (translateChunk_cases lang (slice_at missing i) cache s)
    as [(e & Hans & ->)|[(tr & cache' & Hans & Hst & ->)|(tr & e & Hans & Hst & ->)]].
  - exists 1. cbn -[CHUNK].
    split; [done|]. split; [by repeat split|].
    split; [intros k Hk; assert (k = 0) as -> by lia; lia|].
    split; [intros k e' Hk _; split; [lia|eauto]|].
    split; [by intros|]. split; [|by intros].
    intros ? [= <-].
    exact (warn_console _ (logged lang (slice_at missing i) s)).
  - destruct (IH (i + CHUNK) cache' (saveCache cache' (logged lang (slice_at missing i) s)))
      as (n & Hreq & Hdom & Hbound & Hfail & Hsome & Hnone & Hthrow).
    exists (S n). cbn -[CHUNK].
    rewrite saveCache_requests in Hreq. cbn -[CHUNK] in Hreq.
    rewrite <- app_assoc in Hreq. cbn -[CHUNK] in Hreq.
    split; [exact Hreq|].
    split.
    { eapply same_dom_trans; [|exact Hdom].
      eapply same_dom_trans; [|apply saveCache_same_dom]. by repeat split. }
    split.
    { intros [|k] Hk; [lia|]. specialize (Hbound k). lia. }
    split.
    { intros [|k] e Hk Hp.
      - cbn -[CHUNK] in Hp. rewrite app_nil_r, Nat.add_0_r in Hp. congruence.
      - destruct (Hfail k e) as [Hn Hs']; [lia| |].
        + rewrite saveCache_requests. cbn -[CHUNK].
          rewrite <- app_assoc. cbn -[CHUNK].
          cbn -[CHUNK] in Hp.
          replace (i + CHUNK + k * CHUNK) with (i + (CHUNK + k * CHUNK)) by lia.
          exact Hp.
        + split; [lia|done]. }
    split.
    { intros c' s' Hr. destruct (Hsome c' s' Hr) as [Hc Hlen].
      rewrite saveCache_console in Hc. split; [done|].
      intros Hf. assert (length missing ≤ i + CHUNK + fuel) as Hf' by (unfold CHUNK; lia).
      specialize (Hlen Hf'). lia. }
    split.
    { intros s' Hr. specialize (Hnone s' Hr).
      by rewrite saveCache_console in Hnone. }
    exact Hthrow.
  - exists 1. cbn -[CHUNK].
    split; [by destruct (is_unsupported e)|].
    split; [by destruct (is_unsupported e)|].
    split; [intros k Hk; assert (k = 0) as -> by lia; lia|].
    split.
    { intros k e' Hk Hp. assert (k = 0) as -> by lia.
      cbn -[CHUNK] in Hp. rewrite app_nil_r, Nat.add_0_r in Hp. congruence. }
    destruct (is_unsupported e) eqn:He.
    + split; [by intros|]. split; [by intros|]. by intros ?? [= <- _].
    + split; [by intros|]. split; [|by intros].
      intros ? [= <-].
    exact (warn_console _ (logged lang (slice_at missing i) s)).
Qed.

(** *** The whole call *)

Lemma applyTranslations_frame cache lang nodes attrItems s :
  let s' := page_of (applyTranslations cache lang nodes attrItems s) in
  requests s' = requests s
  ∧ console s' = console s
  ∧ localStorage s' = localStorage s
  ∧ languageSelects s' = languageSelects s
  ∧ originalTextByNode s' = originalTextByNode s
  ∧ originalAttrsByEl s' = originalAttrsByEl s.
Proof.
  unfold applyTranslations. destruct (body (document s)); [|done].
  destruct (applyNodes _ _ _ _ _) as [root1 [e|]]; [done|].
  by destruct (applyAttrs _ _ _ _) as [root2 [e|]].
Qed.

Lemma captureOriginals_frame root s :
  let s' := (captureOriginals root s).1 in
  requests s' = requests s
  ∧ console s' = console s
  ∧ localStorage s' = localStorage s
  ∧ languageSelects s' = languageSelects s
  ∧ document s' = document s.
Proof. done. Qed.

Lemma applyLanguage_unfold lang s :
  applyLanguage server lang s
  = let s1 := set_languageSelects
                (syncSelects (normalize lang) (languageSelects s)) s in
    match body (document s) with
    | None => Ret tt s1
    | Some root =>
        if bool_decide (normalize lang = js "en")
        then Ret tt (restoreEnglish root s1)
        else translatePage server (normalize lang) root s1
    end.
Proof. reflexivity. Qed.

(** The branch of the other languages: it throws before any request when
    [missing] cannot be computed, and otherwise behaves as its loop. *)
Lemma translatePage_spec lang root s :
  let r := translatePage server lang root s in
  match missingTexts lang root s with
  | inl e => ∃ s', r = Throw e s' ∧ requests s' = requests s
                   ∧ document s' = document s
  | inr missing =>
      ∃ n,
        requests (page_of r) = requests s ++ chunk_requests lang missing 0 n
        ∧ (∀ k, k < n → k * CHUNK < length missing)
        ∧ (∀ k e, k < n →
             parseResponse
               (server (requests s ++ chunk_requests lang missing 0 k)
                       (mkRequest lang (slice_at missing (k * CHUNK))))
             = inl e →
             ∃ s', r = Ret tt s' ∧ document s' = document s)
        ∧ (returned r = true → console (page_of r) = console s →
           length missing ≤ n * CHUNK)
  end.
Proof.
  intros r. subst r. unfold missingTexts, translatePage.
  destruct (openCache lang s) as [e|cache]; [by exists s|].
  set (c := captureOriginals root s).
  destruct (filterMissing cache lang c.2.2) as [e|missing]; [by exists c.1|].
  unfold bind.
  destruct (chunkLoop_spec (length missing) lang missing 0 cache c.1)
    as (n & Hreq & Hdom & Hbound & Hfail & Hsome & Hnone & Hthrow).
  exists n.
  destruct (chunkLoop server (length missing) lang missing 0 cache c.1)
    as [[cache'|] s'|e s'] eqn:Hloop; cbn -[CHUNK applyTranslations] in *.
  - pose proof (λ ns ats, proj1 (applyTranslations_frame cache' lang ns ats s'))
      as Hr.
    rewrite Hr. split; [exact Hreq|]. split; [exact Hbound|].
    split.
    { intros k e Hk Hp. by destruct (Hfail k e Hk Hp) as [_ [? ?]]. }
    intros _ _. destruct (Hsome cache' s' eq_refl) as [_ Hlen].
    apply Hlen. lia.
  - split; [exact Hreq|]. split; [exact Hbound|].
    split.
    { intros k e Hk Hp. exists s'. split; [done|]. by destruct Hdom as [-> _]. }
    intros _ Hc. by destruct (Hnone s' eq_refl).
  - split; [exact Hreq|]. split; [exact Hbound|].
    split.
    { intros k e' Hk Hp. by destruct (Hfail k e' Hk Hp) as [_ [? ?]]. }
    done.
Qed.

Lemma missingTexts_selects lang root l s :
  missingTexts lang root (set_languageSelects l s) = missingTexts lang root s.
Proof. reflexivity. Qed.

(** A call in English, on a page without body, or whose [missing] cannot
    be computed, sends nothing. *)
Lemma applyLanguage_requests_none lang s :
  let s' := page_of (applyLanguage server lang s) in
  body (document s) = None
  ∨ normalize lang = js "en"
  ∨ (∃ root e, body (document s) = Some root
               ∧ missingTexts (normalize lang) root s = inl e) →
  new_requests s s' = [].
Proof.
  intros s' Hcase. subst s'. unfold new_requests.
  rewrite applyLanguage_unfold. cbv zeta.
  set (s1 := set_languageSelects _ s).
  destruct (body (document s)) as [root|] eqn:Hbody.
  2:{ cbn. by rewrite drop_all. }
  case_bool_decide as Hen.
  { cbn. by rewrite drop_all. }
  destruct Hcase as [?|[?|(root' & e & [= <-] & Hm)]]; [done..|].
  pose proof (translatePage_spec (normalize lang) root s1) as Hspec.
  cbv zeta in Hspec. unfold s1 in Hspec at 1.
  rewrite missingTexts_selects, Hm in Hspec.
  destruct Hspec as (s' & -> & Hr & _). cbn. rewrite Hr. apply drop_all.
Qed.

(** Any other call sends slices of [missing], in order. *)
Lemma applyLanguage_requests_some lang s root missing :
  let s' := page_of (applyLanguage server lang s) in
  body (document s) = Some root →
  normalize lang ≠ js "en" →
  missingTexts (normalize lang) root s = inr missing →
  ∃ n,
    new_requests s s' = chunk_requests (normalize lang) missing 0 n
    ∧ (∀ k, k < n → k * CHUNK < length missing)
    ∧ (∀ k e, k < n →
         parseResponse
           (server (requests s
                    ++ chunk_requests (normalize lang) missing 0 k)
                   (mkRequest (normalize lang)
                              (slice_at missing (k * CHUNK))))
         = inl e →
         applyLanguage server lang s = Ret tt s'
         ∧ document s' = document s)
    ∧ (returned (applyLanguage server lang s) = true →
       console s' = console s → length missing ≤ n * CHUNK).
Proof.
  intros s' Hbody Hen Hmiss. subst s'. unfold new_requests.
  rewrite applyLanguage_unfold. cbv zeta.
  set (s1 := set_languageSelects _ s).
  rewrite Hbody. rewrite bool_decide_false by done.
  pose proof (translatePage_spec (normalize lang) root s1) as Hspec.
  cbv zeta in Hspec. unfold s1 in Hspec at 1.
  rewrite missingTexts_selects, Hmiss in Hspec.
  destruct Hspec as (n & Hreq & Hbound & Hfail & Hlen).
  exists n.
  split; [rewrite Hreq; exact (drop_app_length _ _)|].
  split; [done|]. split; [|exact Hlen].
  intros k e Hk Hp. destruct (Hfail k e Hk Hp) as (s' & Hr & Hd).
  rewrite Hr. split; [done|]. exact Hd.
Qed.

Lemma applyLanguage_requests lang s :
  let s' := page_of (applyLanguage server lang s) in
  new_requests s s' = []
  ∨ ∃ root missing,
      body (document s) = Some root
      ∧ normalize lang ≠ js "en"
      ∧ missingTexts (normalize lang) root s = inr missing.
Proof.
  intros s'.
  destruct (body (document s)) as [root|] eqn:Hbody.
  2:{ left. apply applyLanguage_requests_none. by left. }
  destruct (decide (normalize lang = js "en")) as [Hen|Hen].
  { left. apply applyLanguage_requests_none. right. by left. }
  destruct (missingTexts (normalize lang) root s) as [e|missing] eqn:Hm.
  - left. apply applyLanguage_requests_none. right. right. eauto.
  - right. eauto.
Qed.

(** *** Slices *)

Lemma slice_at_length missing i : length (slice_at missing i) ≤ CHUNK.
Proof. unfold slice_at. rewrite length_take. lia. Qed.

Lemma chunk_requests_concat lang missing i n :
  concat (req_texts <$> chunk_requests lang missing i n)
  = take (n * CHUNK) (drop i missing).
Proof.
  revert i. induction n as [|n IH]; intros i; [done|].
  cbn -[CHUNK]. rewrite IH. unfold slice_at.
  rewrite <- (drop_drop missing CHUNK i).
  change (S n * CHUNK) with (CHUNK + n * CHUNK).
  apply take_take_drop.
Qed.

(** C5.  The [k]-th request a call of [applyLanguage] sends is for the
    normalised language and carries the slice of the list [missing] that
    starts at index [80 k] and has 80 strings (fewer for the last slice),
    so at most 80; and a call that returns without having logged a warning
    has sent the whole of [missing] this way. *)
Theorem requests_are_slices_of_80 (lang : jsstring) (s : Page) :
  let s' := page_of (applyLanguage server lang s) in
  (∀ k r, new_requests s s' !! k = Some r →
     length (req_texts r) ≤ 80
     ∧ ∃ root missing,
         body (document s) = Some root
         ∧ missingTexts (normalize lang) root s = inr missing
         ∧ 80 * k < length missing
         ∧ r = mkRequest (normalize lang) (take 80 (drop (80 * k) missing)))
  ∧ (∀ root missing,
       body (document s) = Some root →
       normalize lang ≠ js "en" →
       missingTexts (normalize lang) root s = inr missing →
       returned (applyLanguage server lang s) = true →
       console s' = console s →
       concat (req_texts <$> new_requests s s') = missing).
Proof.
  intros s'. split.
  - intros k r Hk.
    destruct (applyLanguage_requests lang s)
      as [Hnil|(root & missing & Hbody & Hen & Hmiss)].
    { fold s' in Hnil. by rewrite Hnil in Hk. }
    destruct (applyLanguage_requests_some lang s root missing Hbody Hen Hmiss)
      as (n & Hnew & Hbound & _).
    fold s' in Hnew. rewrite Hnew in Hk.
    assert (k < n) as Hkn.
    { apply lookup_lt_Some in Hk. by rewrite chunk_requests_length in Hk. }
    rewrite chunk_requests_lookup in Hk by done.
    injection Hk as <-. cbn -[CHUNK].
    split; [apply slice_at_length|].
    exists root, missing. split; [done|]. split; [done|].
    split; [specialize (Hbound k Hkn); unfold CHUNK in Hbound; lia|].
    unfold slice_at, CHUNK. do 3 f_equal. lia.
  - intros root missing Hbody Hen Hmiss Hret Hcons.
    destruct (applyLanguage_requests_some lang s root missing Hbody Hen Hmiss)
      as (n & Hnew & _ & _ & Hlen).
    fold s' in Hnew, Hlen. rewrite Hnew, chunk_requests_concat.
    rewrite drop_0. apply take_ge. by apply Hlen.
Qed.

(** C4.  When one of the requests of a call of [applyLanguage] fails (the
    fetch is rejected, the status is not 2xx, or the answer has no
    [translations] array, so that [translateBatch] throws), the call
    returns normally and leaves the document, every text node and every
    attribute, as it was before the call. *)
Theorem failed_translate_keeps_document (lang : jsstring) (s : Page)
    (k : nat) (r : Request) (e : exn) :
  let s' := page_of (applyLanguage server lang s) in
  new_requests s s' !! k = Some r →
  parseResponse (server (requests s ++ take k (new_requests s s')) r)
  = inl e →
  applyLanguage server lang s = Ret tt s' ∧ document s' = document s.
Proof.
  intros s' Hk Hfail.
  destruct (applyLanguage_requests lang s)
    as [Hnil|(root & missing & Hbody & Hen & Hmiss)].
  { fold s' in Hnil. by rewrite Hnil in Hk. }
  destruct (applyLanguage_requests_some lang s root missing Hbody Hen Hmiss)
    as (n & Hnew & _ & Hstop & _).
  fold s' in Hnew, Hstop. rewrite Hnew in Hk, Hfail.
  assert (k < n) as Hkn.
  { apply lookup_lt_Some in Hk. by rewrite chunk_requests_length in Hk. }
  rewrite chunk_requests_lookup in Hk by done. injection Hk as <-.
  rewrite chunk_requests_take in Hfail by lia.
  by apply (Hstop k e).
Qed.

(** *** The cache filter *)

Lemma filterMissing_spec cache lang texts missing :
  filterMissing cache lang texts = inr missing →
  ∀ t, t ∈ missing →
       t ∈ texts
       ∧ ∃ v, cache_lookup cache lang t = inr v ∧ truthy v = false.
Proof.
  revert missing. induction texts as [|t0 rest IH]; intros missing; cbn.
  { intros [= <-] t Ht. by apply elem_of_nil in Ht. }
  destruct (cache_lookup cache lang t0) as [e|v] eqn:Hv; [done|].
  destruct (filterMissing cache lang rest) as [e|l]; [done|].
  intros [= <-] t Ht.
  destruct (truthy v) eqn:Htv; cbn in Ht.
  - destruct (IH l eq_refl t Ht) as [? ?]. split; [by right|done].
  - apply elem_of_cons in Ht as [->|Ht].
    + split; [by left|eauto].
    + destruct (IH l eq_refl t Ht) as [? ?]. split; [by right|done].
Qed.

Lemma openCache_selects lang l s :
  openCache lang (set_languageSelects l s) = openCache lang s.
Proof. reflexivity. Qed.

Lemma chunk_requests_texts lang missing i n r t :
  r ∈ chunk_requests lang missing i n → t ∈ req_texts r → t ∈ missing.
Proof.
  revert i. induction n as [|n IH]; intros i; cbn -[CHUNK].
  { intros Hr. by apply elem_of_nil in Hr. }
  intros Hr Ht. apply elem_of_cons in Hr as [->|Hr]; [|by eapply IH].
  cbn -[CHUNK] in Ht. unfold slice_at in Ht.
  by apply subseteq_take, subseteq_drop in Ht.
Qed.

(** Every string a call requests was looked up in [cache] (the cache as
    lines 132-133 leave it) and found falsy there. *)
Lemma requested_texts_are_missing lang s cache r t :
  let s' := page_of (applyLanguage server lang s) in
  openCache (normalize lang) s = inr cache →
  r ∈ new_requests s s' → t ∈ req_texts r →
  ∃ v, cache_lookup cache (normalize lang) t = inr v ∧ truthy v = false.
Proof.
  intros s' Hcache Hr Ht.
  destruct (applyLanguage_requests lang s)
    as [Hnil|(root & missing & Hbody & Hen & Hmiss)].
  { fold s' in Hnil. rewrite Hnil in Hr. by apply elem_of_nil in Hr. }
  destruct (applyLanguage_requests_some lang s root missing Hbody Hen Hmiss)
    as (n & Hnew & _).
  fold s' in Hnew. rewrite Hnew in Hr.
  unfold missingTexts in Hmiss. rewrite Hcache in Hmiss.
  eapply filterMissing_spec; [exact Hmiss|].
  by eapply chunk_requests_texts.
Qed.

(** C3.  Let [cache] be the cache of a call of [applyLanguage], as loaded
    from the storage and completed by [cache[lang] = cache[lang] || {}].
    A string [t] for which [cache[lang][t]] is truthy (a non-empty
    translation) is in no request of the call; every string of every
    request has a falsy [cache[lang][t]] (no translation, or an empty
    one). *)
Theorem cached_strings_are_not_requested (lang : jsstring) (s : Page)
    (cache : value) :
  let s' := page_of (applyLanguage server lang s) in
  openCache (normalize lang) s = inr cache →
  (∀ t v, cache_lookup cache (normalize lang) t = inr v →
          truthy v = true →
          ∀ r, r ∈ new_requests s s' → t ∉ req_texts r)
  ∧ (∀ r t, r ∈ new_requests s s' → t ∈ req_texts r →
            ∃ v, cache_lookup cache (normalize lang) t = inr v
                 ∧ truthy v = false).
Proof.
  intros s' Hcache. split.
  - intros t v Hv Htv r Hr Ht.
    destruct (requested_texts_are_missing lang s cache r t Hcache Hr Ht)
      as (v' & Hv' & Hf).
    congruence.
  - intros r t Hr Ht.
    by apply (requested_texts_are_missing lang s cache r t).
Qed.

(** *** Storing the translations of a chunk *)

Lemma cache_lookup_plain cprops lang props t :
  own_get cprops lang = Some (VObj props) →
  cache_lookup (VObj cprops) lang t = inr (obj_get props t).
Proof.
  intros Hl. unfold cache_lookup, get_prop. unfold obj_get at 1.
  by rewrite Hl.
Qed.

(** A write of a string that was looked up and found falsy is a plain
    property write. *)
Lemma cache_store_plain cprops lang props t x :
  own_get cprops lang = Some (VObj props) →
  truthy (obj_get props t) = false →
  cache_store (VObj cprops) lang t x
  = inr (VObj (own_set cprops lang (VObj (own_set props t x)))).
Proof.
  intros Hl Hf. unfold cache_store, get_prop.
  unfold obj_get at 1. rewrite Hl. unfold set_prop.
  destruct (bool_decide (t = js "__proto__")
            && bool_decide (own_get props t = None)) eqn:Hproto.
  - apply andb_true_iff in Hproto as [Ht Hn].
    apply bool_decide_eq_true in Ht, Hn. subst t.
    unfold obj_get in Hf. by rewrite Hn in Hf.
  - unfold write_through. by rewrite Hl.
Qed.

Lemma storeTranslations_plain lang translated slice :
  ∀ j cprops props,
    own_get cprops lang = Some (VObj props) →
    NoDup slice →
    (∀ t, t ∈ slice → truthy (obj_get props t) = false) →
    ∃ cprops' props',
      storeTranslations lang translated j slice (VObj cprops)
      = inr (VObj cprops')
      ∧ own_get cprops' lang = Some (VObj props')
      ∧ (∀ i t, slice !! i = Some t →
           obj_get props' t
           = or_else (array_index translated (j + i)) (VStr t))
      ∧ (∀ t, t ∉ slice → obj_get props' t = obj_get props t).
Proof.
  induction slice as [|t0 rest IH]; intros j cprops props Hl Hnd Hf.
  { exists cprops, props. by repeat split. }
  apply NoDup_cons in Hnd as [Hnotin Hnd].
  cbn [storeTranslations].
  rewrite (cache_store_plain _ _ props) by (try done; apply Hf; by left).
  set (x := or_else (array_index translated j) (VStr t0)).
  destruct (IH (S j) (own_set cprops lang (VObj (own_set props t0 x)))
               (own_set props t0 x)) as (cprops' & props' & -> & Hl' & Hin & Hout).
  { by rewrite own_get_own_set, bool_decide_true. }
  { done. }
  { intros t Ht. rewrite obj_get_own_set_ne by (intros ->; done).
    apply Hf. by right. }
  exists cprops', props'. split; [done|]. split; [done|]. split.
  - intros [|i] t Hi; cbn in Hi.
    + injection Hi as <-. rewrite Hout by done.
      rewrite obj_get_own_set_eq. subst x. by rewrite Nat.add_0_r.
    + rewrite (Hin i t Hi). do 2 f_equal. lia.
  - intros t Ht. apply not_elem_of_cons in Ht as [Hne Ht].
    rewrite Hout by done. by apply obj_get_own_set_ne.
Qed.

(** Consider a chunk processed with a cache whose entry for the
    language is an object, for a slice of distinct strings that were
    missing from that entry (what [uniqueTexts] and the filter provide).
    When the chunk goes through, the request was answered with an array
    [translated]; afterwards the entry of the [j]-th string of the slice
    is [translated[j]], or the string itself when [translated[j]] is
    falsy or absent; the entries of the other strings are as before. *)
Theorem translations_are_cached_by_position (lang : jsstring)
    (slice : list jsstring) (cprops props : list (jsstring * value))
    (s s' : Page) (cache' : value) :
  own_get cprops lang = Some (VObj props) →
  NoDup slice →
  (∀ t, t ∈ slice → truthy (obj_get props t) = false) →
  translateChunk server lang slice (VObj cprops) s = Ret (Some cache') s' →
  ∃ translated,
    parseResponse (server (requests s) (mkRequest lang slice))
    = inr translated
    ∧ (∀ j t, slice !! j = Some t →
         cache_lookup cache' lang t
         = inr (or_else (array_index translated j) (VStr t)))
    ∧ (∀ t, t ∉ slice →
         cache_lookup cache' lang t = cache_lookup (VObj cprops) lang t).
Proof.
  intros Hl Hnd Hf Hrun.
  destruct (translateChunk_cases lang slice (VObj cprops) s)
    as [(e & _ & Hr)|[(tr & c & Hans & Hst & Hr)|(tr & e & _ & _ & Hr)]].
  - congruence.
  - rewrite Hr in Hrun. injection Hrun as <- <-.
    exists tr. split; [done|].
    destruct (storeTranslations_plain lang tr slice 0 cprops props Hl Hnd Hf)
      as (cprops' & props' & Hst' & Hl' & Hin & Hout).
    rewrite Hst' in Hst. injection Hst as <-. split.
    + intros j t Hj. rewrite (cache_lookup_plain _ _ props') by done.
      by rewrite (Hin j t Hj).
    + intros t Ht. rewrite (cache_lookup_plain _ _ props') by done.
      rewrite (cache_lookup_plain _ _ props) by done.
      by rewrite Hout.
  - rewrite Hr in Hrun. by destruct (is_unsupported e).
Qed.

(** The slices [applyLanguage] hands to its chunks are made of distinct
    strings. *)
Lemma Set_add_NoDup seen t : NoDup seen → NoDup (Set_add seen t).
Proof.
  intros Hnd. unfold Set_add. case_bool_decide; [done|].
  apply NoDup_app. split; [done|]. split; [|apply NoDup_singleton].
  intros x Hx Hx'. apply list_elem_of_singleton in Hx'. by subst.
Qed.

Lemma Array_from_Set_NoDup l : NoDup (Array_from_Set l).
Proof.
  unfold Array_from_Set.
  assert (∀ seen, NoDup seen → NoDup (foldl Set_add seen l)) as Hgen.
  { induction l as [|t l IH]; intros seen Hs; [done|].
    cbn. apply IH. by apply Set_add_NoDup. }
  apply Hgen. constructor.
Qed.

Lemma filterMissing_sublist cache lang texts missing :
  filterMissing cache lang texts = inr missing → missing `sublist_of` texts.
Proof.
  revert missing. induction texts as [|t0 rest IH]; intros missing; cbn.
  { by intros [= <-]. }
  destruct (cache_lookup cache lang t0) as [e|v]; [done|].
  destruct (filterMissing cache lang rest) as [e|l]; [done|].
  intros [= <-]. destruct (negb (truthy v)).
  - constructor. by apply IH.
  - constructor. by apply IH.
Qed.

Lemma missingTexts_NoDup lang root s missing :
  missingTexts lang root s = inr missing → NoDup missing.
Proof.
  unfold missingTexts. destruct (openCache lang s) as [e|cache]; [done|].
  intros Hm. apply filterMissing_sublist in Hm.
  refine (sublist_NoDup _ _ _ Hm). apply Array_from_Set_NoDup.
Qed.

Lemma slice_at_NoDup missing i : NoDup missing → NoDup (slice_at missing i).
Proof.
  intros Hnd. unfold slice_at.
  refine (sublist_NoDup _ _ Hnd _).
  etrans; [apply sublist_take|apply sublist_drop].
Qed.

(** Lines 132-133 give such a cache whenever the stored cache is an
    object whose entry for the language is absent, falsy or an object. *)
Lemma openCache_plain lang s cprops :
  loadCache s = VObj cprops →
  lang ∉ Object_prototype_keys →
  (∀ v, own_get cprops lang = Some v →
        truthy v = false ∨ ∃ props, v = VObj props) →
  ∃ cprops' props,
    openCache lang s = inr (VObj cprops')
    ∧ own_get cprops' lang = Some (VObj props).
Proof.
  intros Hload Hlang Hentry. unfold openCache. rewrite Hload.
  unfold get_prop, set_prop.
  assert (bool_decide (lang = js "__proto__") = false) as ->.
  { apply bool_decide_eq_false. intros ->. apply Hlang.
    unfold Object_prototype_keys. cbn [fmap list_fmap].
    apply elem_of_cons. right. by left. }
  cbn [andb]. unfold obj_get.
  destruct (own_get cprops lang) as [v|] eqn:Hv.
  - destruct (Hentry v eq_refl) as [Hf|[props ->]].
    + exists (own_set cprops lang (VObj [])), [].
      unfold or_else. rewrite Hf. split; [done|].
      by rewrite own_get_own_set, bool_decide_true.
    + exists (own_set cprops lang (VObj props)), props.
      split; [done|]. by rewrite own_get_own_set, bool_decide_true.
  - exists (own_set cprops lang (VObj [])), [].
    unfold proto_get. rewrite bool_decide_false by done.
    split; [done|]. by rewrite own_get_own_set, bool_decide_true.
Qed.

(** The same over a whole loop that goes through: the string at index [j]
    of the [k]-th slice gets the [j]-th element of the answer to the
    [k]-th request, and no other entry changes. *)
Lemma chunkLoop_cache_aligned fuel lang missing :
  NoDup missing →
  ∀ i cprops props s cache' s',
    own_get cprops lang = Some (VObj props) →
    (∀ t, t ∈ drop i missing → truthy (obj_get props t) = false) →
    length missing ≤ i + fuel →
    chunkLoop server fuel lang missing i (VObj cprops) s
    = Ret (Some cache') s' →
    (∀ k j t,
       j < CHUNK → missing !! (i + k * CHUNK + j) = Some t →
       ∃ translated,
         parseResponse
           (server (requests s ++ chunk_requests lang missing i k)
                   (mkRequest lang (slice_at missing (i + k * CHUNK))))
         = inr translated
         ∧ cache_lookup cache' lang t
           = inr (or_else (array_index translated j) (VStr t)))
    ∧ (∀ t, t ∉ drop i missing →
         cache_lookup cache' lang t = cache_lookup (VObj cprops) lang t)
    ∧ ∃ cprops' props', cache' = VObj cprops'
                        ∧ own_get cprops' lang = Some (VObj props').
Proof.
  intros Hnd. induction fuel as [|fuel IH];
    intros i cprops props s cache' s' Hl Hf Hfuel.
  { cbn. intros [= <- <-]. split; [|split; [done|eauto]].
    intros k j t _ Ht. apply lookup_lt_Some in Ht. lia. }
  cbn -[CHUNK cache_lookup]. case_bool_decide as Hi.
  2:{ intros [= <- <-]. split; [|split; [done|eauto]].
      intros k j t _ Ht. apply lookup_lt_Some in Ht. lia. }
  unfold bind.
  assert (Hsl : NoDup (slice_at missing i)) by by apply slice_at_NoDup.
  assert (Hsf : ∀ t, t ∈ slice_at missing i →
                     truthy (obj_get props t) = false).
  { intros t Ht. apply Hf. unfold slice_at in Ht.
    by apply subseteq_take in Ht. }
  assert (Hdisj : ∀ t, t ∈ slice_at missing i →
                       t ∉ drop (i + CHUNK) missing).
  { intros t Ht Ht'. unfold slice_at in Ht.
    rewrite <- (drop_drop missing CHUNK i) in Ht'.
    assert (NoDup (drop i missing)) as Hnd'.
    { refine (sublist_NoDup _ _ Hnd _). apply sublist_drop. }
    rewrite <- (take_drop CHUNK (drop i missing)) in Hnd'.
    apply NoDup_app in Hnd' as (_ & Hd & _). by apply (Hd t). }
  destruct (translateChunk_cases lang (slice_at missing i) (VObj cprops) s)
    as [(e & _ & ->)|[(tr & c & Hans & Hst & ->)|(tr & e & _ & _ & ->)]];
    [done| |by destruct (is_unsupported e)].
  destruct (storeTranslations_plain lang tr (slice_at missing i) 0
              cprops props Hl Hsl Hsf)
    as (cprops1 & props1 & Hst1 & Hl1 & Hin & Hout).
  rewrite Hst1 in Hst. injection Hst as <-.
  intros Hrun.
  destruct (IH (i + CHUNK) cprops1 props1
               (saveCache (VObj cprops1) (logged lang (slice_at missing i) s))
               cache' s' Hl1) as (Hal & Hfr & Hsh);
    [| unfold CHUNK in *; lia | exact Hrun |].
  { intros t Ht. rewrite Hout.
    - apply Hf. rewrite <- (drop_drop missing CHUNK i) in Ht.
      by apply subseteq_drop in Ht.
    - intros Ht'. by apply (Hdisj t). }
  split; [|split; [|exact Hsh]].
  - intros [|k] j t Hj Ht.
    + exists tr. cbn -[CHUNK]. rewrite app_nil_r, Nat.add_0_r.
      split; [exact Hans|].
      assert (slice_at missing i !! j = Some t) as Hjt.
      { unfold slice_at. rewrite lookup_take_lt by done.
        rewrite lookup_drop. by rewrite Nat.add_0_r in Ht. }
      rewrite Hfr.
      * rewrite (cache_lookup_plain _ _ props1) by done.
        by rewrite (Hin j t Hjt).
      * apply Hdisj. by eapply list_elem_of_lookup_2.
    + destruct (Hal k j t Hj) as (tr' & Hans' & Hlook).
      { rewrite <- Ht. f_equal. lia. }
      exists tr'. split; [|exact Hlook].
      rewrite <- Hans'. cbn -[CHUNK]. rewrite <- app_assoc. cbn -[CHUNK].
      do 4 f_equal. lia.
  - intros t Ht. rewrite Hfr.
    + rewrite (cache_lookup_plain _ _ props1) by done.
      rewrite (cache_lookup_plain _ _ props) by done.
      rewrite Hout; [done|].
      intros Ht'. apply Ht. unfold slice_at in Ht'.
      by apply subseteq_take in Ht'.
    + intros Ht'. apply Ht. rewrite <- (drop_drop missing CHUNK i) in Ht'.
      by apply subseteq_drop in Ht'.
Qed.

(** An element that is absent or the empty string gives the string
    itself. *)
Lemma or_else_absent translated j t :
  length translated ≤ j →
  or_else (array_index translated j) (VStr t) = VStr t.
Proof.
  intros Hj. unfold array_index. by rewrite lookup_ge_None_2.
Qed.

Lemma or_else_empty translated j t :
  translated !! j = Some (VStr []) →
  or_else (array_index translated j) (VStr t) = VStr t.
Proof. intros Hj. unfold array_index. by rewrite Hj. Qed.

Lemma or_else_translation translated j t x :
  translated !! j = Some (VStr x) → x ≠ [] →
  or_else (array_index translated j) (VStr t) = VStr x.
Proof.
  intros Hj Hx. unfold array_index, or_else. rewrite Hj. cbn.
  by rewrite bool_decide_false.
Qed.

(** *** What the English branch restores *)

Lemma restoreTextNodes_keeps originals nodes root p orig :
  nodeValue_at root p = Some orig →
  originals !! p = Some (Some orig) →
  nodeValue_at (restoreTextNodes originals nodes root) p = Some orig.
Proof.
  unfold restoreTextNodes. revert root.
  induction nodes as [|n nodes IH]; intros root Hp Ho; [done|].
  cbn [foldl]. apply IH; [|done].
  destruct (originals !! n) as [[o|]|] eqn:Hn; try done.
  destruct (decide (p = n)) as [->|Hne].
  - rewrite nodeValue_at_set_same by eauto. congruence.
  - by rewrite nodeValue_at_set_other.
Qed.

Lemma restoreTextNodes_spec originals nodes root p orig :
  p ∈ nodes → originals !! p = Some (Some orig) →
  is_Some (nodeValue_at root p) →
  nodeValue_at (restoreTextNodes originals nodes root) p = Some orig.
Proof.
  unfold restoreTextNodes. revert root.
  induction nodes as [|n nodes IH]; intros root Hin Ho Hp.
  { by apply elem_of_nil in Hin. }
  cbn [foldl]. destruct (decide (p = n)) as [->|Hne].
  - rewrite Ho. apply restoreTextNodes_keeps; [|done].
    by apply nodeValue_at_set_same.
  - apply elem_of_cons in Hin as [?|Hin]; [done|].
    apply IH; [done..|].
    destruct (originals !! n) as [[o|]|]; try done.
    by apply nodeValue_at_set_is_Some.
Qed.

Lemma restoreAttributes_nodeValue originals attrItems root p :
  nodeValue_at (restoreAttributes originals attrItems root) p
  = nodeValue_at root p.
Proof.
  unfold restoreAttributes. revert root.
  induction attrItems as [|it items IH]; intros root; [done|].
  cbn [foldl]. rewrite IH.
  destruct (originals !! el it) as [o|]; [|done].
  destruct (obj_get o (attr it)); try done.
  apply nodeValue_at_setAttribute.
Qed.

Lemma restoreAttributes_keeps originals attrItems root p a o orig :
  getAttribute_at root p a = Some orig →
  is_element_at root p = true →
  originals !! p = Some o → obj_get o a = VStr orig →
  getAttribute_at (restoreAttributes originals attrItems root) p a
  = Some orig.
Proof.
  unfold restoreAttributes. revert root.
  induction attrItems as [|it items IH]; intros root Hp He Ho Ha; [done|].
  cbn [foldl].
  destruct (originals !! el it) as [o'|] eqn:Hit; [|by apply IH].
  destruct (obj_get o' (attr it)) eqn:Hattr; try by apply IH.
  apply IH; try done.
  - destruct (decide ((el it, attr it) = (p, a))) as [[= Hel Hat]|Hne].
    + rewrite Hel, Hat in *. rewrite getAttribute_at_set_same by done.
      congruence.
    + by rewrite getAttribute_at_set_other.
  - by rewrite is_element_at_setAttribute.
Qed.

Lemma restoreAttributes_spec originals attrItems root it o orig :
  it ∈ attrItems → is_element_at root (el it) = true →
  originals !! el it = Some o → obj_get o (attr it) = VStr orig →
  getAttribute_at (restoreAttributes originals attrItems root)
                  (el it) (attr it)
  = Some orig.
Proof.
  unfold restoreAttributes. revert root.
  induction attrItems as [|it' items IH]; intros root Hin He Ho Ha.
  { by apply elem_of_nil in Hin. }
  cbn [foldl]. apply elem_of_cons in Hin as [<-|Hin].
  - rewrite Ho, Ha.
    apply (restoreAttributes_keeps originals items _ _ _ o); try done.
    + by apply getAttribute_at_set_same.
    + by rewrite is_element_at_setAttribute.
  - apply IH; try done.
    destruct (originals !! el it') as [o'|]; [|done].
    destruct (obj_get o' (attr it')); try done.
    by rewrite is_element_at_setAttribute.
Qed.

Lemma restoreTextNodes_attrs originals nodes root self blocked :
  walkAttrs self blocked (restoreTextNodes originals nodes root)
  = walkAttrs self blocked root.
Proof.
  unfold restoreTextNodes. revert root.
  induction nodes as [|n nodes IH]; intros root; [done|].
  cbn [foldl]. rewrite IH.
  destruct (originals !! n) as [[o|]|]; try done.
  apply walkAttrs_set_nodeValue.
Qed.

Lemma restoreTextNodes_element originals nodes root p :
  is_element_at (restoreTextNodes originals nodes root) p
  = is_element_at root p.
Proof.
  unfold restoreTextNodes. revert root.
  induction nodes as [|n nodes IH]; intros root; [done|].
  cbn [foldl]. rewrite IH.
  destruct (originals !! n) as [[o|]|]; try done.
  apply is_element_at_set_nodeValue.
Qed.

(** A call in English gives every text node it collects the original
    remembered for it, and every attribute it collects the original
    remembered for it. *)
Lemma english_restores_originals (s : Page) (root : Node) :
  let s' := page_of (applyLanguage server (js "en") s) in
  body (document s) = Some root →
  (∀ p orig,
     p ∈ collectTextNodes (document s) root →
     originalTextByNode s !! p = Some (Some orig) →
     text_in s' p = Some orig)
  ∧ (∀ it origAttrs orig,
       it ∈ collectTranslatableAttributes (document s) root →
       originalAttrsByEl s !! el it = Some origAttrs →
       obj_get origAttrs (attr it) = VStr orig →
       attribute_in s' (el it) (attr it) = Some orig).
Proof.
  intros s' Hbody. subst s'. rewrite applyLanguage_unfold. cbv zeta.
  rewrite Hbody. change (normalize (js "en")) with (js "en").
  rewrite bool_decide_true by done.
  unfold text_in, attribute_in, restoreEnglish, collectTextNodes,
    collectTranslatableAttributes.
  cbn [page_of document set_body set_document set_languageSelects body
       originalTextByNode originalAttrsByEl html_attributes mbind
       option_bind].
  split.
  - intros p orig Hp Ho.
    rewrite restoreAttributes_nodeValue.
    apply restoreTextNodes_spec; [done..|].
    by eapply walkText_text.
  - intros it o orig Hit Ho Ha. rewrite restoreTextNodes_attrs.
    apply (restoreAttributes_spec _ _ _ _ o); try done.
    rewrite restoreTextNodes_element.
    by eapply walkAttrs_element.
Qed.

(** *** The remembered originals *)

Lemma captureNodeText_fst root m texts n :
  (captureNodeText root (m, texts) n).1
  = match m !! n with
    | Some _ => m
    | None => <[n := nodeValue_at root n]> m
    end.
Proof. reflexivity. Qed.

Lemma captureNodeTexts_fold root nodes acc p :
  (∀ v, acc.1 !! p = Some v →
        (foldl (captureNodeText root) acc nodes).1 !! p = Some v)
  ∧ (acc.1 !! p = None →
     ∀ v, (foldl (captureNodeText root) acc nodes).1 !! p = Some v →
          v = nodeValue_at root p ∧ p ∈ nodes).
Proof.
  revert acc. induction nodes as [|n nodes IH]; intros [m texts].
  { cbn. split; [done|]. intros -> v. done. }
  cbn [foldl fst].
  destruct (IH (captureNodeText root (m, texts) n)) as [Hkeep Hnew].
  pose proof (captureNodeText_fst root m texts n) as Hfst.
  set (acc' := captureNodeText root (m, texts) n) in *.
  split.
  - intros v Hv. apply Hkeep. rewrite Hfst.
    destruct (m !! n) eqn:Hn; [done|].
    rewrite lookup_insert_ne; [done|]. intros ->. congruence.
  - intros Hnone v Hv.
    destruct (decide (n = p)) as [->|Hne].
    + assert (acc'.1 !! p = Some (nodeValue_at root p)) as Hp.
      { by rewrite Hfst, Hnone, lookup_insert_eq. }
      apply Hkeep in Hp. split; [congruence|by left].
    + assert (acc'.1 !! p = None) as Hp.
      { rewrite Hfst. destruct (m !! n); [done|].
        by rewrite lookup_insert_ne. }
      destruct (Hnew Hp v Hv) as [-> ?]. split; [done|by right].
Qed.

(** A remembered text stays; a text remembered by this pass is the
    current text of its node. *)
Lemma captureNodeTexts_keeps root nodes m p v :
  m !! p = Some v → (captureNodeTexts root nodes m).1 !! p = Some v.
Proof. apply (captureNodeTexts_fold root nodes (m, [])). Qed.

Lemma captureNodeTexts_first root nodes m p v :
  m !! p = None → (captureNodeTexts root nodes m).1 !! p = Some v →
  v = nodeValue_at root p ∧ p ∈ nodes.
Proof. intros Hn. by apply (captureNodeTexts_fold root nodes (m, [])). Qed.

Lemma is_undefined_spec v : is_undefined v = true ↔ v = VUndef.
Proof. by destruct v. Qed.

Lemma captureAttrTexts_fold attrItems :
  ∀ acc p o a,
    acc.1 !! p = Some o → is_undefined (obj_get o a) = false →
    ∃ o', (foldl captureAttrText acc attrItems).1 !! p = Some o'
          ∧ obj_get o' a = obj_get o a.
Proof.
  induction attrItems as [|it items IH]; intros [m texts] p o a Hp Ha.
  { by exists o. }
  cbn [foldl]. cbn [fst] in Hp.
  assert (∃ o1, (captureAttrText (m, texts) it).1 !! p = Some o1
                ∧ obj_get o1 a = obj_get o a)
    as (o1 & Hp1 & Ha1).
  { unfold captureAttrText. cbn [fst snd].
    destruct (decide (el it = p)) as [Heq|Hne].
    - rewrite Heq, Hp. rewrite Hp. cbn [from_option]. unfold id.
      destruct (is_undefined (obj_get o (attr it))) eqn:Hu.
      + exists (own_set o (attr it) (VStr (val it))).
        rewrite lookup_insert_eq. split; [done|].
        apply obj_get_own_set_ne. intros Heq'. rewrite Heq' in Hu. congruence.
      + by exists o.
    - exists o. split; [|done].
      match goal with |- context [if ?b then _ else _] => destruct b end.
      + rewrite lookup_insert_ne by done.
        destruct (m !! el it); [done|]. by rewrite lookup_insert_ne.
      + destruct (m !! el it); [done|]. by rewrite lookup_insert_ne. }
  destruct (IH (captureAttrText (m, texts) it) p o1 a Hp1) as (o' & Ho' & Ha').
  { congruence. }
  exists o'. split; [done|congruence].
Qed.

Lemma captureAttrTexts_keeps attrItems m p o a :
  m !! p = Some o → is_undefined (obj_get o a) = false →
  ∃ o', (captureAttrTexts attrItems m).1 !! p = Some o'
        ∧ obj_get o' a = obj_get o a.
Proof. apply (captureAttrTexts_fold attrItems (m, [])). Qed.

(** The originals after the branch of the other languages: those of the
    page, or those the capture leaves. *)
Lemma translatePage_originals lang root s :
  let s' := page_of (translatePage server lang root s) in
  (originalTextByNode s' = originalTextByNode s
   ∧ originalAttrsByEl s' = originalAttrsByEl s)
  ∨ (originalTextByNode s'
     = (captureNodeTexts root (collectTextNodes (document s) root)
                         (originalTextByNode s)).1
     ∧ originalAttrsByEl s'
       = (captureAttrTexts (collectTranslatableAttributes (document s) root)
                           (originalAttrsByEl s)).1).
Proof.
  intros s'. subst s'. unfold translatePage.
  destruct (openCache lang s) as [e|cache]; [by left|].
  right. set (c := captureOriginals root s).
  destruct (filterMissing cache lang c.2.2) as [e|missing]; [done|].
  unfold bind.
  destruct (chunkLoop_spec (length missing) lang missing 0 cache c.1)
    as (n & _ & (_ & _ & Ht & Ha) & _).
  destruct (chunkLoop server (length missing) lang missing 0 cache c.1)
    as [[cache'|] s'|e s'] eqn:Hloop; cbn [page_of] in *.
  - pose proof (λ ns ats, applyTranslations_frame cache' lang ns ats s') as Hfr.
    cbv zeta in Hfr.
    destruct (Hfr c.2.1.1 c.2.1.2) as (_ & _ & _ & _ & Ht' & Ha').
    rewrite Ht', Ha', Ht, Ha. done.
  - unfold ret. cbn [page_of]. by rewrite Ht, Ha.
  - by rewrite Ht, Ha.
Qed.

Lemma applyLanguage_originals lang s :
  let s' := page_of (applyLanguage server lang s) in
  (originalTextByNode s' = originalTextByNode s
   ∧ originalAttrsByEl s' = originalAttrsByEl s)
  ∨ (∃ root,
       body (document s) = Some root
       ∧ originalTextByNode s'
         = (captureNodeTexts root (collectTextNodes (document s) root)
                             (originalTextByNode s)).1
       ∧ originalAttrsByEl s'
         = (captureAttrTexts
              (collectTranslatableAttributes (document s) root)
              (originalAttrsByEl s)).1).
Proof.
  intros s'. subst s'. rewrite applyLanguage_unfold. cbv zeta.
  destruct (body (document s)) as [root|] eqn:Hbody; [|by left].
  case_bool_decide; [by left|].
  destruct (translatePage_originals (normalize lang) root
              (set_languageSelects
                 (syncSelects (normalize lang) (languageSelects s)) s))
    as [Hsame|Hcap].
  - by left.
  - right. exists root. split; [done|]. exact Hcap.
Qed.

(** One call keeps what is remembered. *)
Lemma applyLanguage_keeps_originals lang s :
  let s' := page_of (applyLanguage server lang s) in
  (∀ node orig, originalTextByNode s !! node = Some orig →
                originalTextByNode s' !! node = Some orig)
  ∧ (∀ el origAttrs attr,
       originalAttrsByEl s !! el = Some origAttrs →
       is_undefined (obj_get origAttrs attr) = false →
       ∃ origAttrs',
         originalAttrsByEl s' !! el = Some origAttrs'
         ∧ obj_get origAttrs' attr = obj_get origAttrs attr).
Proof.
  intros s'.
  destruct (applyLanguage_originals lang s) as [[Ht Ha]|(root & _ & Ht & Ha)];
    fold s' in Ht, Ha; rewrite Ht, Ha.
  - split; [done|]. intros el o a Ho _. by exists o.
  - split.
    + intros node orig. apply captureNodeTexts_keeps.
    + intros el o a. apply captureAttrTexts_keeps.
Qed.

(** The text a call remembers for a node it had not seen is the text the
    node has when the call starts. *)
Lemma applyLanguage_first_original lang s node orig :
  originalTextByNode s !! node = None →
  originalTextByNode (page_of (applyLanguage server lang s)) !! node
  = Some orig →
  ∃ root, body (document s) = Some root
          ∧ orig = nodeValue_at root node
          ∧ node ∈ collectTextNodes (document s) root.
Proof.
  intros Hnone Hsome.
  destruct (applyLanguage_originals lang s) as [[Ht _]|(root & Hb & Ht & _)];
    rewrite Ht in Hsome; [congruence|].
  exists root. split; [done|]. by eapply captureNodeTexts_first.
Qed.

(** *** Only remembered nodes are written *)

Lemma captureNodeTexts_all root nodes m n :
  n ∈ nodes → is_Some ((captureNodeTexts root nodes m).1 !! n).
Proof.
  unfold captureNodeTexts. generalize (@nil jsstring).
  revert m. induction nodes as [|n0 nodes IH]; intros m texts Hn.
  { by apply elem_of_nil in Hn. }
  cbn [foldl]. apply elem_of_cons in Hn as [->|Hn].
  - assert (is_Some ((captureNodeText root (m, texts) n0).1 !! n0))
      as [v Hv].
    { rewrite captureNodeText_fst. destruct (m !! n0) eqn:Hm; [by eauto|].
      rewrite lookup_insert_eq. eauto. }
    exists v.
    by apply (captureNodeTexts_fold root nodes
                (captureNodeText root (m, texts) n0)).
  - destruct (captureNodeText root (m, texts) n0) as [m' texts'].
    by apply IH.
Qed.

Lemma applyNodes_other originals cache lang nodes root p :
  p ∉ nodes →
  nodeValue_at (applyNodes originals cache lang nodes root).1 p
  = nodeValue_at root p.
Proof.
  revert root. induction nodes as [|n nodes IH]; intros root Hp; [done|].
  apply not_elem_of_cons in Hp as [Hne Hp].
  cbn [applyNodes]. case_bool_decide; [by apply IH|].
  destruct (cache_lookup cache lang _) as [e|v]; [done|].
  rewrite IH by done. by apply nodeValue_at_set_other.
Qed.

Lemma applyAttrs_nodeValue cache lang attrItems root p :
  nodeValue_at (applyAttrs cache lang attrItems root).1 p
  = nodeValue_at root p.
Proof.
  revert root. induction attrItems as [|it items IH]; intros root; [done|].
  cbn [applyAttrs]. destruct (cache_lookup cache lang _) as [e|v]; [done|].
  rewrite IH. apply nodeValue_at_setAttribute.
Qed.

Lemma restoreTextNodes_other originals nodes root p :
  originals !! p = None →
  nodeValue_at (restoreTextNodes originals nodes root) p
  = nodeValue_at root p.
Proof.
  intros Hp. unfold restoreTextNodes. revert root.
  induction nodes as [|n nodes IH]; intros root; [done|].
  cbn [foldl]. rewrite IH.
  destruct (originals !! n) as [[o|]|] eqn:Hn; try done.
  apply nodeValue_at_set_other. congruence.
Qed.

Lemma applyTranslations_text cache lang nodes attrItems s root p :
  body (document s) = Some root → p ∉ nodes →
  text_in (page_of (applyTranslations cache lang nodes attrItems s)) p
  = nodeValue_at root p.
Proof.
  intros Hbody Hp. unfold applyTranslations. rewrite Hbody.
  pose proof (applyNodes_other (originalTextByNode s) cache lang nodes
                root p Hp) as Hn.
  destruct (applyNodes _ _ _ _ _) as [root1 [e|]]; cbn in Hn |- *; [done|].
  pose proof (applyAttrs_nodeValue cache lang attrItems root1 p) as Ha.
  destruct (applyAttrs _ _ _ _) as [root2 [e|]]; cbn in Ha |- *; congruence.
Qed.

Lemma text_in_ext s s' p :
  document s' = document s → text_in s' p = text_in s p.
Proof. unfold text_in. by intros ->. Qed.

(** A call writes no text node for which it leaves no original. *)
Lemma applyLanguage_untouched lang s p :
  originalTextByNode (page_of (applyLanguage server lang s)) !! p = None →
  text_in (page_of (applyLanguage server lang s)) p = text_in s p.
Proof.
  rewrite applyLanguage_unfold. cbv zeta.
  set (s1 := set_languageSelects _ s).
  destruct (body (document s)) as [root|] eqn:Hbody.
  2:{ intros _. by apply text_in_ext. }
  assert (Hs : text_in s p = nodeValue_at root p).
  { unfold text_in. by rewrite Hbody. }
  rewrite Hs. clear Hs.
  case_bool_decide as Hen.
  { cbn [page_of]. intros Hp. unfold text_in, restoreEnglish.
    cbn [document set_body set_document body mbind option_bind].
    rewrite restoreAttributes_nodeValue.
    by apply restoreTextNodes_other. }
  assert (Hs1 : ∀ s', document s' = document s1 →
                      text_in s' p = nodeValue_at root p).
  { intros s' Hd. unfold text_in. rewrite Hd. cbn. by rewrite Hbody. }
  unfold translatePage.
  destruct (openCache (normalize lang) s1) as [e|cache].
  { intros _. by apply Hs1. }
  set (c := captureOriginals root s1).
  destruct (filterMissing cache (normalize lang) c.2.2) as [e|missing].
  { intros _. by apply Hs1. }
  unfold bind.
  destruct (chunkLoop_spec (length missing) (normalize lang) missing 0
              cache c.1) as (n & _ & (Hd & _ & Ht & _) & _).
  destruct (chunkLoop server (length missing) (normalize lang) missing 0
              cache c.1) as [[cache'|] s'|e s'] eqn:Hloop;
    cbn [page_of] in Hd, Ht |- *.
  - intros Hp.
    pose proof (λ ns ats, applyTranslations_frame cache' (normalize lang)
                            ns ats s') as Hfr.
    cbv zeta in Hfr.
    destruct (Hfr c.2.1.1 c.2.1.2) as (_ & _ & _ & _ & Ht' & _).
    rewrite Ht', Ht in Hp.
    apply (applyTranslations_text _ _ _ _ _ root).
    + rewrite Hd. cbn. exact Hbody.
    + intros Hin.
      destruct (captureNodeTexts_all root _ (originalTextByNode s1) p Hin)
        as [v Hv].
      change (originalTextByNode c.1)
        with (captureNodeTexts root c.2.1.1 (originalTextByNode s1)).1 in Hp.
      congruence.
  - intros _. unfold ret. cbn [page_of]. by apply Hs1.
  - intros _. by apply Hs1.
Qed.

(** Started on a page where nothing is remembered, any sequence of calls
    remembers for a text node the text it had on that page, and leaves the
    nodes without a remembered original as they were. *)
Lemma originals_are_initial_texts (langs : list jsstring) (s : Page) :
  originalTextByNode s = ∅ →
  (∀ p orig,
     originalTextByNode (applyLanguages server langs s) !! p = Some orig →
     orig = text_in s p)
  ∧ (∀ p,
       originalTextByNode (applyLanguages server langs s) !! p = None →
       text_in (applyLanguages server langs s) p = text_in s p).
Proof.
  intros Hempty.
  assert (∀ s0,
            (∀ p orig, originalTextByNode s0 !! p = Some orig →
                       orig = text_in s p) →
            (∀ p, originalTextByNode s0 !! p = None →
                  text_in s0 p = text_in s p) →
            (∀ p orig,
               originalTextByNode (applyLanguages server langs s0) !! p
               = Some orig → orig = text_in s p)
            ∧ (∀ p,
                 originalTextByNode (applyLanguages server langs s0) !! p
                 = None →
                 text_in (applyLanguages server langs s0) p = text_in s p))
    as Hgen.
  { induction langs as [|lang langs IH]; intros s0 Hsome Hnone; [done|].
    unfold applyLanguages. cbn [foldl].
    fold (applyLanguages server langs (page_of (applyLanguage server lang s0))).
    apply IH.
    - intros p orig Hp.
      destruct (originalTextByNode s0 !! p) as [o|] eqn:Hp0.
      + pose proof (proj1 (applyLanguage_keeps_originals lang s0) p o Hp0)
          as Hk.
        apply Hsome. congruence.
      + destruct (applyLanguage_first_original lang s0 p orig Hp0 Hp)
          as (root & Hb & -> & _).
        rewrite <- (Hnone p Hp0). unfold text_in. by rewrite Hb.
    - intros p Hp.
      rewrite applyLanguage_untouched by done.
      apply Hnone.
      destruct (originalTextByNode s0 !! p) as [o|] eqn:Hp0; [|done].
      pose proof (proj1 (applyLanguage_keeps_originals lang s0) p o Hp0)
        as Hk.
      congruence. }
  apply Hgen.
  - intros p orig. by rewrite Hempty, lookup_empty.
  - done.
Qed.

Lemma english_keeps_originalTextByNode (s : Page) :
  originalTextByNode (page_of (applyLanguage server (js "en") s))
  = originalTextByNode s.
Proof.
  rewrite applyLanguage_unfold. cbv zeta.
  destruct (body (document s)); [|done].
  change (normalize (js "en")) with (js "en").
  by rewrite bool_decide_true.
Qed.

(** So, after any sequence of calls started on such a page, a call in
    English gives every text node it collects and has an original for the
    text the node had at the start; the nodes without original still have
    it. *)
Lemma english_restores_initial_texts (langs : list jsstring) (s : Page)
    (root : Node) (p : path) :
  let s1 := applyLanguages server langs s in
  let s2 := page_of (applyLanguage server (js "en") s1) in
  originalTextByNode s = ∅ →
  body (document s1) = Some root →
  (p ∈ collectTextNodes (document s1) root
   ∧ ∃ orig, originalTextByNode s1 !! p = Some (Some orig))
  ∨ originalTextByNode s1 !! p = None →
  text_in s2 p = text_in s p.
Proof.
  intros s1 s2 Hempty Hbody Hp.
  destruct (originals_are_initial_texts langs s Hempty) as [Hsome Hnone].
  fold s1 in Hsome, Hnone.
  destruct Hp as [[Hin [orig Ho]]|Ho].
  - rewrite <- (Hsome p (Some orig) Ho).
    by apply (proj1 (english_restores_originals s1 root Hbody)).
  - rewrite <- (Hnone p Ho). apply applyLanguage_untouched.
    by rewrite english_keeps_originalTextByNode.
Qed.

(** C9.  Through any sequence of calls of [applyLanguage], in whatever
    languages, the original remembered for a text node stays the one
    remembered first, and so does the original remembered for an attribute
    of an element. *)
Theorem originals_are_never_overwritten (langs : list jsstring) (s : Page) :
  (∀ node orig,
     originalTextByNode s !! node = Some orig →
     originalTextByNode (applyLanguages server langs s) !! node = Some orig)
  ∧ (∀ el origAttrs attr,
       originalAttrsByEl s !! el = Some origAttrs →
       is_undefined (obj_get origAttrs attr) = false →
       ∃ origAttrs',
         originalAttrsByEl (applyLanguages server langs s) !! el
         = Some origAttrs'
         ∧ obj_get origAttrs' attr = obj_get origAttrs attr).
Proof.
  revert s. induction langs as [|lang langs IH]; intros s.
  { split; [done|]. intros el o a Ho _. by exists o. }
  unfold applyLanguages. cbn [foldl].
  fold (applyLanguages server langs (page_of (applyLanguage server lang s))).
  destruct (applyLanguage_keeps_originals lang s) as [Ht Ha].
  destruct (IH (page_of (applyLanguage server lang s))) as [Ht' Ha'].
  split.
  - intros node orig Hn. by apply Ht', Ht.
  - intros el o a Ho Hu.
    destruct (Ha el o a Ho Hu) as (o1 & Ho1 & Ha1).
    destruct (Ha' el o1 a Ho1) as (o2 & Ho2 & Ha2); [congruence|].
    exists o2. split; [done|congruence].
Qed.

End WithHost.

Import Samples.

(** C8.  With [constructor] stored under [acd_lang], [getLang] returns
    [constructor], which is no key of [LANGS]: the test [LANGS[v]] finds
    the property inherited from [Object.prototype].  [setLang] stores the
    same name and [applyLanguage] keeps it. *)
Theorem getLang_returns_inherited_name :
  getLang (sample_page {[STORAGE_KEY := js "constructor"]})
  = js "constructor"
  ∧ ¬ supported (js "constructor")
  ∧ normalize (js "constructor") = js "constructor"
  ∧ localStorage (page_of (setLang (js "constructor") (sample_page ∅)))
    !! STORAGE_KEY = Some (js "constructor").
Proof.
  split; [reflexivity|]. split; [|split; reflexivity].
  unfold supported. vm_compute. intros Hin.
  repeat (apply elem_of_cons in Hin as [Hin|Hin]; [discriminate Hin|]).
  by apply elem_of_nil in Hin.
Qed.

(** C10.  With the text [null] stored under [acd_lang_cache_v1],
    [loadCache] returns [null], which is no object, and [applyLanguage]
    then throws a [TypeError] at [cache[lang]], whatever the host and the
    back end. *)
Theorem loadCache_returns_null `{Host}
    (server : list Request → Request → Response) :
  loadCache (sample_page {[CACHE_KEY := js "null"]}) = VNull
  ∧ is_object (loadCache (sample_page {[CACHE_KEY := js "null"]})) = false
  ∧ ∃ s', applyLanguage server (js "hi")
            (sample_page {[CACHE_KEY := js "null"]})
          = Throw TypeError s'.
Proof.
  assert (Hc : loadCache (sample_page {[CACHE_KEY := js "null"]}) = VNull).
  { erewrite loadCache_parsed; [done|reflexivity|done|].
    apply JSON_parse_null. }
  split; [done|]. split; [by rewrite Hc|].
  eexists. unfold applyLanguage, bind, modify.
  change (normalize (js "hi")) with (js "hi").
  change (body (document _)) with (Some sample_body). cbv beta iota.
  rewrite bool_decide_false by discriminate.
  unfold translatePage, openCache.
  erewrite loadCache_ext; [rewrite Hc|]; reflexivity.
Qed.

Lemma sample_page_cache_unset :
  localStorage (sample_page ∅) !! CACHE_KEY = None.
Proof. apply lookup_empty. Qed.

(** Evaluation of calls on the sample page, whose storage is empty. *)
Ltac run_on_sample_page :=
  cbv zeta;
  rewrite !applyLanguage_unfold; cbv zeta;
  change (normalize (js "hi")) with (js "hi");
  change (normalize (js "en")) with (js "en");
  change (body (document (sample_page ∅))) with (Some sample_body);
  cbv beta iota; rewrite (bool_decide_false (js "hi" = js "en")) by discriminate;
  unfold translatePage, openCache;
  erewrite loadCache_ext;
    [rewrite (loadCache_unset (sample_page ∅) sample_page_cache_unset)
    |reflexivity];
  vm_compute.

(** C2.  On the sample page the placeholder of the input is the string
    [ Name ], with a space on each side.  A call in Hindi that goes through
    translates it, and so it does the text of the paragraph.  The call in
    English that follows gives the paragraph its text back, spaces
    included, but sets the placeholder to [Name]: the original remembered
    for an attribute is the trimmed value. *)
Theorem english_restores_trimmed_placeholder `{Host} :
  let s0 := sample_page ∅ in
  let s1 := page_of (applyLanguage echo_server (js "hi") s0) in
  let s2 := page_of (applyLanguage echo_server (js "en") s1) in
  (attribute_in s0 [1] (js "placeholder") = Some (js " Name ")
   ∧ attribute_in s1 [1] (js "placeholder") = Some (js "hi:Name")
   ∧ attribute_in s2 [1] (js "placeholder") = Some (js "Name"))
  ∧ (text_in s0 [0; 0] = Some (js " Hello ")
     ∧ text_in s1 [0; 0] = Some (js "hi:Hello")
     ∧ text_in s2 [0; 0] = Some (js " Hello "))
  ∧ attribute_in s2 [1] (js "placeholder")
    ≠ attribute_in s0 [1] (js "placeholder").
Proof.
  assert (attribute_in
            (page_of (applyLanguage echo_server (js "en")
                        (page_of (applyLanguage echo_server (js "hi")
                                    (sample_page ∅)))))
            [1] (js "placeholder") = Some (js "Name")) as Hafter.
  { run_on_sample_page; reflexivity. }
  cbv zeta. split; [|split].
  - split; [reflexivity|]. split; [|exact Hafter].
    run_on_sample_page; reflexivity.
  - split; [reflexivity|]. split; run_on_sample_page; reflexivity.
  - rewrite Hafter. discriminate.
Qed.

(** The restoration also misses a text node whose translation is blank:
    such a node is no longer collected by [collectTextNodes]. *)
Lemma english_skips_blank_translation `{Host} :
  let s0 := sample_page ∅ in
  let s1 := page_of (applyLanguage blank_server (js "hi") s0) in
  let s2 := page_of (applyLanguage blank_server (js "en") s1) in
  text_in s0 [0; 0] = Some (js " Hello ")
  ∧ text_in s1 [0; 0] = Some (js " ")
  ∧ text_in s2 [0; 0] = Some (js " ").
Proof.
  split; [reflexivity|]. split; run_on_sample_page; reflexivity.
Qed.

(** *** Instances of the theorems above *)

Lemma failed_translate_keeps_document_witness :
  applyLanguage failing_server (js "hi") (sample_page ∅)
  = Ret tt (page_of (applyLanguage failing_server (js "hi") (sample_page ∅)))
  ∧ document (page_of (applyLanguage failing_server (js "hi")
                         (sample_page ∅)))
    = document (sample_page ∅).
Proof.
  apply (failed_translate_keeps_document failing_server (js "hi")
           (sample_page ∅) 0
           (mkRequest (js "hi") [js "Hello"; js "Name"])
           (Error (js "Translation is not configured")));
    vm_compute; reflexivity.
Defined.

Lemma requests_are_slices_of_80_witness :
  new_requests long_page (page_of (applyLanguage echo_server (js "hi")
                                     long_page))
  !! 1 = Some (mkRequest (js "hi") (drop 80 long_texts))
  ∧ length (req_texts (mkRequest (js "hi") (drop 80 long_texts))) ≤ 80.
Proof.
  assert (new_requests long_page
            (page_of (applyLanguage echo_server (js "hi") long_page))
          !! 1 = Some (mkRequest (js "hi") (drop 80 long_texts))) as Hr.
  { vm_compute. reflexivity. }
  split; [exact Hr|].
  exact (proj1 (proj1 (requests_are_slices_of_80 echo_server (js "hi")
                         long_page) 1 _ Hr)).
Defined.

Lemma cached_strings_are_not_requested_witness :
  new_requests (sample_page {[CACHE_KEY := cache_text]})
    (page_of (applyLanguage echo_server (js "hi")
                (sample_page {[CACHE_KEY := cache_text]})))
  = [mkRequest (js "hi") [js "Name"]]
  ∧ js "Hello" ∉ req_texts (mkRequest (js "hi") [js "Name"]).
Proof.
  assert (new_requests (sample_page {[CACHE_KEY := cache_text]})
            (page_of (applyLanguage echo_server (js "hi")
                        (sample_page {[CACHE_KEY := cache_text]})))
          = [mkRequest (js "hi") [js "Name"]]) as Hnew.
  { vm_compute. reflexivity. }
  assert (openCache (normalize (js "hi"))
            (sample_page {[CACHE_KEY := cache_text]})
          = inr cache_value) as Hcache.
  { vm_compute. reflexivity. }
  split; [exact Hnew|].
  apply (proj1 (cached_strings_are_not_requested echo_server (js "hi")
                  (sample_page {[CACHE_KEY := cache_text]}) cache_value
                  Hcache)
           (js "Hello") (VStr (js "Namaste"))).
  - vm_compute. reflexivity.
  - reflexivity.
  - rewrite Hnew. by left.
Defined.

Lemma translations_are_cached_by_position_witness :
  ∃ translated,
    parseResponse
      (echo_server [] (mkRequest (js "hi") [js "Hello"; js "Name"]))
    = inr translated
    ∧ (∀ j t, [js "Hello"; js "Name"] !! j = Some t →
         cache_lookup
           (VObj [(js "hi", VObj [(js "Hello", VStr (js "hi:Hello"));
                                  (js "Name", VStr (js "hi:Name"))])])
           (js "hi") t
         = inr (or_else (array_index translated j) (VStr t)))
    ∧ (∀ t, t ∉ [js "Hello"; js "Name"] →
         cache_lookup
           (VObj [(js "hi", VObj [(js "Hello", VStr (js "hi:Hello"));
                                  (js "Name", VStr (js "hi:Name"))])])
           (js "hi") t
         = cache_lookup (VObj [(js "hi", VObj [])]) (js "hi") t).
Proof.
  apply (translations_are_cached_by_position echo_server (js "hi")
           [js "Hello"; js "Name"] [(js "hi", VObj [])] []
           (sample_page ∅)
           (page_of (translateChunk echo_server (js "hi")
                       [js "Hello"; js "Name"] (VObj [(js "hi", VObj [])])
                       (sample_page ∅)))).
  - reflexivity.
  - apply (NoDup_cons_2 _ _); [|apply NoDup_singleton].
    intros Hin. apply list_elem_of_singleton in Hin. discriminate Hin.
  - intros t Ht. apply elem_of_cons in Ht as [->|Ht]; [reflexivity|].
    apply list_elem_of_singleton in Ht as ->. reflexivity.
  - reflexivity.
Defined.

Lemma originals_are_never_overwritten_witness :
  originalTextByNode
    (applyLanguages echo_server [js "te"; js "en"; js "hi"]
       (page_of (applyLanguage echo_server (js "hi") (sample_page ∅))))
  !! [0; 0] = Some (Some (js " Hello ")).
Proof.
  apply (proj1 (originals_are_never_overwritten echo_server
                  [js "te"; js "en"; js "hi"]
                  (page_of (applyLanguage echo_server (js "hi")
                              (sample_page ∅))))).
  vm_compute. reflexivity.
Defined.

End LanguageFacts.
(** ** More properties of the emergency request form *)

Module EmergencyMoreFacts.
Import JS Emergency EmergencyMore.

Lemma elem_of_add_class c l x : x ∈ add_class c l ↔ x = c ∨ x ∈ l.
Proof.
  unfold add_class. case_bool_decide as Hc.
  - split; [by right|]. by intros [->|?].
  - rewrite elem_of_app, list_elem_of_singleton. tauto.
Qed.

Lemma elem_of_remove_class c l x : x ∈ remove_class c l ↔ x ≠ c ∧ x ∈ l.
Proof. unfold remove_class. by rewrite list_elem_of_filter. Qed.

(** X1.  Opening the modal shows it and hides the success banner of an earlier
    request; closing it hides it and resets the form; a click on the modal
    outside the card closes it, a click on the card does nothing.  No other
    class of the modal changes. *)
Theorem modal_opens_and_closes (s : Page) :
  ((hidden ∉ modal_classList (openEmergencyModal s))
   ∧ (∀ c, emergencySuccess (openEmergencyModal s) = Some c → hidden ∈ c))
  ∧ (hidden ∈ modal_classList (closeEmergencyModal s)
     ∧ new_events s (closeEmergencyModal s) = [FormReset])
  ∧ (onModalClick true s = closeEmergencyModal s ∧ onModalClick false s = s)
  ∧ (∀ x, x ≠ hidden →
          ((x ∈ modal_classList (openEmergencyModal s))
           ↔ (x ∈ modal_classList s))
          ∧ ((x ∈ modal_classList (closeEmergencyModal s))
             ↔ (x ∈ modal_classList s))).
Proof.
  split; [|split; [|split]].
  - split.
    + cbn. rewrite elem_of_remove_class. by intros [? _].
    + cbn. destruct (emergencySuccess s) as [c0|]; [|done].
      intros c [= <-]. apply elem_of_add_class. by left.
  - split.
    + cbn. apply elem_of_add_class. by left.
    + unfold new_events. cbn. by rewrite drop_app_length.
  - done.
  - intros x Hx. cbn. rewrite elem_of_remove_class, elem_of_add_class.
    split; [tauto|]. split; [|tauto]. by intros [?|?].
Qed.

Section WithHost.
Context `{Host}.

(** X2.  Whatever the request is answered, the submit button (when there is
    one) ends enabled and labelled [Submit]; a submission stopped by the
    size guard does not touch it. *)
Theorem submit_button_is_restored (resp : Response) (s : Page) :
  emergencySubmitBtn (onSubmit resp s)
  = if oversized s then emergencySubmitBtn s
    else (λ _, mkButton false (js "Submit")) <$> emergencySubmitBtn s.
Proof.
  unfold onSubmit. change (oversized (emit PreventDefault s)) with (oversized s).
  destruct (oversized s); [done|].
  assert (Hreq : ∀ s2 s', submitRequest resp s2 = inr s' →
                          emergencySubmitBtn s' = emergencySubmitBtn s2).
  { intros s2 s'. unfold submitRequest.
    destruct resp as [reason|ok body]; [done|].
    destruct (negb ok); [by destruct (get_prop _ _)|]. by intros [= <-]. }
  destruct (emergencySubmitBtn s) as [b|] eqn:Hb; cbn; rewrite Hb; cbn.
  - destruct (submitRequest resp _) as [e|s'] eqn:Hr; cbn; [done|].
    apply Hreq in Hr. cbn in Hr. by rewrite Hr.
  - destruct (submitRequest resp _) as [e|s'] eqn:Hr; cbn.
    + by rewrite Hb.
    + apply Hreq in Hr. cbn in Hr. rewrite Hb in Hr. by rewrite !Hr.
Qed.

(** X3.  A request answered with a 2xx status counts as accepted whatever its
    body (even one that is not JSON): the success banner is shown, the form
    is reset, and nothing is alerted or logged. *)
Theorem accepted_request_shows_success (body : option value) (s : Page) :
  oversized s = false →
  new_events s (onSubmit (HttpResponse true body) s)
  = [PreventDefault; Fetch (js "/emergency") (js "POST"); FormReset]
  ∧ emergencySuccess (onSubmit (HttpResponse true body) s)
    = remove_class hidden <$> emergencySuccess s.
Proof.
  intros Hbig. unfold onSubmit, new_events.
  change (oversized (emit PreventDefault s)) with (oversized s).
  rewrite Hbig. cbn [submitRequest negb].
  destruct (emergencySubmitBtn s) as [b|] eqn:Hb; cbn;
    repeat (rewrite Hb; cbn).
  - split; [|reflexivity].
    rewrite <- !app_assoc. by rewrite drop_app_length.
  - split; [|reflexivity].
    rewrite <- !app_assoc. by rewrite drop_app_length.
Qed.

(** X4.  Any other outcome (a rejected fetch, a status that is not 2xx) is
    logged and alerted once; the form is not reset and the success banner
    is left as it was. *)
Theorem failed_request_alerts_once (resp : Response) (s : Page) :
  oversized s = false →
  (∀ body, resp ≠ HttpResponse true body) →
  ∃ err text,
    new_events s (onSubmit resp s)
    = [PreventDefault; Fetch (js "/emergency") (js "POST");
       ConsoleError err; Alert text]
    ∧ emergencySuccess (onSubmit resp s) = emergencySuccess s.
Proof.
  intros Hbig Hresp. unfold onSubmit, new_events.
  change (oversized (emit PreventDefault s)) with (oversized s).
  rewrite Hbig.
  set (s1 := match emergencySubmitBtn (emit PreventDefault s) with
             | Some _ => _ | None => _ end).
  assert (Hs1 : events s1 = events s ++ [PreventDefault]
                ∧ emergencySuccess s1 = emergencySuccess s).
  { subst s1. by destruct (emergencySubmitBtn _). }
  destruct Hs1 as [Hev Hsu].
  set (s2 := emit (Fetch _ _) s1).
  assert (∃ err, submitRequest resp s2 = inl err) as [err ->].
  { unfold submitRequest. destruct resp as [reason|ok body]; [by eauto|].
    destruct ok; [by destruct (Hresp body)|]. cbn.
    destruct (get_prop _ _); eauto. }
  set (text := ToString (or_else (message_of err)
                           (VStr (js "Failed to submit. Please try again.")))).
  exists err, text.
  set (s3 := emit (Alert text) _).
  assert (events s3
          = events s ++ [PreventDefault; Fetch (js "/emergency") (js "POST");
                         ConsoleError err; Alert text]
          ∧ emergencySuccess s3 = emergencySuccess s) as [Hev3 Hsu3].
  { subst s3 s2. cbn. rewrite Hev, Hsu. by rewrite <- !app_assoc. }
  destruct (emergencySubmitBtn s3).
  - change (events (set_button ?b s3)) with (events s3).
    change (emergencySuccess (set_button ?b s3)) with (emergencySuccess s3).
    rewrite Hev3, Hsu3. by rewrite drop_app_length.
  - rewrite Hev3, Hsu3. by rewrite drop_app_length.
Qed.

(** X5.  What the alert says: the [error] of the answer when it has one, and
    a fixed sentence when the answer has no JSON body or no [error]. *)
Theorem refusal_shows_server_error (props : list (jsstring * value))
    (msg : jsstring) (s : Page) :
  oversized s = false →
  obj_get props (js "error") = VStr msg → msg ≠ [] →
  new_events s (onSubmit (HttpResponse false (Some (VObj props))) s)
  = [PreventDefault; Fetch (js "/emergency") (js "POST");
     ConsoleError (Error msg); Alert msg]
  ∧ new_events s (onSubmit (HttpResponse false None) s)
    = [PreventDefault; Fetch (js "/emergency") (js "POST");
       ConsoleError (Error (js "Failed to submit emergency request"));
       Alert (js "Failed to submit emergency request")].
Proof.
  intros Hbig Hmsg Hne.
  assert (Hgen : ∀ body m,
            m ≠ [] →
            submitRequest (HttpResponse false body)
              (emit (Fetch (js "/emergency") (js "POST"))
                 match emergencySubmitBtn (emit PreventDefault s) with
                 | Some _ => set_button
                               (Some (mkButton true (js "Submitting...")))
                               (emit PreventDefault s)
                 | None => emit PreventDefault s
                 end) = inl (Error m) →
            new_events s (onSubmit (HttpResponse false body) s)
            = [PreventDefault; Fetch (js "/emergency") (js "POST");
               ConsoleError (Error m); Alert m]).
  { intros body m Hm Hreq. unfold onSubmit, new_events.
    change (oversized (emit PreventDefault s)) with (oversized s).
    rewrite Hbig. rewrite Hreq.
    assert (ToString (or_else (message_of (Error m))
                        (VStr (js "Failed to submit. Please try again.")))
            = m) as ->.
    { cbn. unfold or_else. cbn. by rewrite bool_decide_false. }
    destruct (emergencySubmitBtn s) as [b|] eqn:Hb; cbn;
      repeat (rewrite Hb; cbn);
      rewrite <- ?app_assoc; by rewrite drop_app_length. }
  split.
  - apply Hgen; [done|]. cbn. rewrite Hmsg. unfold or_else. cbn.
    by rewrite bool_decide_false.
  - apply Hgen; [done|]. reflexivity.
Qed.

End WithHost.

Import Samples MoreSamples.

Lemma accepted_request_shows_success_witness :
  new_events form_with_small_image
    (onSubmit (HttpResponse true None) form_with_small_image)
  = [PreventDefault; Fetch (js "/emergency") (js "POST"); FormReset]
  ∧ emergencySuccess (onSubmit (HttpResponse true None) form_with_small_image)
    = remove_class hidden <$> emergencySuccess form_with_small_image.
Proof.
  apply (accepted_request_shows_success None form_with_small_image).
  reflexivity.
Defined.

Lemma failed_request_alerts_once_witness :
  ∃ err text,
    new_events form_with_small_image (onSubmit refusal form_with_small_image)
    = [PreventDefault; Fetch (js "/emergency") (js "POST");
       ConsoleError err; Alert text]
    ∧ emergencySuccess (onSubmit refusal form_with_small_image)
      = emergencySuccess form_with_small_image.
Proof.
  apply (failed_request_alerts_once refusal form_with_small_image).
  - reflexivity.
  - intros body. discriminate.
Defined.

Lemma refusal_shows_server_error_witness :
  new_events form_with_small_image (onSubmit refusal form_with_small_image)
  = [PreventDefault; Fetch (js "/emergency") (js "POST");
     ConsoleError (Error (js "Phone number is required"));
     Alert (js "Phone number is required")].
Proof.
  destruct (refusal_shows_server_error
              [(js "error", VStr (js "Phone number is required"))]
              (js "Phone number is required") form_with_small_image)
    as [Hshown _]; [reflexivity|reflexivity|discriminate|].
  exact Hshown.
Defined.

End EmergencyMoreFacts.

(** ** More properties of the sign-in script *)

Module AuthMoreFacts.
Import JS Auth AuthMore.

Lemma classList_remove_spec c e x :
  x ∈ classList (classList_remove c e) ↔ x ≠ c ∧ x ∈ classList e.
Proof. cbn. by rewrite list_elem_of_filter. Qed.

Lemma classList_add_spec c e x :
  x ∈ classList (classList_add c e) ↔ x = c ∨ x ∈ classList e.
Proof.
  cbn. case_bool_decide as Hc.
  - split; [by right|]. by intros [->|?].
  - rewrite elem_of_app, list_elem_of_singleton. tauto.
Qed.

Lemma classList_add_idem c e :
  classList_add c (classList_add c e) = classList_add c e.
Proof.
  unfold classList_add at 1.
  rewrite bool_decide_true; [by destruct (classList_add c e)|].
  apply classList_add_spec. by left.
Qed.

Lemma classList_remove_idem c e :
  classList_remove c (classList_remove c e) = classList_remove c e.
Proof.
  unfold classList_remove. cbn. f_equal.
  induction (classList e) as [|x l IH]; [done|].
  rewrite filter_cons. case_decide as Hx.
  - rewrite filter_cons, decide_True by done. by rewrite IH.
  - exact IH.
Qed.

(** [split(' ')[0]] is the name up to its first space. *)
Lemma first_word_spec name :
  (32%N ∉ first_word name)
  ∧ ∃ rest, name = first_word name ++ rest
            ∧ (rest = [] ∨ ∃ rest', rest = 32%N :: rest').
Proof.
  induction name as [|c name (IHn & rest & IHr & IHs)]; cbn.
  - split; [by apply not_elem_of_nil|]. exists []. eauto.
  - case_bool_decide as Hc.
    + split; [by apply not_elem_of_nil|]. exists (c :: name).
      split; [done|]. right. exists name. by rewrite Hc.
    + split.
      * apply not_elem_of_cons. split; [congruence|done].
      * exists rest. split; [cbn; congruence|done].
Qed.

(** X6.  When the login frame and the main content both exist,
    [transitionToMainContent] hides the first and shows the second,
    whatever their classes were; doing it again changes nothing; it shows
    and logs nothing.  When one of them is missing it does nothing. *)
Theorem transition_shows_main_content (s : Page) :
  (∀ l m, loginFrame s = Some l → mainContent s = Some m →
     ∃ l' m',
       loginFrame (transitionToMainContent s) = Some l'
       ∧ mainContent (transitionToMainContent s) = Some m'
       ∧ hidden ∈ classList l' ∧ hidden ∉ classList m')
  ∧ (loginFrame s = None ∨ mainContent s = None →
     transitionToMainContent s = s)
  ∧ transitionToMainContent (transitionToMainContent s)
    = transitionToMainContent s
  ∧ events (transitionToMainContent s) = events s.
Proof.
  unfold transitionToMainContent.
  destruct (loginFrame s) as [l|] eqn:Hl, (mainContent s) as [m|] eqn:Hm.
  - split; [|split; [by intros [|]|split; [|done]]].
    + intros ? ? [= <-] [= <-]. eexists _, _. cbn.
      split; [done|]. split; [done|]. split.
      * apply classList_add_spec. by left.
      * rewrite classList_remove_spec. by intros [? _].
    + cbn. by rewrite classList_add_idem, classList_remove_idem.
  - repeat split; try done. cbn. by rewrite Hl, Hm.
  - repeat split; try done. cbn. by rewrite Hl.
  - repeat split; try done. cbn. by rewrite Hl.
Qed.

Section WithHost.
Context `{Host}.

(** X7.  A successful popup sign-in of a user who has a display name: nothing is
    alerted; the name display greets the user by the first word of the name
    and is no longer hidden, the avatar has a source and is no longer
    hidden, and the login frame is hidden in favour of the main content. *)
Theorem signIn_success_shows_user (user : User) (name : jsstring)
    (s : Page) :
  auth s = true → googleProvider s = true →
  displayName user = Some name →
  let s' := signInWithGoogle (Resolved user) s in
  events s' = events s ++ [ConsoleLog (js "User signed in: ") (Some name)]
  ∧ (∀ d, userNameDisplay s = Some d →
       ∃ d', userNameDisplay s' = Some d'
             ∧ innerText d' = js "Hi, " ++ first_word name
             ∧ hidden ∉ classList d')
  ∧ (∀ a, userAvatar s = Some a →
       ∃ a', userAvatar s' = Some a'
             ∧ src a' = match photoURL user with
                        | Some ((_ :: _) as u) => u
                        | _ => default_avatar
                        end
             ∧ hidden ∉ classList a')
  ∧ (∀ l m, loginFrame s = Some l → mainContent s = Some m →
       ∃ l' m', loginFrame s' = Some l' ∧ mainContent s' = Some m'
                ∧ hidden ∈ classList l' ∧ hidden ∉ classList m').
Proof.
  intros Ha Hp Hn s'. subst s'. unfold signInWithGoogle.
  rewrite Ha, Hp, Hn. cbn [negb orb].
  unfold updateUIForSignedInUser, transitionToMainContent. rewrite Hn.
  split; [|split; [|split]].
  - destruct (userAvatar s) as [a|] eqn:Hav;
      destruct (userNameDisplay s) as [d|] eqn:Hd;
      destruct (loginFrame s) as [l|] eqn:Hl;
      destruct (mainContent s) as [m|] eqn:Hm;
      do 4 (cbn; rewrite ?Hav, ?Hd, ?Hl, ?Hm); done.
  - intros d Hd.
    destruct (userAvatar s) as [a|] eqn:Hav;
      destruct (loginFrame s) as [l|] eqn:Hl;
      destruct (mainContent s) as [m|] eqn:Hm;
      do 4 (cbn; rewrite ?Hav, ?Hd, ?Hl, ?Hm);
      (eexists; split; [done|]; split; [done|];
       cbn; rewrite list_elem_of_filter; by intros [? _]).
  - intros a Hav.
    destruct (userNameDisplay s) as [d|] eqn:Hd;
      destruct (loginFrame s) as [l|] eqn:Hl;
      destruct (mainContent s) as [m|] eqn:Hm;
      do 4 (cbn; rewrite ?Hav, ?Hd, ?Hl, ?Hm);
      (eexists; split; [done|]; split; [done|];
       cbn; rewrite list_elem_of_filter; by intros [? _]).
  - intros l m Hl Hm.
    destruct (userAvatar s) as [a|] eqn:Hav;
      destruct (userNameDisplay s) as [d|] eqn:Hd;
      do 4 (cbn; rewrite ?Hav, ?Hd, ?Hl, ?Hm);
      (eexists _, _; split; [done|]; split; [done|]; split;
       [apply classList_add_spec; by left
       |rewrite classList_remove_spec; by intros [? _]]).
Qed.

(** X9.  The auth-state listener brings a page that shows the login frame to
    the same elements as a successful popup sign-in, and throws nothing;
    told that nobody is signed in, it only logs. *)
Theorem auth_state_listener_agrees_with_signIn (user : User)
    (name : jsstring) (l m : Element) (s : Page) :
  auth s = true → googleProvider s = true →
  displayName user = Some name →
  loginFrame s = Some l → mainContent s = Some m →
  hidden ∉ classList l → hidden ∈ classList m →
  (onAuthStateChanged (Some user) s).2 = None
  ∧ ui (onAuthStateChanged (Some user) s).1
    = ui (signInWithGoogle (Resolved user) s)
  ∧ ui (onAuthStateChanged None s).1 = ui s
  ∧ (onAuthStateChanged None s).2 = None.
Proof.
  intros Ha Hp Hn Hl Hm Hnl Hhm.
  unfold onAuthStateChanged, signInWithGoogle. rewrite Ha, Hp. cbn [negb orb].
  unfold updateUIForSignedInUser, transitionToMainContent. rewrite Hn.
  destruct (userAvatar s) as [a|] eqn:Hav;
    destruct (userNameDisplay s) as [d|] eqn:Hd;
    do 4 (cbn; rewrite ?Hav, ?Hd, ?Hl, ?Hm);
    unfold contains; rewrite (bool_decide_false _ Hnl), (bool_decide_true _ Hhm);
    cbn; rewrite ?Hl, ?Hm; done.
Qed.

(** X8.  A popup sign-in that resolves with a user who has no display name,
    on a page with a name display: the success handler throws while
    greeting, so the sign-in is reported as a failed login, with the
    engine's message, and the login frame stays; the avatar, updated
    before the greeting, keeps its new source. *)
Theorem signIn_without_name_is_reported_as_failure (user : User)
    (d : Element) (s : Page) :
  auth s = true → googleProvider s = true →
  userNameDisplay s = Some d → displayName user = None →
  let s' := signInWithGoogle (Resolved user) s in
  events s'
  = events s ++ [ConsoleLog (js "User signed in: ") None;
                 ConsoleError (js "Error signing in: ") TypeError;
                 Alert (js "Login failed: " ++ typeError_message)]
  ∧ loginFrame s' = loginFrame s
  ∧ mainContent s' = mainContent s
  ∧ userNameDisplay s' = Some d
  ∧ (∀ a, userAvatar s = Some a →
       ∃ a', userAvatar s' = Some a' ∧ (hidden ∉ classList a')
             ∧ src a' = match photoURL user with
                        | Some ((_ :: _) as u) => u
                        | _ => default_avatar
                        end).
Proof.
  intros Ha Hp Hd Hn. cbv zeta. unfold signInWithGoogle.
  rewrite Ha, Hp, Hn. cbn [negb orb].
  unfold updateUIForSignedInUser. rewrite Hn.
  destruct (userAvatar s) as [a|] eqn:Hav;
    do 4 (cbn; rewrite ?Hav, ?Hd); unfold onSignInError; cbn;
    rewrite <- ?app_assoc; cbn.
  - do 4 (split; [done|]). intros ? [= <-]. eexists. split; [done|].
    split; [|done]. cbn. rewrite list_elem_of_filter. by intros [? _].
  - do 4 (split; [done|]). by intros ? [=].
Qed.

(** X11.  Without Firebase the page is not gated: loading the script shows the
    main content, the sign-in button only tells that login is unavailable,
    and signing out only reloads the page. *)
Theorem without_firebase_the_page_is_open (popup : PopupResult)
    (outcome : SignOutResult) (s : Page) :
  auth s = false →
  onScriptLoad s = transitionToMainContent s
  ∧ (∀ l m, loginFrame s = Some l → mainContent s = Some m →
       ∃ l' m', loginFrame (onScriptLoad s) = Some l'
                ∧ mainContent (onScriptLoad s) = Some m'
                ∧ hidden ∈ classList l' ∧ hidden ∉ classList m')
  ∧ signInWithGoogle popup (onScriptLoad s)
    = emit (Alert (js "Login is not available right now (Firebase not configured)."))
           (onScriptLoad s)
  ∧ signOut outcome (onScriptLoad s) = emit Reload (onScriptLoad s).
Proof.
  intros Ha. unfold onScriptLoad. rewrite Ha. cbn [negb].
  assert (Ha' : auth (transitionToMainContent s) = false).
  { unfold transitionToMainContent.
    by destruct (loginFrame s), (mainContent s). }
  split; [done|]. split; [|split].
  - intros l m Hl Hm. unfold transitionToMainContent. rewrite Hl, Hm.
    eexists _, _. cbn. split; [done|]. split; [done|]. split.
    + apply classList_add_spec. by left.
    + rewrite classList_remove_spec. by intros [? _].
  - unfold signInWithGoogle. by rewrite Ha'.
  - unfold signOut. by rewrite Ha'.
Qed.

End WithHost.

(** X10.  Signing out touches no element and alerts nothing; the page is
    reloaded when Firebase is unavailable or the sign-out went through,
    and is not when the sign-out failed, which is only logged. *)
Theorem signOut_reloads_unless_it_fails (outcome : SignOutResult)
    (s : Page) :
  ui (signOut outcome s) = ui s
  ∧ (∀ e, e ∈ drop (length (events s)) (events (signOut outcome s)) →
          is_alert e = false)
  ∧ (Reload ∈ drop (length (events s)) (events (signOut outcome s))
     ↔ auth s = false ∨ outcome = SignedOut).
Proof.
  unfold signOut. destruct (auth s); cbn [negb].
  - destruct outcome as [|error]; cbn.
    + split; [done|]. rewrite <- app_assoc, drop_app_length. split.
      * intros e He. set_unfold. by destruct He as [->|[->|[]]].
      * split; [by right|]. intros _. set_unfold. by right; left.
    + split; [done|]. rewrite drop_app_length. split.
      * intros e He. set_unfold. by destruct He as [->|[]].
      * split; [|by intros [|]]. intros He. set_unfold.
        by destruct He as [|[]].
  - split; [done|]. cbn. rewrite drop_app_length. split.
    + intros e He. set_unfold. by destruct He as [->|[]].
    + split; [by left|]. intros _. set_unfold. by left.
Qed.

Import Samples MoreSamples.

Lemma signIn_success_shows_user_witness :
  events (signInWithGoogle (Resolved asha) login_page)
  = [ConsoleLog (js "User signed in: ") (Some (js "Asha Rao"))]
  ∧ ∃ d', userNameDisplay (signInWithGoogle (Resolved asha) login_page)
          = Some d'
          ∧ innerText d' = js "Hi, Asha"
          ∧ hidden ∉ classList d'.
Proof.
  destruct (signIn_success_shows_user asha (js "Asha Rao") login_page)
    as (Hev & Hname & _); [reflexivity..|].
  split; [exact Hev|].
  exact (Hname (mkElement [hidden] [] []) eq_refl).
Defined.

Lemma auth_state_listener_agrees_with_signIn_witness :
  (onAuthStateChanged (Some asha) login_page).2 = None
  ∧ ui (onAuthStateChanged (Some asha) login_page).1
    = ui (signInWithGoogle (Resolved asha) login_page).
Proof.
  destruct (auth_state_listener_agrees_with_signIn asha (js "Asha Rao")
              (mkElement [] [] []) (mkElement [hidden] [] []) login_page)
    as (Hnone & Hui & _); try reflexivity.
  - apply not_elem_of_nil.
  - by left.
  - split; [exact Hnone|exact Hui].
Defined.

Lemma signIn_without_name_is_reported_as_failure_witness :
  events (signInWithGoogle (Resolved (mkUser None None)) login_page)
  = [ConsoleLog (js "User signed in: ") None;
     ConsoleError (js "Error signing in: ") TypeError;
     Alert (js "Login failed: " ++ typeError_message)]
  ∧ loginFrame (signInWithGoogle (Resolved (mkUser None None)) login_page)
    = loginFrame login_page.
Proof.
  destruct (signIn_without_name_is_reported_as_failure (mkUser None None)
              (mkElement [hidden] [] []) login_page)
    as (Hev & Hframe & _); [reflexivity..|].
  split; [exact Hev|exact Hframe].
Defined.

Lemma without_firebase_the_page_is_open_witness :
  signOut SignedOut
    (onScriptLoad (mkPage false false None None None None []))
  = emit Reload (onScriptLoad (mkPage false false None None None None [])).
Proof.
  destruct (without_firebase_the_page_is_open (Resolved asha) SignedOut
              (mkPage false false None None None None []))
    as (_ & _ & _ & Hout); [reflexivity|].
  exact Hout.
Defined.

End AuthMoreFacts.

(** ** What the collectors find *)

Module CollectFacts.
Import JS Language LanguageSpec DomSpec DomFacts.

Lemma trim_nil : trim [] = [].
Proof. reflexivity. Qed.

Lemma walkText_spec p :
  ∀ blocked ptag n,
    p ∈ walkText blocked (Some (mkParent blocked ptag)) n
    ↔ ∃ text,
        nodeValue_at n p = Some text
        ∧ trim text ≠ []
        ∧ closest_at blocked n p = false
        ∧ parent_tag_at ptag n p ≠ []
        ∧ parent_tag_at ptag n p ∉ [js "SCRIPT"; js "STYLE"; js "NOSCRIPT"].
Proof.
  induction p as [|i p IH]; intros blocked ptag [x|tag attrs kids|].
  - cbn. split.
    + intros Hp. exists x.
      repeat case_bool_decide; destruct blocked; cbn in Hp;
        try (by apply elem_of_nil in Hp); done.
    + intros (text & [= <-] & Htrim & -> & Htag & Hnot).
      rewrite bool_decide_false by (intros ->; by apply Htrim).
      rewrite bool_decide_false by done. cbn.
      rewrite bool_decide_false by done.
      rewrite bool_decide_false by done. by left.
  - cbn. split.
    + intros Hp.
      apply elem_of_children_with in Hp as (j & k & y & _ & _ & [=]).
    + by intros (text & [=] & _).
  - cbn. split; [by intros ?%elem_of_nil|by intros (text & [=] & _)].
  - cbn. split; [|by intros (text & [=] & _)].
    destruct (bool_decide (x = [])); [by intros ?%elem_of_nil|].
    destruct (bool_decide (trim x = [])); [by intros ?%elem_of_nil|].
    destruct blocked; cbn; [by intros ?%elem_of_nil|].
    repeat case_bool_decide; try by intros ?%elem_of_nil.
    by intros [=]%list_elem_of_singleton.
  - cbn. rewrite elem_of_children_with. split.
    + intros (j & k & y & Hj & Hy & [= -> ->]). rewrite Hj.
      by apply IH.
    + destruct (kids !! i) as [k|] eqn:Hi; [|by intros (text & [=] & _)].
      intros Hspec. exists i, k, p. split; [done|]. split; [|done].
      by apply IH.
  - cbn. split; [by intros ?%elem_of_nil|by intros (text & [=] & _)].
Qed.

(** The paths found below the children of an element start with the index
    of the child. *)
Lemma NoDup_children_with (visit : Node → list path) (ks : list Node) :
  Forall (λ k, NoDup (visit k)) ks →
  ∀ i, NoDup (children_with visit cons i ks).
Proof.
  induction 1 as [|k ks Hk _ IH]; intros i; cbn; [constructor|].
  apply NoDup_app. split; [|split].
  - apply (NoDup_fmap_2 _). exact Hk.
  - intros x Hx Hx'. apply list_elem_of_fmap in Hx as (y & -> & _).
    apply elem_of_children_with in Hx' as (j & k' & y' & _ & _ & [= Hij _]).
    lia.
  - apply IH.
Qed.

Lemma Node_ind_kids (P : Node → Prop) :
  (∀ v, P (Text v)) → P Other →
  (∀ tag attrs kids, Forall P kids → P (Elem tag attrs kids)) →
  ∀ n, P n.
Proof.
  intros Ht Ho He. fix IH 1. intros [v|tag attrs kids|].
  - apply Ht.
  - apply He. induction kids as [|k ks IHks]; constructor.
    + apply IH.
    + apply IHks.
  - apply Ho.
Qed.

Lemma walkText_NoDup n :
  ∀ blocked parent, NoDup (walkText blocked parent n).
Proof.
  induction n as [v| |tag attrs kids IH] using Node_ind_kids;
    intros blocked parent.
  - cbn -[isTranslatableTextNode].
    destruct (isTranslatableTextNode _ _); [|constructor].
    apply NoDup_singleton.
  - constructor.
  - cbn. apply NoDup_children_with.
    eapply Forall_impl; [exact IH|]. intros k Hk. apply Hk.
Qed.

(** X14.  [collectTextNodes] finds each text node at most once, and finds
    exactly the text nodes that have a text other than white space, no
    [data-no-translate="true"] on an element above them, and a parent that
    is not a [script], [style] or [noscript] element. *)
Theorem collectTextNodes_finds_translatable_text (d : Document)
    (root : Node) :
  NoDup (collectTextNodes d root)
  ∧ ∀ p,
      p ∈ collectTextNodes d root
      ↔ ∃ text,
          nodeValue_at root p = Some text
          ∧ trim text ≠ []
          ∧ closest_at (no_translate (html_attributes d)) root p = false
          ∧ parent_tag_at (js "HTML") root p ≠ []
          ∧ parent_tag_at (js "HTML") root p
            ∉ [js "SCRIPT"; js "STYLE"; js "NOSCRIPT"].
Proof.
  split; [apply walkText_NoDup|]. intros p. apply walkText_spec.
Qed.

Lemma attr_items_spec p attrs it :
  it ∈ attr_items p attrs
  ↔ el it = p
    ∧ attr it ∈ translatable_attributes
    ∧ ∃ v, getAttribute attrs (attr it) = Some v
           ∧ trim v ≠ [] ∧ val it = trim v.
Proof.
  unfold attr_items. rewrite list_elem_of_In, in_flat_map. split.
  - intros (a & Ha & Hit). apply list_elem_of_In in Ha, Hit.
    destruct (getAttribute attrs a) as [v|] eqn:Hv;
      [|by apply elem_of_nil in Hit].
    repeat case_bool_decide; cbn in Hit; try by apply elem_of_nil in Hit.
    apply list_elem_of_singleton in Hit as ->. cbn. eauto 6.
  - intros (Hel & Ha & v & Hv & Htrim & Hval).
    exists (attr it). split; [by apply list_elem_of_In|].
    rewrite Hv.
    rewrite (bool_decide_false (v = [])) by (intros ->; by apply Htrim).
    rewrite bool_decide_false by done. cbn. left.
    destruct it; cbn in *; congruence.
Qed.

Lemma walkAttrs_spec p :
  ∀ it self blocked n,
    el it = p →
    it ∈ walkAttrs self blocked n
    ↔ (p ≠ [] ∨ self = true)
      ∧ attr it ∈ translatable_attributes
      ∧ ∃ tag v,
          tag_at n p = Some tag
          ∧ matches_selector tag = true
          ∧ closest_at blocked n p = false
          ∧ getAttribute_at n p (attr it) = Some v
          ∧ trim v ≠ [] ∧ val it = trim v.
Proof.
  induction p as [|i p IH]; intros it self blocked [x|tag attrs kids|] Hel;
    cbn [walkAttrs tag_at closest_at getAttribute_at];
    try (split; [by intros ?%elem_of_nil
                |by intros (_ & _ & ? & ? & [=] & _)]).
  - rewrite elem_of_app, elem_of_children_with. split.
    + intros [Hit|(j & k & y & _ & _ & ->)]; [|done].
      destruct self; cbn in Hit; [|by apply elem_of_nil in Hit].
      destruct (matches_selector tag) eqn:Hm; cbn in Hit;
        [|by apply elem_of_nil in Hit].
      destruct (blocked || no_translate attrs) eqn:Hb; cbn in Hit;
        [by apply elem_of_nil in Hit|].
      apply attr_items_spec in Hit as (_ & Ha & v & Hv & Htrim & Hval).
      split; [by right|]. split; [done|]. exists tag, v. done.
    + intros ([?| ->] & Ha & tag' & v & [= <-] & -> & -> & Hv & Htrim & Hval);
        [done|].
      left. cbn. apply attr_items_spec. eauto 6.
  - rewrite elem_of_app, elem_of_children_with. split.
    + intros [Hit|(j & k & y & Hj & Hy & ->)].
      { destruct (_ && _); [|by apply elem_of_nil in Hit].
        apply attr_items_el in Hit. congruence. }
      cbn in Hel. injection Hel as -> Hel. rewrite Hj.
      apply (IH y true _ k Hel) in Hy as (_ & Ha & Hrest).
      split; [by left|]. done.
    + intros (_ & Ha & tag' & v & Htag & Hrest). right.
      destruct (kids !! i) as [k|] eqn:Hi; [|done].
      exists i, k, (mkAttrItem p (attr it) (val it)).
      split; [done|]. split.
      * apply (IH (mkAttrItem p (attr it) (val it)) true _ k eq_refl).
        split; [by right|].
        split; [done|]. exists tag', v. done.
      * unfold shift_item. destruct it; cbn in *. by subst.
Qed.



(** No two items collected are for the same attribute of the same
    element. *)
Lemma attr_items_keys_NoDup p attrs :
  NoDup ((λ it, (el it, attr it)) <$> attr_items p attrs).
Proof.
  unfold attr_items. cbn [flat_map].
  repeat match goal with
         | |- context [getAttribute attrs ?a] =>
             destruct (getAttribute attrs a)
         end;
    repeat match goal with
           | |- context [negb (bool_decide ?P) && _] =>
               destruct (negb (bool_decide P) && _)
           end;
    cbn; repeat constructor; rewrite ?elem_of_cons, ?elem_of_nil;
    intros Hk; decompose [or] Hk; try done;
    match goal with
    | Heq : (_, _) = (_, _) |- _ => injection Heq as Heq; by vm_compute in Heq
    end.
Qed.

Lemma NoDup_children_with_keys (visit : Node → list AttrItem)
    (ks : list Node) :
  Forall (λ k, NoDup ((λ it, (el it, attr it)) <$> visit k)) ks →
  ∀ i, NoDup ((λ it, (el it, attr it))
              <$> children_with visit shift_item i ks).
Proof.
  induction 1 as [|k ks Hk _ IH]; intros i; cbn; [constructor|].
  rewrite fmap_app. apply NoDup_app. split; [|split].
  - rewrite <- list_fmap_compose.
    assert (Hinj : Inj (=) (=) (λ pa : path * jsstring, (i :: pa.1, pa.2))).
    { intros [p a] [q b] [= -> ->]. done. }
    pose proof (NoDup_fmap_2 _ _ Hk) as Hnd.
    rewrite <- list_fmap_compose in Hnd. exact Hnd.
  - intros x Hx Hx'.
    apply list_elem_of_fmap in Hx as (y & -> & Hy).
    apply list_elem_of_fmap in Hy as (z & -> & _).
    apply list_elem_of_fmap in Hx' as (y' & Heq & Hy').
    apply elem_of_children_with in Hy' as (j & k' & z' & _ & _ & ->).
    cbn in Heq. injection Heq as Hij _ _. lia.
  - apply IH.
Qed.

Lemma walkAttrs_keys_NoDup n :
  ∀ self blocked,
    NoDup ((λ it, (el it, attr it)) <$> walkAttrs self blocked n).
Proof.
  induction n as [v| |tag attrs kids IH] using Node_ind_kids;
    intros self blocked; try constructor.
  cbn [walkAttrs]. rewrite fmap_app. apply NoDup_app. split; [|split].
  - destruct (_ && _); [apply attr_items_keys_NoDup|constructor].
  - intros x Hx Hx'.
    apply list_elem_of_fmap in Hx as (y & -> & Hy).
    destruct (_ && _); [|by apply elem_of_nil in Hy].
    apply attr_items_el in Hy.
    apply list_elem_of_fmap in Hx' as (y' & Heq & Hy').
    apply elem_of_children_with in Hy' as (j & k' & z' & _ & _ & ->).
    cbn in Heq. congruence.
  - apply NoDup_children_with_keys.
    eapply Forall_impl; [exact IH|]. intros k Hk. apply Hk.
Qed.

(** X15.  [collectTranslatableAttributes] yields one item, and only one,
    for each [placeholder], [title] and [aria-label] attribute that holds
    more than white space, on an [input], [textarea], [button] or [a]
    element below the root that has no [data-no-translate="true"] on it or
    above it; the item carries the trimmed value. *)
Theorem collectTranslatableAttributes_finds_attributes (d : Document)
    (root : Node) :
  NoDup ((λ it, (el it, attr it)) <$> collectTranslatableAttributes d root)
  ∧ ∀ it,
      it ∈ collectTranslatableAttributes d root
      ↔ el it ≠ []
        ∧ attr it ∈ [js "placeholder"; js "title"; js "aria-label"]
        ∧ ∃ tag v,
            tag_at root (el it) = Some tag
            ∧ tag ∈ [js "INPUT"; js "TEXTAREA"; js "BUTTON"; js "A"]
            ∧ closest_at (no_translate (html_attributes d)) root (el it)
              = false
            ∧ getAttribute_at root (el it) (attr it) = Some v
            ∧ trim v ≠ []
            ∧ val it = trim v.
Proof.
  split; [apply walkAttrs_keys_NoDup|]. intros it.
  unfold collectTranslatableAttributes.
  rewrite (walkAttrs_spec (el it) it false _ root eq_refl).
  split.
  - intros ([?|[=]] & Ha & tag & v & Htag & Hm & Hrest).
    split; [done|]. split; [done|]. exists tag, v.
    split; [done|]. split; [|done].
    unfold matches_selector in Hm. by apply bool_decide_eq_true in Hm.
  - intros (Hne & Ha & tag & v & Htag & Hm & Hrest).
    split; [by left|]. split; [done|]. exists tag, v.
    split; [done|]. split; [|done].
    unfold matches_selector. by apply bool_decide_eq_true.
Qed.

End CollectFacts.

(** ** More properties of the language layer *)

Module LanguageMoreFacts.
Import JS Language LanguageSpec DomSpec DomFacts LanguageFacts CollectFacts.
Import LanguageUI.

(** The names under which [LANGS] holds something truthy are not empty and
    have no white space at either end. *)
Lemma truthy_key_trimmed l :
  truthy (obj_get LANGS l) = true → l ≠ [] ∧ trim l = l.
Proof.
  intros Hl. apply truthy_obj_get in Hl as [Hl|Hl];
    apply list_elem_of_In in Hl; cbn in Hl;
    repeat (destruct Hl as [<-|Hl]; [split; by vm_compute|]); done.
Qed.

Lemma normalize_truthy lang : truthy (obj_get LANGS (normalize lang)) = true.
Proof.
  unfold normalize. destruct (truthy (obj_get LANGS lang)) eqn:Hl; cbn; done.
Qed.

Lemma getLang_stored (s : Page) (l : jsstring) :
  localStorage s !! STORAGE_KEY = Some l →
  truthy (obj_get LANGS l) = true → getLang s = l.
Proof.
  intros Hs Hl. destruct (truthy_key_trimmed l Hl) as [Hne Htrim].
  unfold getLang. rewrite Hs, bool_decide_false by done.
  by rewrite Htrim, Hl.
Qed.

Lemma getLang_ext (s s' : Page) :
  localStorage s' !! STORAGE_KEY = localStorage s !! STORAGE_KEY →
  getLang s' = getLang s.
Proof. unfold getLang. by intros ->. Qed.

Lemma getLang_truthy (s : Page) : truthy (obj_get LANGS (getLang s)) = true.
Proof.
  unfold getLang.
  match goal with
  | |- context [if truthy ?v then _ else _] => destruct (truthy v) eqn:Hv
  end; done.
Qed.


(** *** Appending the options of a select *)











Section WithHost.
Context `{Host}.
Variable server : list Request → Request → Response.

(** X12.  What [setLang] stores is what [getLang] then returns: the code given,
    or ["en"] when [LANGS] holds nothing truthy under it.  When the storage
    refuses the write, [setLang] throws and the page is as before.  What
    [getLang] returns is a code that [applyLanguage] keeps as it is. *)
Theorem stored_language_is_read_back (lang : jsstring) (s : Page) :
  match setLang lang s with
  | Ret _ s' =>
      getLang s' = normalize lang
      ∧ localStorage s' = <[STORAGE_KEY := normalize lang]> (localStorage s)
  | Throw e s' => e = QuotaExceeded ∧ s' = s
  end
  ∧ normalize (getLang s) = getLang s.
Proof.
  split.
  - unfold setLang, setItem. fold (normalize lang).
    destruct (storage_accepts _ _ _); [|done].
    split; [|done]. apply getLang_stored; [|apply normalize_truthy].
    cbn. apply lookup_insert_eq.
  - unfold normalize. by rewrite getLang_truthy.
Qed.

(** *** What a call leaves of the page *)

Lemma saveCache_storage cache s k :
  k ≠ CACHE_KEY →
  localStorage (saveCache cache s) !! k = localStorage s !! k.
Proof.
  intros Hk. unfold saveCache. cbn.
  destruct (storage_accepts _ _ _); [|done].
  by rewrite lookup_insert_ne.
Qed.

Lemma chunkLoop_effects fuel lang missing :
  ∀ i cache s,
    (∀ k, k ≠ CACHE_KEY →
          localStorage (page_of (chunkLoop server fuel lang missing i cache s))
          !! k = localStorage s !! k)
    ∧ match chunkLoop server fuel lang missing i cache s with
      | Ret (Some _) s' => console s' = console s
      | Ret None s' => ∃ e, console s' = console s ++ [e]
      | Throw e s' => console s' = console s
      end.
Proof.
  induction fuel as [|fuel IH]; intros i cache s; [done|].
  cbn [chunkLoop]. case_bool_decide; [|done]. unfold bind.
  destruct (translateChunk_cases server lang (slice_at missing i) cache s)
    as [(e & _ & ->)|[(tr & cache' & _ & _ & ->)|(tr & e & _ & _ & ->)]].
  - split; [done|]. by exists e.
  - destruct (IH (i + CHUNK) cache'
                (saveCache cache' (logged lang (slice_at missing i) s)))
      as [Hst Hc].
    split.
    + intros k Hk. rewrite Hst by done. by rewrite saveCache_storage.
    + destruct (chunkLoop _ _ _ _ _ _ _) as [[c'|] s'|e' s'];
        by rewrite saveCache_console in Hc.
  - destruct (is_unsupported e); [done|]. split; [done|]. by exists e.
Qed.

(** The three ways a call goes: no body; English; another language, where
    the page [s2] reached when the requests are done has the document of
    before the call, and is either the page left (always so when a warning
    was logged) or the page the translations are applied to. *)
Lemma applyLanguage_cases (lang : jsstring) (s : Page) :
  let nl := normalize lang in
  let s1 := set_languageSelects (syncSelects nl (languageSelects s)) s in
  let r := applyLanguage server lang s in
  (body (document s) = None ∧ r = Ret tt s1)
  ∨ (∃ root, body (document s) = Some root ∧ nl = js "en"
             ∧ r = Ret tt (restoreEnglish root s1))
  ∨ (∃ root s2,
       body (document s) = Some root ∧ nl ≠ js "en"
       ∧ document s2 = document s
       ∧ languageSelects s2 = languageSelects s1
       ∧ (∀ k, k ≠ CACHE_KEY → localStorage s2 !! k = localStorage s !! k)
       ∧ ((page_of r = s2
           ∧ (console s2 = console s
              ∨ ∃ e, console s2 = console s ++ [e] ∧ r = Ret tt s2))
          ∨ (∃ cache',
               console s2 = console s
               ∧ originalTextByNode s2
                 = (captureNodeTexts root (collectTextNodes (document s) root)
                      (originalTextByNode s)).1
               ∧ r = applyTranslations cache' nl
                       (collectTextNodes (document s) root)
                       (collectTranslatableAttributes (document s) root)
                       s2))).
Proof.
  intros nl s1 r. subst r. rewrite applyLanguage_unfold. cbv zeta.
  fold nl. fold s1.
  destruct (body (document s)) as [root|] eqn:Hbody; [|by left].
  right. case_bool_decide as Hen; [left; by exists root|].
  right. exists root. unfold translatePage.
  destruct (openCache nl s1) as [e|cache].
  { exists s1. do 5 (split; [done|]). left. split; [done|by left]. }
  set (c := captureOriginals root s1).
  destruct (captureOriginals_frame root s1) as (_ & Hcc & Hcs & Hcl & Hcd).
  fold c in Hcc, Hcs, Hcl, Hcd.
  destruct (filterMissing cache nl c.2.2) as [e|missing].
  { exists c.1. do 4 (split; [done|]).
    split; [intros k _; by rewrite Hcs|].
    left. split; [done|]. left. by rewrite Hcc. }
  unfold bind.
  destruct (chunkLoop_spec server (length missing) nl missing 0 cache c.1)
    as (n & _ & (Hd & Hsel & Ht & _) & _).
  destruct (chunkLoop_effects (length missing) nl missing 0 cache c.1)
    as [Hst Hcons].
  destruct (chunkLoop server (length missing) nl missing 0 cache c.1)
    as [[cache'|] s'|e s'] eqn:Hloop; cbn [page_of] in Hd, Hsel, Ht, Hst.
  - exists s'. split; [done|]. split; [done|].
    split; [by rewrite Hd, Hcd|]. split; [by rewrite Hsel, Hcl|].
    split; [intros k Hk; by rewrite Hst, Hcs|].
    right. exists cache'. split; [by rewrite Hcons, Hcc|].
    split; [by rewrite Ht|done].
  - exists s'. split; [done|]. split; [done|].
    split; [by rewrite Hd, Hcd|]. split; [by rewrite Hsel, Hcl|].
    split; [intros k Hk; by rewrite Hst, Hcs|].
    left. split; [done|]. right. destruct Hcons as [e He].
    exists e. by rewrite He, Hcc.
  - exists s'. split; [done|]. split; [done|].
    split; [by rewrite Hd, Hcd|]. split; [by rewrite Hsel, Hcl|].
    split; [intros k Hk; by rewrite Hst, Hcs|].
    left. split; [done|]. left. by rewrite Hcons, Hcc.
Qed.

(** X19.  A call logs at most one warning, and when it logs one it returns
    normally and leaves the document as it was. *)
Theorem a_call_warns_at_most_once (lang : jsstring) (s : Page) :
  let s' := page_of (applyLanguage server lang s) in
  console s' = console s
  ∨ ∃ e, console s' = console s ++ [e]
         ∧ applyLanguage server lang s = Ret tt s'
         ∧ document s' = document s.
Proof.
  cbv zeta.
  destruct (applyLanguage_cases lang s)
    as [[_ ->]|[(root & _ & _ & ->)
       |(root & s2 & _ & _ & Hd & _ & _
         & [[Hp [Hc|(e & Hc & Hr)]]|(cache' & Hc & _ & ->)])]].
  - by left.
  - by left.
  - left. by rewrite Hp.
  - right. exists e. rewrite Hr. cbn. by rewrite Hc, Hd.
  - left.
    destruct (applyTranslations_frame cache' (normalize lang)
                (collectTextNodes (document s) root)
                (collectTranslatableAttributes (document s) root) s2)
      as (_ & Hc' & _).
    by rewrite Hc', Hc.
Qed.

Lemma applyLanguage_frame (lang : jsstring) (s : Page) :
  (∀ k, k ≠ CACHE_KEY →
        localStorage (page_of (applyLanguage server lang s)) !! k
        = localStorage s !! k)
  ∧ languageSelects (page_of (applyLanguage server lang s))
    = syncSelects (normalize lang) (languageSelects s).
Proof.
  destruct (applyLanguage_cases lang s)
    as [[_ ->]|[(root & _ & _ & ->)
       |(root & s2 & _ & _ & _ & Hsel & Hst
         & [[-> _]|(cache' & _ & _ & ->)])]]; try done.
  destruct (applyTranslations_frame cache' (normalize lang)
              (collectTextNodes (document s) root)
              (collectTranslatableAttributes (document s) root) s2)
    as (_ & _ & Hst' & Hsel' & _).
  rewrite Hst', Hsel'. done.
Qed.

Lemma applyLanguage_getLang (lang : jsstring) (s : Page) :
  getLang (page_of (applyLanguage server lang s)) = getLang s.
Proof.
  apply getLang_ext. destruct (applyLanguage_frame lang s) as [Hst _].
  apply Hst. by vm_compute.
Qed.

Lemma syncSelects_lookup lang sels i sel :
  sels !! i = Some sel →
  ∃ sel', syncSelects lang sels !! i = Some sel'
          ∧ options sel' = options sel
          ∧ (value_of sel' = lang
             ∨ (value_of sel' = [] ∧ lang ∉ options sel)).
Proof.
  intros Hi. unfold syncSelects.
  rewrite list_lookup_fmap, Hi. cbn. eexists. split; [done|].
  repeat case_bool_decide; cbn; split; try done; try (by left);
    try (by right); left; by apply dec_stable.
Qed.

(** X20.  A call writes nothing to [localStorage] but the translation cache, so
    the stored language is as before; and it leaves every select showing
    the language applied, or nothing when the select has no such option. *)
Theorem a_call_keeps_the_stored_language (lang : jsstring) (s : Page) :
  let s' := page_of (applyLanguage server lang s) in
  (∀ k, k ≠ CACHE_KEY → localStorage s' !! k = localStorage s !! k)
  ∧ getLang s' = getLang s
  ∧ (∀ i sel, languageSelects s !! i = Some sel →
       ∃ sel', languageSelects s' !! i = Some sel'
               ∧ options sel' = options sel
               ∧ (value_of sel' = normalize lang
                  ∨ (value_of sel' = []
                     ∧ normalize lang ∉ options sel))).
Proof.
  cbv zeta. destruct (applyLanguage_frame lang s) as [Hst Hsel].
  split; [exact Hst|]. split; [apply applyLanguage_getLang|].
  intros i sel Hi. rewrite Hsel. by apply syncSelects_lookup.
Qed.

(** *** Text and attributes a call does not touch *)

Lemma restoreTextNodes_not_in originals nodes root p :
  p ∉ nodes →
  nodeValue_at (restoreTextNodes originals nodes root) p
  = nodeValue_at root p.
Proof.
  unfold restoreTextNodes. revert root.
  induction nodes as [|n nodes IH]; intros root Hp; [done|].
  apply not_elem_of_cons in Hp as [Hne Hp].
  cbn [foldl]. rewrite IH by done.
  destruct (originals !! n) as [[o|]|]; try done.
  by apply nodeValue_at_set_other.
Qed.

Lemma uncollected_text_unchanged (lang : jsstring) (s : Page) (root : Node)
    (p : path) :
  body (document s) = Some root →
  p ∉ collectTextNodes (document s) root →
  text_in (page_of (applyLanguage server lang s)) p = text_in s p.
Proof.
  intros Hbody Hp.
  assert (Hs : text_in s p = nodeValue_at root p).
  { unfold text_in. by rewrite Hbody. }
  destruct (applyLanguage_cases lang s)
    as [[_ ->]|[(root' & Hb & _ & ->)
       |(root' & s2 & Hb & _ & Hd & _ & _
         & [[-> _]|(cache' & _ & _ & ->)])]].
  - by apply text_in_ext.
  - rewrite Hbody in Hb. injection Hb as <-. rewrite Hs.
    cbn [page_of]. unfold text_in, restoreEnglish.
    cbn [document set_body set_document body mbind option_bind].
    rewrite restoreAttributes_nodeValue.
    by apply restoreTextNodes_not_in.
  - by apply text_in_ext.
  - rewrite Hbody in Hb. injection Hb as <-. rewrite Hs.
    apply applyTranslations_text; [by rewrite Hd|done].
Qed.

(** X21.  A call changes no text node that [collectTextNodes] does not find on
    the page it starts from. *)
Theorem only_collected_text_changes (lang : jsstring) (s : Page)
    (root : Node) (p : path) :
  body (document s) = Some root →
  p ∉ collectTextNodes (document s) root →
  text_in (page_of (applyLanguage server lang s)) p = text_in s p.
Proof. apply uncollected_text_unchanged. Qed.

(** X22.  A call never changes a text that has an element marked
    [data-no-translate="true"] above it, nor the text of a [script],
    [style] or [noscript] element. *)
Theorem protected_text_is_kept (lang : jsstring) (s : Page) (root : Node)
    (p : path) :
  body (document s) = Some root →
  closest_at (no_translate (html_attributes (document s))) root p = true
  ∨ parent_tag_at (js "HTML") root p
    ∈ [js "SCRIPT"; js "STYLE"; js "NOSCRIPT"] →
  text_in (page_of (applyLanguage server lang s)) p = text_in s p.
Proof.
  intros Hbody Hprot. apply (uncollected_text_unchanged _ _ root); [done|].
  intros Hp. apply walkText_spec in Hp as (text & _ & _ & Hc & _ & Ht).
  destruct Hprot as [Hprot|Hprot]; [congruence|done].
Qed.

Lemma getAttribute_at_set_nodeValue p q v a root :
  getAttribute_at (set_nodeValue q v root) p a = getAttribute_at root p a.
Proof.
  revert p root. induction q as [|i q IH]; intros p [x|tag attrs kids|];
    cbn; try done.
  - by destruct p.
  - destruct p as [|j p]; [done|]. cbn.
    destruct (decide (i = j)) as [->|Hij].
    + rewrite list_lookup_alter_eq.
      destruct (kids !! j) as [k|]; cbn; [apply IH|done].
    + by rewrite list_lookup_alter_ne.
Qed.

Lemma restoreTextNodes_getAttribute originals nodes root p a :
  getAttribute_at (restoreTextNodes originals nodes root) p a
  = getAttribute_at root p a.
Proof.
  unfold restoreTextNodes. revert root.
  induction nodes as [|n nodes IH]; intros root; [done|].
  cbn [foldl]. rewrite IH.
  destruct (originals !! n) as [[o|]|]; try done.
  apply getAttribute_at_set_nodeValue.
Qed.

Lemma applyNodes_getAttribute originals cache lang nodes root p a :
  getAttribute_at (applyNodes originals cache lang nodes root).1 p a
  = getAttribute_at root p a.
Proof.
  revert root. induction nodes as [|n nodes IH]; intros root; [done|].
  cbn [applyNodes]. case_bool_decide; [apply IH|].
  destruct (cache_lookup cache lang _) as [e|v]; [done|].
  rewrite IH. apply getAttribute_at_set_nodeValue.
Qed.

Lemma restoreAttributes_other originals attrItems root p a :
  (∀ it, it ∈ attrItems → (el it, attr it) ≠ (p, a)) →
  getAttribute_at (restoreAttributes originals attrItems root) p a
  = getAttribute_at root p a.
Proof.
  unfold restoreAttributes. revert root.
  induction attrItems as [|it items IH]; intros root Hne; [done|].
  cbn [foldl]. rewrite IH by (intros it' Hit'; apply Hne; by right).
  destruct (originals !! el it) as [o|]; [|done].
  destruct (obj_get o (attr it)); try done.
  apply getAttribute_at_set_other, Hne. by left.
Qed.

Lemma applyAttrs_other cache lang attrItems root p a :
  (∀ it, it ∈ attrItems → (el it, attr it) ≠ (p, a)) →
  getAttribute_at (applyAttrs cache lang attrItems root).1 p a
  = getAttribute_at root p a.
Proof.
  revert root. induction attrItems as [|it items IH]; intros root Hne;
    [done|].
  cbn [applyAttrs]. destruct (cache_lookup cache lang _) as [e|v]; [done|].
  rewrite IH by (intros it' Hit'; apply Hne; by right).
  apply getAttribute_at_set_other, Hne. by left.
Qed.

Lemma applyTranslations_attribute cache lang nodes attrItems s root p a :
  body (document s) = Some root →
  (∀ it, it ∈ attrItems → (el it, attr it) ≠ (p, a)) →
  attribute_in (page_of (applyTranslations cache lang nodes attrItems s)) p a
  = getAttribute_at root p a.
Proof.
  intros Hbody Hne. unfold applyTranslations. rewrite Hbody.
  pose proof (applyNodes_getAttribute (originalTextByNode s) cache lang nodes
                root p a) as Hn.
  destruct (applyNodes _ _ _ _ _) as [root1 [e|]]; cbn in Hn |- *; [done|].
  pose proof (applyAttrs_other cache lang attrItems root1 p a Hne) as Ha.
  destruct (applyAttrs _ _ _ _) as [root2 [e|]]; cbn in Ha |- *; congruence.
Qed.

Lemma attribute_in_ext s s' p a :
  document s' = document s → attribute_in s' p a = attribute_in s p a.
Proof. unfold attribute_in. by intros ->. Qed.

Lemma uncollected_attribute_unchanged (lang : jsstring) (s : Page)
    (root : Node) (p : path) (a : jsstring) :
  body (document s) = Some root →
  (∀ it, it ∈ collectTranslatableAttributes (document s) root →
         (el it, attr it) ≠ (p, a)) →
  attribute_in (page_of (applyLanguage server lang s)) p a
  = attribute_in s p a.
Proof.
  intros Hbody Hne.
  assert (Hs : attribute_in s p a = getAttribute_at root p a).
  { unfold attribute_in. by rewrite Hbody. }
  destruct (applyLanguage_cases lang s)
    as [[_ ->]|[(root' & Hb & _ & ->)
       |(root' & s2 & Hb & _ & Hd & _ & _
         & [[-> _]|(cache' & _ & _ & ->)])]].
  - by apply attribute_in_ext.
  - rewrite Hbody in Hb. injection Hb as <-. rewrite Hs.
    cbn [page_of]. unfold attribute_in, restoreEnglish.
    cbn [document set_body set_document body mbind option_bind].
    rewrite restoreAttributes_other.
    + apply restoreTextNodes_getAttribute.
    + unfold collectTranslatableAttributes.
      rewrite restoreTextNodes_attrs. exact Hne.
  - by apply attribute_in_ext.
  - rewrite Hbody in Hb. injection Hb as <-. rewrite Hs.
    apply applyTranslations_attribute; [by rewrite Hd|done].
Qed.

(** X23.  A call changes no attribute other than [placeholder], [title] and
    [aria-label], and changes these only on [input], [textarea], [button]
    and [a] elements below the body that have no
    [data-no-translate="true"] on them or above them. *)
Theorem other_attributes_are_kept (lang : jsstring) (s : Page)
    (root : Node) (p : path) (a : jsstring) :
  body (document s) = Some root →
  a ∉ [js "placeholder"; js "title"; js "aria-label"]
  ∨ p = []
  ∨ closest_at (no_translate (html_attributes (document s))) root p = true
  ∨ (∃ tag, tag_at root p = Some tag
            ∧ tag ∉ [js "INPUT"; js "TEXTAREA"; js "BUTTON"; js "A"]) →
  attribute_in (page_of (applyLanguage server lang s)) p a
  = attribute_in s p a.
Proof.
  intros Hbody Hprot.
  apply (uncollected_attribute_unchanged _ _ root); [done|].
  intros it Hit [= Hel Hattr].
  apply (walkAttrs_spec _ _ _ _ _ eq_refl) in Hit
    as ([Hne|[=]] & Ha & tag & v & Htag & Hm & Hc & _).
  rewrite Hel in Hne, Htag, Hc. rewrite Hattr in Ha.
  destruct Hprot as [Hprot|[Hprot|[Hprot|(tag' & Htag' & Hprot)]]];
    [done|done|congruence|].
  rewrite Htag in Htag'. injection Htag' as <-.
  unfold matches_selector in Hm. by apply bool_decide_eq_true in Hm.
Qed.

(** *** English, and the requests of the other languages *)

(** X24.  A call in English (or in a code that [LANGS] does not know) is local:
    it returns normally, sends nothing, logs nothing, and leaves
    [localStorage] and the remembered originals as they are. *)
Theorem english_call_is_local (lang : jsstring) (s : Page) :
  normalize lang = js "en" →
  let s' := page_of (applyLanguage server lang s) in
  applyLanguage server lang s = Ret tt s'
  ∧ requests s' = requests s
  ∧ console s' = console s
  ∧ localStorage s' = localStorage s
  ∧ originalTextByNode s' = originalTextByNode s
  ∧ originalAttrsByEl s' = originalAttrsByEl s.
Proof.
  intros Hen. cbv zeta. rewrite applyLanguage_unfold. cbv zeta.
  rewrite Hen. by destruct (body (document s)).
Qed.

Lemma Set_add_elem seen t x : x ∈ Set_add seen t ↔ x ∈ seen ∨ x = t.
Proof.
  unfold Set_add. case_bool_decide as Ht.
  - split; [by left|]. by intros [?| ->].
  - by rewrite elem_of_app, list_elem_of_singleton.
Qed.

Lemma Array_from_Set_elem l x : x ∈ Array_from_Set l ↔ x ∈ l.
Proof.
  unfold Array_from_Set.
  assert (∀ acc, x ∈ foldl Set_add acc l ↔ x ∈ acc ∨ x ∈ l) as Hgen.
  { induction l as [|t l IH]; intros acc; cbn.
    - split; [by left|]. by intros [?|?%elem_of_nil].
    - rewrite IH, Set_add_elem, elem_of_cons. tauto. }
  rewrite Hgen. split; [by intros [?%elem_of_nil|?]|by right].
Qed.

Lemma captureNodeTexts_snd root nodes m :
  (captureNodeTexts root nodes m).2
  = (λ n, trim (default [] (nodeValue_at root n))) <$> nodes.
Proof.
  unfold captureNodeTexts.
  assert (∀ acc, (foldl (captureNodeText root) acc nodes).2
                 = acc.2 ++ ((λ n, trim (default [] (nodeValue_at root n)))
                             <$> nodes)) as Hgen.
  { induction nodes as [|n nodes IH]; intros acc; cbn [foldl fmap list_fmap].
    - by rewrite app_nil_r.
    - rewrite IH. cbn. by rewrite <- app_assoc. }
  by rewrite Hgen.
Qed.

Lemma captureAttrTexts_snd attrItems m :
  (captureAttrTexts attrItems m).2 = val <$> attrItems.
Proof.
  unfold captureAttrTexts.
  assert (∀ acc, (foldl captureAttrText acc attrItems).2
                 = acc.2 ++ (val <$> attrItems)) as Hgen.
  { induction attrItems as [|it items IH]; intros acc;
      cbn [foldl fmap list_fmap].
    - by rewrite app_nil_r.
    - rewrite IH. cbn. by rewrite <- app_assoc. }
  by rewrite Hgen.
Qed.

Lemma chunk_requests_lang lang missing n :
  ∀ i r, r ∈ chunk_requests lang missing i n → req_lang r = lang.
Proof.
  induction n as [|n IH]; intros i r Hr; cbn in Hr.
  - by apply elem_of_nil in Hr.
  - apply elem_of_cons in Hr as [->|Hr]; [done|]. by eapply IH.
Qed.

Lemma missingTexts_from_page lang root s missing t :
  missingTexts lang root s = inr missing → t ∈ missing →
  t ≠ []
  ∧ ((∃ p text, p ∈ collectTextNodes (document s) root
                ∧ nodeValue_at root p = Some text ∧ t = trim text)
     ∨ (∃ it, it ∈ collectTranslatableAttributes (document s) root
              ∧ t = val it)).
Proof.
  unfold missingTexts. destruct (openCache lang s) as [e|cache]; [done|].
  intros Hm Ht.
  destruct (filterMissing_spec _ _ _ _ Hm t Ht) as [Hu _].
  unfold captureOriginals in Hu. cbn [fst snd] in Hu. unfold uniqueTexts in Hu.
  apply Array_from_Set_elem, list_elem_of_filter in Hu as [Hne Hu].
  split; [done|].
  rewrite captureNodeTexts_snd, captureAttrTexts_snd in Hu.
  apply elem_of_app in Hu as [Hu|Hu];
    apply list_elem_of_fmap in Hu as (x & -> & Hx).
  - left. destruct (walkText_text _ _ _ _ Hx) as [text Htext].
    exists x, text. by rewrite Htext.
  - right. by exists x.
Qed.

(** X18.  The requests of a call carry the language applied; over the whole call
    no string is sent twice, and every string sent is not empty and is the
    trimmed text of a collected text node or the value of a collected
    attribute item of the page. *)
Theorem requested_strings_come_from_the_page (lang : jsstring) (s : Page) :
  let s' := page_of (applyLanguage server lang s) in
  NoDup (concat (req_texts <$> new_requests s s'))
  ∧ ∀ r t,
      r ∈ new_requests s s' → t ∈ req_texts r →
      req_lang r = normalize lang
      ∧ t ≠ []
      ∧ ∃ root,
          body (document s) = Some root
          ∧ ((∃ p text, p ∈ collectTextNodes (document s) root
                        ∧ nodeValue_at root p = Some text ∧ t = trim text)
             ∨ (∃ it, it ∈ collectTranslatableAttributes (document s) root
                      ∧ t = val it)).
Proof.
  cbv zeta.
  destruct (applyLanguage_requests server lang s)
    as [Hnone|(root & missing & Hbody & Hen & Hmiss)].
  { cbv zeta in Hnone. rewrite Hnone. split; [constructor|]. by intros r t ?%elem_of_nil. }
  destruct (applyLanguage_requests_some server lang s root missing
              Hbody Hen Hmiss) as (n & Hreq & _).
  rewrite Hreq. split.
  - rewrite chunk_requests_concat.
    eapply sublist_NoDup; [by eapply missingTexts_NoDup|].
    etrans; [apply sublist_take|apply sublist_drop].
  - intros r t Hr Ht.
    split; [by eapply chunk_requests_lang|].
    pose proof (chunk_requests_texts _ _ _ _ _ _ Hr Ht) as Hin.
    destruct (missingTexts_from_page _ _ _ _ _ Hmiss Hin) as [Hne Hfrom].
    split; [done|]. by exists root.
Qed.

(** *** What a translation shows *)

Lemma applyNodes_plain originals cprops lang props nodes :
  own_get cprops lang = Some (VObj props) →
  NoDup nodes →
  ∀ root,
    (∀ p, p ∈ nodes → is_Some (nodeValue_at root p)) →
    (applyNodes originals (VObj cprops) lang nodes root).2 = None
    ∧ ∀ p, p ∈ nodes →
        nodeValue_at (applyNodes originals (VObj cprops) lang nodes root).1 p
        = let orig := first_nonempty (mjoin (originals !! p))
                                     (nodeValue_at root p) in
          if bool_decide (trim orig = []) then nodeValue_at root p
          else Some (ToString (or_else (obj_get props (trim orig))
                                       (VStr orig))).
Proof.
  intros Hentry. induction 1 as [|n nodes Hn Hnd IH]; intros root Htext.
  { split; [done|]. by intros p ?%elem_of_nil. }
  cbn [applyNodes]. cbv zeta.
  assert (Hrest : ∀ root',
            (∀ p, nodeValue_at root' p = nodeValue_at root p ∨ p = n) →
            (∀ p, p ∈ nodes → is_Some (nodeValue_at root' p))
            ∧ ∀ p, p ∈ nodes → nodeValue_at root' p = nodeValue_at root p).
  { intros root' Hsame.
    assert (∀ p, p ∈ nodes → nodeValue_at root' p = nodeValue_at root p)
      as Heq.
    { intros p Hp. destruct (Hsame p) as [?| ->]; done. }
    split; [|done]. intros p Hp. rewrite Heq by done.
    apply Htext. by right. }
  case_bool_decide as Hkey.
  - destruct (IH root) as [Hnone Hval].
    { intros p Hp. apply Htext. by right. }
    split; [done|]. intros p [->|Hp]%elem_of_cons.
    + rewrite applyNodes_other by done. by rewrite bool_decide_true.
    + by apply Hval.
  - rewrite (cache_lookup_plain _ _ props) by done.
    set (x := ToString _).
    destruct (Hrest (set_nodeValue n x root)) as [Htext' Heq].
    { intros p. destruct (decide (p = n)) as [->|Hne]; [by right|].
      left. by apply nodeValue_at_set_other. }
    destruct (IH (set_nodeValue n x root) Htext') as [Hnone Hval].
    split; [done|]. intros p [->|Hp]%elem_of_cons.
    + rewrite applyNodes_other by done.
      rewrite nodeValue_at_set_same by (apply Htext; by left).
      by rewrite bool_decide_false.
    + rewrite Hval by done. by rewrite Heq.
Qed.

Lemma applyNodes_element originals cache lang nodes root p :
  is_element_at (applyNodes originals cache lang nodes root).1 p
  = is_element_at root p.
Proof.
  revert root. induction nodes as [|n nodes IH]; intros root; [done|].
  cbn [applyNodes]. case_bool_decide; [apply IH|].
  destruct (cache_lookup cache lang _) as [e|v]; [done|].
  rewrite IH. apply is_element_at_set_nodeValue.
Qed.

Lemma applyAttrs_plain cprops lang props attrItems :
  own_get cprops lang = Some (VObj props) →
  NoDup ((λ it, (el it, attr it)) <$> attrItems) →
  ∀ root,
    (∀ it, it ∈ attrItems → is_element_at root (el it) = true) →
    (applyAttrs (VObj cprops) lang attrItems root).2 = None
    ∧ ∀ it, it ∈ attrItems →
        getAttribute_at (applyAttrs (VObj cprops) lang attrItems root).1
                        (el it) (attr it)
        = Some (ToString (or_else (obj_get props (val it))
                                  (VStr (val it)))).
Proof.
  intros Hentry. induction attrItems as [|it0 items IH]; intros Hnd root Hel.
  { split; [done|]. by intros it ?%elem_of_nil. }
  cbn [fmap list_fmap] in Hnd. apply NoDup_cons in Hnd as [Hit0 Hnd].
  cbn [applyAttrs]. rewrite (cache_lookup_plain _ _ props) by done.
  set (x := ToString _).
  destruct (IH Hnd (setAttribute_at (el it0) (attr it0) x root))
    as [Hnone Hval].
  { intros it Hit. rewrite is_element_at_setAttribute. apply Hel. by right. }
  split; [done|]. intros it [->|Hit]%elem_of_cons.
  - rewrite applyAttrs_other.
    + apply getAttribute_at_set_same, Hel. by left.
    + intros it' Hit' Heq. apply Hit0.
      apply list_elem_of_fmap. by exists it'.
  - by apply Hval.
Qed.

(** The original a call works from, for a text node: the one remembered
    before the call when it is a non-empty string, else the text of the
    node. *)
Lemma captured_original root nodes m p :
  p ∈ nodes →
  first_nonempty (mjoin ((captureNodeTexts root nodes m).1 !! p))
                 (nodeValue_at root p)
  = first_nonempty (mjoin (m !! p)) (nodeValue_at root p).
Proof.
  intros Hp. destruct (m !! p) as [o|] eqn:Hm.
  - by rewrite (captureNodeTexts_keeps _ _ _ _ _ Hm).
  - destruct (captureNodeTexts_all root nodes m p Hp) as [v Hv].
    rewrite Hv.
    destruct (captureNodeTexts_first _ _ _ _ _ Hm Hv) as [-> _].
    by destruct (nodeValue_at root p) as [[|c x]|].
Qed.

Lemma applyTranslations_plain cprops lang props nodes attrItems s root :
  body (document s) = Some root →
  own_get cprops lang = Some (VObj props) →
  NoDup nodes →
  (∀ p, p ∈ nodes → is_Some (nodeValue_at root p)) →
  NoDup ((λ it, (el it, attr it)) <$> attrItems) →
  (∀ it, it ∈ attrItems → is_element_at root (el it) = true) →
  let s' := page_of (applyTranslations (VObj cprops) lang nodes attrItems s) in
  (∀ p, p ∈ nodes →
     text_in s' p
     = let orig := first_nonempty (mjoin (originalTextByNode s !! p))
                                  (nodeValue_at root p) in
       if bool_decide (trim orig = []) then nodeValue_at root p
       else Some (ToString (or_else (obj_get props (trim orig))
                                    (VStr orig))))
  ∧ (∀ it, it ∈ attrItems →
       attribute_in s' (el it) (attr it)
       = Some (ToString (or_else (obj_get props (val it))
                                 (VStr (val it))))).
Proof.
  intros Hbody Hentry Hnd Htext Hkeys Hel. cbv zeta.
  unfold applyTranslations. rewrite Hbody.
  destruct (applyNodes_plain (originalTextByNode s) cprops lang props nodes
              Hentry Hnd root Htext) as [Hnone Hval].
  destruct (applyNodes _ _ _ _ _) as [root1 o1] eqn:Hnodes.
  cbn [fst snd] in Hnone, Hval. subst o1.
  destruct (applyAttrs_plain cprops lang props attrItems Hentry Hkeys root1)
    as [Hnone' Hval'].
  { intros it Hit.
    replace root1
      with (applyNodes (originalTextByNode s) (VObj cprops) lang nodes root).1
      by (by rewrite Hnodes).
    rewrite applyNodes_element. by apply Hel. }
  pose proof (applyAttrs_nodeValue (VObj cprops) lang attrItems root1) as Hnv.
  destruct (applyAttrs _ _ _ _) as [root2 o2] eqn:Hattrs.
  cbn [fst snd] in Hnone', Hval', Hnv. subst o2.
  cbn [page_of]. unfold text_in, attribute_in.
  cbn [document set_body set_document body mbind option_bind].
  split.
  - intros p Hp. rewrite Hnv. by apply Hval.
  - exact Hval'.
Qed.

Lemma supported_not_inherited lang :
  supported lang → lang ∉ Object_prototype_keys.
Proof.
  intros Hs Hp. apply list_elem_of_In in Hs, Hp. cbn in Hs.
  repeat (destruct Hs as [<-|Hs];
          [vm_compute in Hp; intuition discriminate|]).
  done.
Qed.

(** X17.  A call in a supported language other than English that goes through
    (it returns without a warning), started with a stored cache that is an
    object whose entry for the language is an object or falsy.  The string
    at index [j] of the [k]-th slice of [missing] is cached with the
    [j]-th element of the answer to the [k]-th request, or with itself when
    that element is falsy; the other entries are those of the cache the
    call started from.  Every collected text node then shows the cached
    value of its trimmed original, or the original when that value is
    falsy, the original being the one remembered before the call when
    there is a non-empty one and the text of the node otherwise; every
    collected attribute shows the cached value of its trimmed value, or the
    trimmed value. *)
Theorem a_translation_shows_the_cache (lang : jsstring) (s s' : Page)
    (root : Node) (cprops : list (jsstring * value)) :
  supported lang → lang ≠ js "en" →
  body (document s) = Some root →
  loadCache s = VObj cprops →
  (∀ v, own_get cprops lang = Some v →
        truthy v = false ∨ ∃ props, v = VObj props) →
  applyLanguage server lang s = Ret tt s' →
  console s' = console s →
  ∃ cache0 missing cache',
    openCache lang s = inr cache0
    ∧ missingTexts lang root s = inr missing
    ∧ (∀ k j t,
         j < 80 → missing !! (k * 80 + j) = Some t →
         ∃ translated,
           parseResponse
             (server (requests s ++ take k (new_requests s s'))
                     (mkRequest lang (take 80 (drop (k * 80) missing))))
           = inr translated
           ∧ cache_lookup cache' lang t
             = inr (or_else (array_index translated j) (VStr t)))
    ∧ (∀ t, t ∉ missing →
            cache_lookup cache' lang t = cache_lookup cache0 lang t)
    ∧ (∀ p, p ∈ collectTextNodes (document s) root →
         let orig := first_nonempty (mjoin (originalTextByNode s !! p))
                                    (nodeValue_at root p) in
         trim orig ≠ [] →
         ∃ v, cache_lookup cache' lang (trim orig) = inr v
              ∧ text_in s' p = Some (ToString (or_else v (VStr orig))))
    ∧ (∀ it, it ∈ collectTranslatableAttributes (document s) root →
         ∃ v, cache_lookup cache' lang (val it) = inr v
              ∧ attribute_in s' (el it) (attr it)
                = Some (ToString (or_else v (VStr (val it))))).
Proof.
  intros Hsup Hen Hbody Hload Hentry Hret Hcons.
  pose proof (normalize_supported lang Hsup) as Hnorm.
  destruct (openCache_plain lang s cprops Hload
              (supported_not_inherited lang Hsup) Hentry)
    as (cprops0 & props0 & Hopen & Hentry0).
  (* the requests of the call *)
  pose proof (applyLanguage_requests_some server lang s root) as Hreqs.
  cbv zeta in Hreqs. rewrite Hnorm, Hret in Hreqs. cbn [page_of returned] in Hreqs.
  (* the run *)
  pose proof Hret as Hrun.
  rewrite applyLanguage_unfold in Hrun. cbv zeta in Hrun.
  rewrite Hnorm, Hbody, bool_decide_false in Hrun by done.
  unfold translatePage in Hrun.
  rewrite openCache_selects, Hopen in Hrun.
  set (s1 := set_languageSelects _ s) in Hrun.
  set (c := captureOriginals root s1) in Hrun.
  assert (Hmt : missingTexts lang root s
                = filterMissing (VObj cprops0) lang c.2.2).
  { rewrite <- (missingTexts_selects lang root
                  (syncSelects lang (languageSelects s)) s).
    unfold missingTexts. by rewrite openCache_selects, Hopen. }
  destruct (filterMissing (VObj cprops0) lang c.2.2) as [e|missing] eqn:Hfm;
    [done|].
  destruct (Hreqs missing Hbody Hen Hmt) as (n & Hnew & _ & _ & Hall).
  specialize (Hall eq_refl Hcons).
  unfold bind in Hrun.
  destruct (chunkLoop_spec server (length missing) lang missing 0
              (VObj cprops0) c.1)
    as (n' & _ & (Hd & _ & Ht & _) & _ & _ & _ & Hnone & _).
  destruct (chunkLoop server (length missing) lang missing 0 (VObj cprops0)
              c.1) as [[cache'|] s2|e s2] eqn:Hloop; [| |done].
  2:{ injection Hrun as <-. by destruct (Hnone s2 eq_refl). }
  cbn [page_of] in Hd, Ht.
  destruct (chunkLoop_cache_aligned server (length missing) lang missing
              (missingTexts_NoDup _ _ _ _ Hmt) 0 cprops0 props0 c.1 cache' s2
              Hentry0)
    as (Halign & Hother & cprops' & props' & -> & Hentry'); [|lia|done|].
  { intros t Ht'. rewrite drop_0 in Ht'.
    destruct (filterMissing_spec _ _ _ _ Hfm t Ht') as (_ & v & Hv & Hf).
    rewrite (cache_lookup_plain _ _ props0) in Hv by done. congruence. }
  exists (VObj cprops0), missing, (VObj cprops').
  split; [done|]. split; [done|]. split; [|split].
  - intros k j t Hj Hk.
    destruct (Halign k j t Hj Hk) as (translated & Hans & Hlook).
    exists translated. split; [|done].
    assert (k < n) as Hkn.
    { apply lookup_lt_Some in Hk. unfold CHUNK in Hall. lia. }
    rewrite Hnew, chunk_requests_take by lia. exact Hans.
  - intros t Ht'. apply Hother. by rewrite drop_0.
  - change c.2.1.1 with (collectTextNodes (document s) root) in Hrun.
    change c.2.1.2
      with (collectTranslatableAttributes (document s) root) in Hrun.
    destruct (applyTranslations_plain cprops' lang props'
                (collectTextNodes (document s) root)
                (collectTranslatableAttributes (document s) root) s2 root)
      as [Htexts Hattrs].
    + by rewrite Hd.
    + done.
    + apply walkText_NoDup.
    + intros p Hp. by eapply walkText_text.
    + apply walkAttrs_keys_NoDup.
    + intros it Hit. by eapply walkAttrs_element.
    + rewrite Hrun in Htexts, Hattrs. cbn [page_of] in Htexts, Hattrs.
      split.
      * intros p Hp orig Hkey.
        exists (obj_get props' (trim orig)).
        split; [by apply cache_lookup_plain|].
        rewrite (Htexts p Hp). cbv zeta. rewrite Ht.
        change (originalTextByNode c.1)
          with (captureNodeTexts root (collectTextNodes (document s) root)
                  (originalTextByNode s)).1.
        rewrite captured_original by done.
        by rewrite bool_decide_false.
      * intros it Hit. exists (obj_get props' (val it)).
        split; [by apply cache_lookup_plain|]. by apply Hattrs.
Qed.

(** *** [translateBatch] *)

(** X16.  Every call of [translateBatch] sends one request, with the language
    and the texts given.  It returns the [translations] of an ok answer
    when they are an array; it throws the [error] string of an answer that
    is not ok, ['Translation failed'] when there is none (also when the
    body is not JSON), and ['Invalid translation response'] on an ok
    answer whose body is not JSON or has no array. *)
Theorem translateBatch_outcomes (lang : jsstring) (texts : list jsstring)
    (s : Page) :
  let answer := server (requests s) (mkRequest lang texts) in
  let s' := set_requests (requests s ++ [mkRequest lang texts]) s in
  page_of (translateBatch server lang texts s) = s'
  ∧ (∀ props translations,
       answer = HttpResponse true (Some (VObj props)) →
       obj_get props (js "translations") = VArr translations →
       translateBatch server lang texts s = Ret translations s')
  ∧ (∀ props msg,
       answer = HttpResponse false (Some (VObj props)) →
       obj_get props (js "error") = VStr msg →
       translateBatch server lang texts s
       = Throw (Error (if bool_decide (msg = [])
                       then js "Translation failed" else msg)) s')
  ∧ (answer = HttpResponse false None →
     translateBatch server lang texts s
     = Throw (Error (js "Translation failed")) s')
  ∧ (answer = HttpResponse true None →
     translateBatch server lang texts s
     = Throw (Error (js "Invalid translation response")) s')
  ∧ (∀ reason, answer = NetworkError reason →
       translateBatch server lang texts s = Throw (Rejected reason) s').
Proof.
  cbv zeta. unfold translateBatch. split; [|split; [|split; [|split; [|split]]]].
  - by destruct (parseResponse _).
  - intros props translations -> Htr. cbn. by rewrite Htr.
  - intros props msg -> Herr. cbn. rewrite Herr. unfold or_else. cbn.
    by case_bool_decide.
  - by intros ->.
  - by intros ->.
  - by intros reason ->.
Qed.

(** *** Back to English *)

(** X25.  On a page where nothing was remembered, after any sequence of calls, a
    call in English gives a text node the text it had at the start when
    the node is collected and a string is remembered for it, and also when
    nothing is remembered for it. *)
Theorem english_restores_the_initial_text (langs : list jsstring)
    (s : Page) (root : Node) (p : path) :
  let s1 := applyLanguages server langs s in
  let s2 := page_of (applyLanguage server (js "en") s1) in
  originalTextByNode s = ∅ →
  body (document s1) = Some root →
  (p ∈ collectTextNodes (document s1) root
   ∧ ∃ orig, originalTextByNode s1 !! p = Some (Some orig))
  ∨ originalTextByNode s1 !! p = None →
  text_in s2 p = text_in s p.
Proof.
  cbv zeta. intros Hempty Hbody Hp.
  by apply (english_restores_initial_texts server langs s root p).
Qed.

(** *** The selector, [AppLanguage.set] and the page load *)

(** X26.  [AppLanguage.set] stores the language before it applies it: when the
    storage takes the write, [getLang] gives the language afterwards,
    however the translation went; when it refuses, the call throws with
    the page untouched, so nothing is applied. *)
Theorem AppLanguage_set_stores_then_applies (lang : jsstring) (s : Page) :
  if storage_accepts (localStorage s) STORAGE_KEY (normalize lang)
  then getLang (page_of (AppLanguage_set server lang s)) = normalize lang
       ∧ AppLanguage_set server lang s
         = applyLanguage server lang
             (set_localStorage
                (<[STORAGE_KEY := normalize lang]> (localStorage s)) s)
  else AppLanguage_set server lang s = Throw QuotaExceeded s.
Proof.
  unfold AppLanguage_set, bind, setLang, setItem. fold (normalize lang).
  destruct (storage_accepts _ _ _); [|done].
  split; [|done]. rewrite applyLanguage_getLang.
  apply getLang_stored; [|apply normalize_truthy].
  cbn. apply lookup_insert_eq.
Qed.

(** X27.  The [change] listener of a select: when the storage takes the write,
    the language chosen is the stored one afterwards and every select
    shows it, or nothing when it has no such option; when the storage
    refuses, the listener throws with the page untouched. *)
Theorem select_change_stores_and_applies (i : nat) (select : Select)
    (s : Page) :
  languageSelects s !! i = Some select →
  let lang := normalize (value_of select) in
  let s' := page_of (onSelectChange server i s) in
  if storage_accepts (localStorage s) STORAGE_KEY lang
  then getLang s' = lang
       ∧ ∀ j sel, languageSelects s !! j = Some sel →
           ∃ sel', languageSelects s' !! j = Some sel'
                   ∧ options sel' = options sel
                   ∧ (value_of sel' = lang
                      ∨ (value_of sel' = [] ∧ lang ∉ options sel))
  else onSelectChange server i s = Throw QuotaExceeded s.
Proof.
  intros Hi. cbv zeta. unfold onSelectChange. rewrite Hi.
  unfold bind, setLang, setItem, modify. fold (normalize (value_of select)).
  destruct (storage_accepts _ _ _); [|done].
  split.
  - rewrite applyLanguage_getLang.
    apply getLang_stored; [|apply normalize_truthy].
    cbn. apply lookup_insert_eq.
  - intros j sel Hj.
    match goal with
    | |- context [applyLanguage server ?l ?s0] =>
        destruct (applyLanguage_frame l s0) as [_ Hsel]
    end.
    rewrite Hsel. cbn [languageSelects set_languageSelects].
    destruct (syncSelects_lookup (normalize (value_of select))
                (set_value (value_of select) <$> languageSelects s) j
                (set_value (value_of select) sel)) as (sel' & H1 & H2 & H3).
    { by rewrite list_lookup_fmap, Hj. }
    exists sel'. done.
Qed.



(** *** The cache in [localStorage] *)

(** X13.  What [saveCache] writes, [loadCache] reads back, when [JSON.parse]
    inverts [JSON.stringify] on the cache; when the storage refuses the
    write, the cache read is the one stored before. *)
Theorem saved_cache_is_loaded_back (cache : value) (s : Page) :
  JSON_stringify cache ≠ [] →
  JSON_parse (JSON_stringify cache) = Some cache →
  loadCache (saveCache cache s)
  = if storage_accepts (localStorage s) CACHE_KEY (JSON_stringify cache)
    then cache else loadCache s.
Proof.
  intros Hne Hparse. unfold saveCache.
  destruct (storage_accepts _ _ _).
  - apply (loadCache_parsed _ (JSON_stringify cache)); [|done|done].
    cbn. apply lookup_insert_eq.
  - by apply loadCache_ext.
Qed.

End WithHost.

Import Samples MoreSamples.

Lemma only_collected_text_changes_witness :
  text_in (page_of (applyLanguage echo_server (js "hi") (sample_page ∅)))
          [2; 0]
  = text_in (sample_page ∅) [2; 0].
Proof.
  apply (only_collected_text_changes echo_server (js "hi") (sample_page ∅)
           sample_body [2; 0]); [reflexivity|].
  rewrite list_elem_of_In. vm_compute. intuition discriminate.
Defined.

Lemma protected_text_is_kept_witness :
  text_in (page_of (applyLanguage echo_server (js "hi") (sample_page ∅)))
          [3; 0; 0]
  = text_in (sample_page ∅) [3; 0; 0].
Proof.
  apply (protected_text_is_kept echo_server (js "hi") (sample_page ∅)
           sample_body [3; 0; 0]); [reflexivity|].
  left. reflexivity.
Defined.

Lemma other_attributes_are_kept_witness :
  attribute_in (page_of (applyLanguage echo_server (js "hi")
                           (sample_page ∅)))
               [3; 0] (js "title")
  = attribute_in (sample_page ∅) [3; 0] (js "title").
Proof.
  apply (other_attributes_are_kept echo_server (js "hi") (sample_page ∅)
           sample_body [3; 0] (js "title")); [reflexivity|].
  right; right; left. reflexivity.
Defined.

Lemma english_call_is_local_witness :
  requests (page_of (applyLanguage echo_server (js "xx") (sample_page ∅)))
  = requests (sample_page ∅).
Proof.
  destruct (english_call_is_local echo_server (js "xx") (sample_page ∅))
    as (_ & Hreq & _); [reflexivity|].
  exact Hreq.
Defined.

Lemma select_change_stores_and_applies_witness :
  getLang (page_of (onSelectChange echo_server 0 hindi_chosen)) = js "hi".
Proof.
  destruct (select_change_stores_and_applies echo_server 0
              (mkSelect [js "en"; js "hi"] (js "hi")) hindi_chosen eq_refl)
    as [Hlang _].
  exact Hlang.
Defined.

Lemma saved_cache_is_loaded_back_witness :
  @loadCache json_host (@saveCache json_host cache_value (sample_page ∅))
  = cache_value.
Proof.
  apply (@saved_cache_is_loaded_back json_host cache_value (sample_page ∅)).
  - by vm_compute.
  - reflexivity.
Defined.

Lemma a_translation_shows_the_cache_witness :
  ∃ v,
    text_in (page_of (applyLanguage echo_server (js "hi") (sample_page ∅)))
            [0; 0]
    = Some (ToString
              (or_else v
                 (VStr (first_nonempty
                          (mjoin (originalTextByNode (sample_page ∅)
                                  !! [0; 0]))
                          (nodeValue_at sample_body [0; 0]))))).
Proof.
  destruct (a_translation_shows_the_cache echo_server (js "hi")
              (sample_page ∅)
              (page_of (applyLanguage echo_server (js "hi") (sample_page ∅)))
              sample_body [])
    as (cache0 & missing & cache' & _ & _ & _ & _ & Htext & _).
  - unfold supported. rewrite list_elem_of_In. vm_compute. tauto.
  - intros Heq. vm_compute in Heq. discriminate.
  - reflexivity.
  - apply loadCache_unset, sample_page_cache_unset.
  - by intros v [=].
  - by vm_compute.
  - by vm_compute.
  - destruct (Htext [0; 0]) as (v & _ & Hv).
    + rewrite list_elem_of_In. vm_compute. tauto.
    + by vm_compute.
    + exists v. exact Hv.
Defined.

Lemma english_restores_the_initial_text_witness :
  text_in (page_of (applyLanguage echo_server (js "en")
                      (applyLanguages echo_server [js "hi"; js "te"]
                         (sample_page ∅))))
          [0; 0]
  = text_in (sample_page ∅) [0; 0].
Proof.
  apply (english_restores_the_initial_text echo_server [js "hi"; js "te"]
           (sample_page ∅)
           (default sample_body
              (body (document (applyLanguages echo_server [js "hi"; js "te"]
                                 (sample_page ∅)))))
           [0; 0]).
  - reflexivity.
  - by vm_compute.
  - left. split.
    + rewrite list_elem_of_In. vm_compute. tauto.
    + exists (js " Hello "). by vm_compute.
Defined.


(** The load of the sample page: the labels of the options just added are
    text of the document, and are sent for translation with the rest. *)
Lemma page_load_requests_the_option_labels :
  (λ r, length (req_texts r))
    <$> new_requests select_page
          (page_of (onDOMContentLoaded echo_server [[1]] select_page))
  = [9]
  ∧ ∀ label, VStr label ∈ LANGS.*2 →
      ∃ r, r ∈ new_requests select_page
                 (page_of (onDOMContentLoaded echo_server [[1]]
                             select_page))
           ∧ label ∈ req_texts r.
Proof.
  split; [by vm_compute|]. intros label Hl.
  eexists. split; [vm_compute; left; reflexivity|].
  apply list_elem_of_In in Hl. cbn in Hl.
  repeat (destruct Hl as [[= <-]|Hl];
          [apply list_elem_of_In; vm_compute; tauto|]).
  done.
Qed.


End LanguageMoreFacts.

